(** * P2DFFT: the frequency remap and the pitch/phase/SNR/FWHM extractor

    A shallow embedding of [pitch_class.cpp] (class [pitch]) and of the
    per-radius body of [main] in [p2dfft.cpp].

    - A C [double] is Rocq's primitive binary64 [float]; comparisons are the
      IEEE ones ([x == x] is false exactly on NaN).  A C [float] is embedded
      in the same type (every binary32 value is a binary64 value).
    - A C array indexed by an [int] is a total map [Z -> elt].
    - [res] (passed by pointer) and the global [pitch_errno] are threaded
      explicitly through a state record.
    - The libm functions [atan2], [pow], [log] and the constants of
      [globals.h] are section variables.

    The rest of [main] that the per-radius body depends on is embedded as
    well: the copy of the pixel list into the image array, the radius and
    the centre, [find_bar], the polar sampling of an annulus, the
    normalisation of the FFT output, the loop over the radii with the rows
    of the per-mode output, the frequency axis of the summed spectrum and
    [remove_extension]; and of [astro_class.cpp] the functions [read_lines],
    [fits_dims] and [ArrayAlloc] that [main] calls.

    - A [std::string] is a list of characters, [npos] is [None].
    - The outcome of the CFITSIO calls on a file, [malloc] and [atoi] are
      section variables or arguments.
    - A loop whose body can read an unassigned local runs in the [eval]
      monad. *)

From Stdlib Require Import ZArith List Bool Lia.
From Stdlib Require Import Floats.
From Stdlib Require Ascii.
Import ListNotations.

Open Scope Z_scope.

(* Decimal constants of the sources that are not binary64 values (1e-10)
   are read as the nearest binary64 value, as a C compiler reads them. *)
#[local] Set Warnings "-inexact-float".

(** ** C doubles *)

Definition double := float.

(** [f == f], the self-equality test the sources use to detect NaN. *)
Definition not_nan (f : double) : bool := (f =? f)%float.

(** [(double) z] for an [int] [z]. *)
Definition double_of_int (z : Z) : double :=
  if z <? 0 then (- (of_uint63 (Uint63.of_Z (- z))))%float
  else of_uint63 (Uint63.of_Z z).

(** The macro [NAN] of [<math.h>]. *)
Definition NAN : double := nan.

(** ** Loops *)

(** [for (i = lo; n iterations; i++) s = body i s]. *)
Fixpoint for_loop {A : Type} (n : nat) (i : Z) (body : Z -> A -> A) (s : A) : A :=
  match n with
  | O => s
  | S n' => for_loop n' (i + 1) body (body i s)
  end.

(** [for (i = lo; i <= hi; i++) s = body i s]. *)
Definition for_incl {A : Type} (lo hi : Z) (body : Z -> A -> A) (s : A) : A :=
  for_loop (Z.to_nat (hi + 1 - lo)) lo body s.

(** ** pitch_class.h *)

Module fft_out.
Record t : Type := mk
  { real : double;   (* Real component of FFT output *)
    imag : double;   (* Imaginary component of FFT output *)
    abs : double;    (* Absolute value of the complex number *)
    freq : double    (* Frequency related to this complex number *) }.

Definition set_real (v : double) (r : t) : t := mk v (imag r) (abs r) (freq r).
Definition set_imag (v : double) (r : t) : t := mk (real r) v (abs r) (freq r).
Definition set_abs (v : double) (r : t) : t := mk (real r) (imag r) v (freq r).
Definition set_freq (v : double) (r : t) : t := mk (real r) (imag r) (abs r) v.
End fft_out.

Module result_pa.
Record t : Type := mk
  { index : Z;         (* Index of highest amplitude *)
    freq : double;     (* Frequency of highest amplitude *)
    amp : double;      (* Highest amplitude *)
    avg_amp : double;  (* Average amplitude (noise level) *)
    pa : double;       (* Calculated pitch angle *)
    phase : double;    (* calculated phase angle *)
    snr : double;      (* calculated signal-to-noise ratio *)
    fwhm : double      (* calculated full width half maximum *) }.

Definition set_index v r := mk v (freq r) (amp r) (avg_amp r) (pa r) (phase r) (snr r) (fwhm r).
Definition set_freq v r := mk (index r) v (amp r) (avg_amp r) (pa r) (phase r) (snr r) (fwhm r).
Definition set_amp v r := mk (index r) (freq r) v (avg_amp r) (pa r) (phase r) (snr r) (fwhm r).
Definition set_avg_amp v r := mk (index r) (freq r) (amp r) v (pa r) (phase r) (snr r) (fwhm r).
Definition set_pa v r := mk (index r) (freq r) (amp r) (avg_amp r) v (phase r) (snr r) (fwhm r).
Definition set_phase v r := mk (index r) (freq r) (amp r) (avg_amp r) (pa r) v (snr r) (fwhm r).
Definition set_snr v r := mk (index r) (freq r) (amp r) (avg_amp r) (pa r) (phase r) v (fwhm r).
Definition set_fwhm v r := mk (index r) (freq r) (amp r) (avg_amp r) (pa r) (phase r) (snr r) v.
End result_pa.

(** An array of frequency-bin records, [fft_out *fft]. *)
Definition fft_array := Z -> fft_out.t.

Definition PITCH_RET_OK : Z := 1.
Definition PITCH_RET_NAN : Z := 0.
Definition PITCH_RET_ERR : Z := -1.

Definition PITCH_ERR_INVALID : Z := 2049.
Definition PITCH_ERR_MAX_AMP : Z := 2050.
Definition PITCH_ERR_ALLNANS : Z := 2051.
Definition PITCH_ERR_SIGMA : Z := 2052.
Definition PITCH_ERR_SCANFWHM : Z := 2053.

(** ** pitch_class.cpp *)

Definition LO_INDEX : Z := 824.
Definition HI_INDEX : Z := 1226.

(** What a member function of [pitch] reads and writes besides its
    arguments: the record behind [res] and the global [pitch_errno]. *)
Record pitch_state : Type := mk_state
  { res : result_pa.t;
    pitch_errno : Z }.

Definition set_pitch_errno (err : Z) (st : pitch_state) : pitch_state :=
  mk_state (res st) err.

Definition upd_res (f : result_pa.t -> result_pa.t) (st : pitch_state) : pitch_state :=
  mk_state (f (res st)) (pitch_errno st).

(** The locals of the maximum search of [pitch_phase]. *)
Record scan : Type := mk_scan
  { nan : Z;
    index : Z;
    a_max : double }.

Definition scan_init : scan := mk_scan 1 (-1) (-255.0)%float.

(** One iteration of the loop at pitch_class.cpp:176-192. *)
Definition scan_body (fft : fft_array) (i : Z) (s : scan) : scan :=
  let nan' := if not_nan (fft_out.abs (fft i)) then 0 else nan s in
  if (a_max s <? fft_out.abs (fft i))%float && negb (i =? 1025)
  then mk_scan nan' i (fft_out.abs (fft i))
  else mk_scan nan' (index s) (a_max s).

Definition scan_window (fft : fft_array) : scan :=
  for_incl LO_INDEX HI_INDEX (scan_body fft) scan_init.

Section Pitch.

(** [GR_RAD] of [globals.h] (radians per degree). *)
Variable GR_RAD : double.
(** libm. *)
Variable atan2 : double -> double -> double.
Variable pow : double -> double -> double.

(** The wrap-around of pitch_class.cpp:215. *)
Definition wrap_pa (pa : double) : double :=
  if (90.0 <? PrimFloat.abs pa)%float then (pa - 180.0)%float else pa.

Definition pitch_angle (mode : Z) (fr : double) : double :=
  wrap_pa (atan2 (double_of_int mode) fr * (1.0 / GR_RAD))%float.

Definition phase_angle (mode : Z) (b : fft_out.t) : double :=
  (atan2 (fft_out.imag b) (fft_out.real b) * (1.0 / GR_RAD) / double_of_int mode)%float.

(** [pitch::pitch_phase]: the returned status and the state it leaves. *)
Definition pitch_phase (fft : fft_array) (mode : Z) (st : pitch_state)
  : Z * pitch_state :=
  let s := scan_window fft in
  if negb (nan s =? 0) then (PITCH_RET_NAN, st)
  else if index s <? 0 then (0, set_pitch_errno PITCH_ERR_MAX_AMP st)
  else
    let b := fft (index s) in
    let r := result_pa.set_index (index s)
               (result_pa.set_freq (fft_out.freq b)
                  (result_pa.set_amp (fft_out.abs b) (res st))) in
    let r := result_pa.set_pa (pitch_angle mode (fft_out.freq b)) r in
    let r := result_pa.set_phase (phase_angle mode b) r in
    (1, mk_state r (pitch_errno st)).

(** The two accumulation loops of [snr], pitch_class.cpp:248-255 and
    272-275; the first carries the locals [(avg, vals)]. *)
Definition mean_body (fft : fft_array) (i : Z) (a : double * double)
  : double * double :=
  if negb (i =? 1025) && not_nan (fft_out.abs (fft i))
  then ((fst a + fft_out.abs (fft i))%float, (snd a + 1.0)%float)
  else a.

Definition dev_body (fft : fft_array) (L : double) (i : Z) (avg : double)
  : double :=
  if negb (i =? 1025) && not_nan (fft_out.abs (fft i))
  then (avg + pow (fft_out.abs (fft i) - L) 2.0)%float
  else avg.

(** [pitch::snr]. *)
Definition snr (fft : fft_array) (st : pitch_state) : Z * pitch_state :=
  let a := for_incl LO_INDEX HI_INDEX (mean_body fft) (0.0, 0.0)%float in
  let vals := snd a in
  if (vals <? 0.5)%float
  then (PITCH_RET_ERR, set_pitch_errno PITCH_ERR_ALLNANS st)
  else
    let L := (fst a / vals)%float in
    let st := upd_res (result_pa.set_avg_amp L) st in
    let avg := for_incl LO_INDEX HI_INDEX (dev_body fft L) 0.0%float in
    let sigma := pow (avg / vals)%float 0.5%float in
    if (sigma <=? 1e-10)%float
    then (PITCH_RET_ERR, set_pitch_errno PITCH_ERR_SIGMA st)
    else
      let v := ((result_pa.amp (res st) - L) / sigma)%float in
      let st := upd_res (result_pa.set_snr v) st in
      if not_nan v then (PITCH_RET_OK, st) else (PITCH_RET_NAN, st).

End Pitch.

(** The two [while] loops of [fwhm], pitch_class.cpp:340-352 and 356-368.
    [n] is the loop variant ([HI_INDEX + 1 - i], resp. [i + 1 - LO_INDEX]);
    the result is the final value of [hi], resp. [lo], which starts at 0. *)
Fixpoint scan_hi (fft : fft_array) (limit : double) (n : nat) (i : Z) : Z :=
  match n with
  | O => 0
  | S n' =>
      if i <=? HI_INDEX then
        if negb (i =? 1025) && (fft_out.abs (fft i) <? limit)%float
        then i - 1
        else scan_hi fft limit n' (i + 1)
      else 0
  end.

Fixpoint scan_lo (fft : fft_array) (limit : double) (n : nat) (i : Z) : Z :=
  match n with
  | O => 0
  | S n' =>
      if LO_INDEX <=? i then
        if negb (i =? 1025) && (fft_out.abs (fft i) <? limit)%float
        then i + 1
        else scan_lo fft limit n' (i - 1)
      else 0
  end.

Definition fwhm_limit (r : result_pa.t) : double :=
  (result_pa.amp r - (result_pa.amp r - result_pa.avg_amp r) / 2.0)%float.

(** [pitch::fwhm]. *)
Definition fwhm (fft : fft_array) (st : pitch_state) : Z * pitch_state :=
  let r := res st in
  if (result_pa.index r <? LO_INDEX) || (HI_INDEX <? result_pa.index r)
  then (PITCH_RET_ERR, set_pitch_errno PITCH_ERR_INVALID st)
  else
    let limit := fwhm_limit r in
    let i := result_pa.index r + 1 in
    let hi := scan_hi fft limit (Z.to_nat (HI_INDEX + 1 - i)) i in
    let i := result_pa.index r - 1 in
    let lo := scan_lo fft limit (Z.to_nat (i + 1 - LO_INDEX)) i in
    if (hi =? 0) || (lo =? 0)
    then (PITCH_RET_ERR, set_pitch_errno PITCH_ERR_SCANFWHM st)
    else
      let v := double_of_int (hi - lo + 1) in
      let st := upd_res (result_pa.set_fwhm v) st in
      if not_nan v then (PITCH_RET_OK, st) else (PITCH_RET_NAN, st).

(** ** p2dfft.cpp: the extractor calls of one (mode, radius) *)

Inductive stage : Type := Pitch_phase | Snr | Fwhm.

(** The member functions called for one (mode, radius), in call order, each
    with the status it returned. *)
Definition call_log := list (stage * Z).

Section Extract.

Variable GR_RAD : double.
Variable atan2 : double -> double -> double.
Variable pow : double -> double -> double.

(** The recovery of a failed [pitch_phase], p2dfft.cpp:1586-1593. *)
Definition clear_all (r : result_pa.t) : result_pa.t :=
  result_pa.set_fwhm NAN (result_pa.set_snr NAN (result_pa.set_phase NAN
    (result_pa.set_pa NAN (result_pa.set_avg_amp NAN (result_pa.set_amp NAN
      (result_pa.set_freq NAN (result_pa.set_index 0 r))))))).

(** p2dfft.cpp:1567-1614, on the cell [mode_data[mode][radius]] held in
    [st]. *)
Definition extract (fft : fft_array) (mode : Z) (st : pitch_state)
  : pitch_state * call_log :=
  let '(status, st) := pitch_phase GR_RAD atan2 fft mode st in
  let log := [(Pitch_phase, status)] in
  if (status =? PITCH_RET_ERR) || (status =? PITCH_RET_NAN)
  then (upd_res clear_all st, log)
  else
    let '(status, st) := snr pow fft st in
    let log := log ++ [(Snr, status)] in
    if status =? PITCH_RET_ERR
    then (upd_res (fun r => result_pa.set_fwhm NAN (result_pa.set_snr NAN
                     (result_pa.set_avg_amp NAN r))) st, log)
    else
      let '(status, st) := fwhm fft st in
      let log := log ++ [(Fwhm, status)] in
      if status =? PITCH_RET_ERR
      then (upd_res (result_pa.set_fwhm NAN) st, log)
      else (st, log).

End Extract.

(** ** p2dfft.cpp: frequency remap (lines 1481-1515) *)

(** [fftw_complex] is [double[2]]: index 0 the real part, index 1 the
    imaginary part. *)
Definition fftw_complex := (double * double)%type.

(** [a[k] = f (a[k])]. *)
Definition upd {A : Type} (a : Z -> A) (k : Z) (f : A -> A) : Z -> A :=
  fun j => if j =? k then f (a j) else a j.

Section Remap.

(** [DIM_RAD] of [globals.h]; [pow] of libm. *)
Variable DIM_RAD : Z.
Variable pow : double -> double -> double.

Definition magnitude (c : fftw_complex) : double :=
  sqrt (pow (fst c) 2.0 + pow (snd c) 2.0)%float.

(** The three writes [.real], [.imag], [.abs] of one slot. *)
Definition store_bin (c : fftw_complex) (r : fft_out.t) : fft_out.t :=
  fft_out.set_abs (magnitude c)
    (fft_out.set_imag (-1.0 * snd c)%float
       (fft_out.set_real (fst c) r)).

(** The locals the remap threads: the worker's [fft_data[current]] and
    [counter]. *)
Record remap_state : Type := mk_remap
  { fft_data : fft_array;
    counter : Z }.

(** The body shared by the loops at 1481-1490 and 1506-1515. *)
Definition remap_body (out_data : Z -> fftw_complex) (cont_p : Z)
  (s : remap_state) : remap_state :=
  mk_remap
    (upd (fft_data s) (cont_p + Z.quot DIM_RAD 2 + 1)
       (store_bin (out_data (counter s))))
    (counter s + 1).

(** Lines 1492-1504: the wrap point. *)
Definition remap_wrap (out_data : Z -> fftw_complex) (s : remap_state)
  : remap_state :=
  let c := out_data (counter s) in
  let d := upd (fft_data s) (DIM_RAD + 1) (store_bin c) in
  let d := upd d 1 (fft_out.set_abs (magnitude c)) in
  mk_remap d (counter s + 1).

Definition remap (out_data : Z -> fftw_complex) (mode : Z) (d : fft_array)
  : remap_state :=
  let s := mk_remap d (mode * DIM_RAD) in
  let s := for_incl 0 (Z.quot DIM_RAD 2 - 1) (remap_body out_data) s in
  let s := remap_wrap out_data s in
  for_incl ((-1) * Z.quot DIM_RAD 2 + 1) (-1) (remap_body out_data) s.

(** ** p2dfft.cpp: frequency labels, summed spectrum, high pass
    (lines 1522-1553) *)

(** [STEP_P], [FREQ_START], [FREQ_END] of [globals.h]; [to_float] is the
    rounding of a [double] to a C [float] (an assignment to a [float]
    variable, a [(float)] cast). *)
Variable STEP_P FREQ_START FREQ_END : double.
Variable to_float : double -> double.

(** [freq_save] at slot [jm] (line 1526). *)
Definition freq_save (jm : Z) : double :=
  to_float (double_of_int (-1) * STEP_P * double_of_int DIM_RAD / double_of_int 2
            + double_of_int (jm - 1) * STEP_P)%float.

Definition in_bounds (f : double) : bool :=
  (FREQ_START <=? f)%float && (f <=? FREQ_END)%float.

(** The test of line 1540. *)
Definition in_high_pass_band (high_pass mode : Z) (f : double) : bool :=
  negb (high_pass =? 0)
  && (f <? to_float (double_of_int mode) * 0.25)%float
  && (to_float (double_of_int mode) * (-0.25) <? f)%float.

(** Lines 1540-1545: the high-pass suppression of one bin. *)
Definition high_pass_bin (high_pass mode : Z) (f : double) (r : fft_out.t)
  : fft_out.t :=
  if in_high_pass_band high_pass mode f
  then fft_out.set_imag 0.0%float
         (fft_out.set_real 0.0%float (fft_out.set_abs 0.0%float r))
  else r.

(** The summed spectrum [fft_sum[mode][i]]. *)
Definition sum_array := Z -> Z -> fft_out.t.

Definition upd2 (a : sum_array) (m k : Z) (f : fft_out.t -> fft_out.t)
  : sum_array :=
  fun m' => if m' =? m then upd (a m') k f else a m'.

(** The critical section of lines 1529-1535: one guarded addition. *)
Definition sum_add (fft_sum : sum_array) (mode sum_ptr : Z) (v : double)
  : sum_array :=
  if not_nan v
  then upd2 fft_sum mode sum_ptr
         (fun r => fft_out.set_abs (fft_out.abs r + v)%float r)
  else fft_sum.

Record label_state : Type := mk_label
  { l_data : fft_array;
    l_sum : sum_array;
    sum_ptr : Z }.

(** One iteration of the loop at 1524-1553 (the file output apart). *)
Definition label_body (high_pass mode : Z) (jm : Z) (s : label_state)
  : label_state :=
  let f := freq_save jm in
  if in_bounds f then
    let sum := sum_add (l_sum s) mode (sum_ptr s) (fft_out.abs (l_data s jm)) in
    let d := upd (l_data s) jm (fft_out.set_freq f) in
    let d := upd d jm (high_pass_bin high_pass mode f) in
    mk_label d sum (sum_ptr s + 1)
  else s.

Definition label_loop (high_pass mode : Z) (d : fft_array) (sum : sum_array)
  : label_state :=
  for_incl 1 (DIM_RAD + 1) (label_body high_pass mode) (mk_label d sum 0).

(** Remap and labelling of one (mode, radius): what it leaves in the
    worker's [fft_data] and in the shared [fft_sum]. *)
Definition contribute (high_pass : Z) (sum : sum_array)
  (w : Z * (Z -> fftw_complex) * fft_array) : sum_array :=
  let '(mode, out_data, d) := w in
  l_sum (label_loop high_pass mode (fft_data (remap out_data mode d)) sum).

(** The per-file reset of [fft_sum], lines 995-1001; [lim], [M_INI] and
    [M_FIN] come from [globals.h]. *)
Definition reset_sum (lim M_INI M_FIN : Z) (sum : sum_array) : sum_array :=
  for_incl 0 (lim - 1)
    (fun i s => for_incl M_INI M_FIN
       (fun j s => upd2 s j i (fft_out.set_abs 0.0%float)) s) sum.

End Remap.

(** ** p2dfft.cpp: the inclusion rules of the sampler (lines 1254-1336) *)

(** The command-line flags the rules read. *)
Record flags : Type := mk_flags
  { zero : Z;
    mask_line : Z;
    reverse : Z;
    fixed : Z }.

(** The [float] locals of one iteration of the radius loop.  A local that is
    declared without an initialiser holds [None] until it is assigned. *)
Record annulus : Type := mk_annulus
  { log_rad : option double;
    log_lo : option double;
    log_hi : option double }.

Inductive local : Type := Log_rad | Log_lo | Log_hi.

(** Evaluation of an expression over the locals: a value, or the read of a
    local that was never assigned. *)
Inductive eval (A : Type) : Type :=
  | Val (a : A)
  | Unassigned (x : local).
Arguments Val {A} a.
Arguments Unassigned {A} x.

Definition bind {A B : Type} (e : eval A) (k : A -> eval B) : eval B :=
  match e with
  | Val a => k a
  | Unassigned x => Unassigned x
  end.

Notation "x <- e ;; k" := (bind e (fun x => k))
  (at level 61, e at next level, right associativity).

Definition read (x : local) (v : option double) : eval double :=
  match v with
  | Some f => Val f
  | None => Unassigned x
  end.

(** [a || b] of C: [b] is evaluated only when [a] is false. *)
Definition c_or (a : eval bool) (b : eval bool) : eval bool :=
  x <- a ;; if x then Val true else b.

(** [a && b] of C with [a] a flag. *)
Definition c_and (a : bool) (b : eval bool) : eval bool :=
  if a then b else Val false.

Inductive rule : Type :=
  | Zero_padding | Mask_by_angle | Reverse_cutoff | Fixed_cutoff
  | Standard_cutoff.

(** What the rules decide for one sample: written as zero by a rule, or
    mapped from the image. *)
Inductive verdict : Type :=
  | Zeroed (r : rule)
  | Mapped.

Section Sampler.

Variable log : double -> double.
Variable to_float : double -> double.

(** Lines 1227-1263: the locals as the sample loop finds them, or [None]
    when the radius is skipped ([continue]). *)
Definition annulus_entry (fl : flags) (items_radius radius : Z)
  : option annulus :=
  let lr :=
    if negb (reverse fl =? 0)
    then to_float (log (double_of_int (items_radius - radius + 1)))
    else to_float (log (double_of_int radius)) in
  if negb (fixed fl =? 0)
     && ((radius <=? Z.quot (fixed fl) 2)
         || (items_radius - Z.quot (fixed fl) 2 <=? radius))
  then None
  else Some (mk_annulus (Some lr) None None).

(** Lines 1297-1336 for the sample at angular count [count_theta] and
    log-radius [lnr]. *)
Definition sample_rule (fl : flags) (log_bar log_itrad : double)
  (a : annulus) (count_theta : Z) (lnr : double) : eval verdict :=
  if negb (zero fl =? 0) && ((count_theta <? 4) || (1021 <? count_theta))
  then Val (Zeroed Zero_padding)
  else if negb (mask_line fl =? 0) && (lnr <=? log_bar)%float
  then Val (Zeroed Mask_by_angle)
  else
    b <- c_and (negb (reverse fl =? 0))
           (c_or (r <- read Log_rad (log_rad a) ;; Val (r <? lnr)%float)
                 (Val (log_itrad <? lnr)%float)) ;;
    if b then Val (Zeroed Reverse_cutoff)
    else
      b <- c_and (negb (fixed fl =? 0))
             (c_or (h <- read Log_hi (log_hi a) ;; Val (h <? lnr)%float)
                   (l <- read Log_lo (log_lo a) ;; Val (lnr <? l)%float)) ;;
      if b then Val (Zeroed Fixed_cutoff)
      else
        b <- c_and ((reverse fl =? 0) && (fixed fl =? 0))
               (c_or (Val (log_itrad <? lnr)%float)
                     (r <- read Log_rad (log_rad a) ;; Val (lnr <? r)%float)) ;;
        if b then Val (Zeroed Standard_cutoff)
        else Val Mapped.

End Sampler.

(** * Vocabulary of the statements *)

(** ** Binary64 values *)

(** Not NaN and not negative: a zero of either sign, a positive finite
    number or plus infinity. *)
Definition sf_nonneg (x : spec_float) : Prop :=
  match x with
  | S754_nan => False
  | S754_zero _ => True
  | S754_infinity s | S754_finite s _ _ => s = false
  end.

(** Not NaN, with sign [sx]. *)
Definition sf_signed (sx : bool) (x : spec_float) : Prop :=
  match x with
  | S754_nan => False
  | S754_zero s | S754_infinity s | S754_finite s _ _ => s = sx
  end.

(** The order of two finite numbers of the same sign, on exponent and
    mantissa. *)
Definition lex_cmp (e1 : Z) (m1 : positive) (e2 : Z) (m2 : positive) : comparison :=
  match Z.compare e1 e2 with
  | Lt => Lt
  | Gt => Gt
  | Eq => Pos.compare_cont Eq m1 m2
  end.

(** 90, 180 and 270 in binary64. *)
Definition c90 : spec_float := S754_finite false 6333186975989760 (-46).
Definition c180 : spec_float := S754_finite false 6333186975989760 (-45).
Definition c270 : spec_float := S754_finite false 4749890231992320 (-44).

(** A magnitude as the remap leaves it: NaN, or not negative. *)
Definition magnitude_like (v : double) : Prop :=
  not_nan v = true -> (0 <=? v)%float = true.

(** ** The scan window *)

(** Bin [i] holds a valid magnitude. *)
Definition valid_at (fft : fft_array) (i : Z) : bool :=
  not_nan (fft_out.abs (fft i)).

(** What the locals of the maximum search know after the slots below [i]:
    whether a valid bin was seen, that no bin seen (slot 1025 apart) exceeds
    [a_max], and where [a_max] comes from. *)
Definition scan_inv (fft : fft_array) (i : Z) (s : scan) : Prop :=
  (nan s = 1 /\ (forall j, LO_INDEX <= j < i -> valid_at fft j = false)
   \/ nan s = 0 /\ (exists j, LO_INDEX <= j < i /\ valid_at fft j = true))
  /\ (forall j, LO_INDEX <= j < i -> j <> 1025 ->
        (a_max s <? fft_out.abs (fft j))%float = false)
  /\ (index s = -1 /\ a_max s = (-255.0)%float
      \/ (LO_INDEX <= index s < i /\ index s <> 1025
          /\ a_max s = fft_out.abs (fft (index s)))).

(** The slots [i, i+1, ...], [n] of them. *)
Fixpoint range (n : nat) (i : Z) : list Z :=
  match n with
  | O => []
  | S n' => i :: range n' (i + 1)
  end.

Definition window : list Z := range (Z.to_nat (HI_INDEX + 1 - LO_INDEX)) LO_INDEX.

(** ** [snr], as described *)

(** The bins the noise statistics are taken over: the valid bins of the
    window, the mid-frequency slot apart. *)
Definition noise_bins (fft : fft_array) : list Z :=
  filter (fun i => negb (i =? 1025) && valid_at fft i) window.

(** Sums in the order of the slots, in binary64. *)
Definition sum_over (f : Z -> double) (l : list Z) : double :=
  fold_left (fun a i => (a + f i)%float) l 0.0%float.

Definition bin_count (fft : fft_array) : double :=
  double_of_int (Z.of_nat (length (noise_bins fft))).

Definition mean_amp (fft : fft_array) : double :=
  (sum_over (fun i => fft_out.abs (fft i)) (noise_bins fft) / bin_count fft)%float.

(** The population standard deviation about [mean_amp]. *)
Definition sigma (pow : double -> double -> double) (fft : fft_array) : double :=
  pow (sum_over (fun i => pow (fft_out.abs (fft i) - mean_amp fft) 2.0)%float
         (noise_bins fft) / bin_count fft)%float 0.5%float.

(** ** [fwhm], as described *)

(** The test both scans of [fwhm] apply to slot [k]: not the mid slot, and
    a magnitude below the limit. *)
Definition below (fft : fft_array) (limit : double) (k : Z) : bool :=
  negb (k =? 1025) && (fft_out.abs (fft k) <? limit)%float.

(** [j] is the first slot after [i0], inside the window, that is below the
    limit: the slot at which the scan above [i0] stops. *)
Definition first_below_up (fft : fft_array) (limit : double) (i0 j : Z) : Prop :=
  i0 < j <= HI_INDEX /\ below fft limit j = true
  /\ forall k, i0 < k < j -> below fft limit k = false.

Definition first_below_down (fft : fft_array) (limit : double) (i0 j : Z) : Prop :=
  LO_INDEX <= j < i0 /\ below fft limit j = true
  /\ forall k, j < k < i0 -> below fft limit k = false.

Definition no_crossing_up (fft : fft_array) (limit : double) (i0 : Z) : Prop :=
  forall k, i0 < k <= HI_INDEX -> below fft limit k = false.

Definition no_crossing_down (fft : fft_array) (limit : double) (i0 : Z) : Prop :=
  forall k, LO_INDEX <= k < i0 -> below fft limit k = false.




(** ** The remap, slot by slot *)

(** Slot [r] holds the native bin [c]: real part, sign-inverted imaginary
    part and magnitude. *)
Definition holds_bin (pow : double -> double -> double) (r : fft_out.t)
  (c : fftw_complex) : Prop :=
  fft_out.real r = fst c
  /\ fft_out.imag r = (-1.0 * snd c)%float
  /\ fft_out.abs r = magnitude pow c.

Section RemapModel.

Variable DIM_RAD : Z.
Variable pow : double -> double -> double.
Variable out_data : Z -> fftw_complex.
Variable mode : Z.
Variable d : fft_array.
(** Half of [DIM_RAD]. *)
Variable h : Z.

(** The array after the first loop and the wrap point. *)
Definition wrapped (k : Z) : fft_out.t :=
  if (h + 1 <=? k) && (k <=? DIM_RAD)
  then store_bin pow (out_data (mode * DIM_RAD + k - h - 1)) (d k)
  else if k =? DIM_RAD + 1
  then store_bin pow (out_data (mode * DIM_RAD + h)) (d k)
  else if k =? 1
  then fft_out.set_abs (magnitude pow (out_data (mode * DIM_RAD + h))) (d k)
  else d k.

(** The array the remap leaves. *)
Definition remapped (k : Z) : fft_out.t :=
  if (2 <=? k) && (k <=? h)
  then store_bin pow (out_data (mode * DIM_RAD + h + k - 1)) (d k)
  else wrapped k.

(** The locals before iteration [i] of the first loop. *)
Definition after_first (i : Z) (s : remap_state) : Prop :=
  counter s = mode * DIM_RAD + i
  /\ forall k, fft_data s k
               = if (h + 1 <=? k) && (k <? h + 1 + i)
                 then store_bin pow (out_data (mode * DIM_RAD + k - h - 1)) (d k)
                 else d k.

(** The locals before iteration [i] of the second loop. *)
Definition after_second (i : Z) (s : remap_state) : Prop :=
  counter s = mode * DIM_RAD + DIM_RAD + i
  /\ forall k, fft_data s k
               = if (2 <=? k) && (k <? h + 1 + i)
                 then store_bin pow (out_data (mode * DIM_RAD + h + k - 1)) (d k)
                 else wrapped k.

End RemapModel.

(** ** The summed spectrum *)

(** Every entry of the summed spectrum that the per-file reset covers is a
    number and is not negative. *)
Definition sum_ok (lim M_INI M_FIN : Z) (sum : sum_array) : Prop :=
  forall m i, M_INI <= m <= M_FIN -> 0 <= i < lim ->
    (0 <=? fft_out.abs (sum m i))%float = true.

Section LabelModel.

Variable DIM_RAD : Z.
Variable STEP_P FREQ_START FREQ_END : double.
Variable to_float : double -> double.
Variable high_pass : Z.

(** The bin of slot [k] once it is labelled and filtered. *)
Definition labelled (mode : Z) (d : fft_array) (k : Z) : fft_out.t :=
  let f := freq_save DIM_RAD STEP_P to_float k in
  high_pass_bin to_float high_pass mode f (fft_out.set_freq f (d k)).

(** What the labelling loop has done before slot [jm]: the summed spectrum
    is still sound if it was and if the magnitudes of [d] are those of a
    remap, and the slots below [jm] are labelled. *)
Definition label_inv (mode : Z) (d : fft_array) (sum : sum_array)
  (lim M_INI M_FIN : Z) (jm : Z) (s : label_state) : Prop :=
  ((forall k, 1 <= k <= DIM_RAD + 1 -> magnitude_like (fft_out.abs (d k))) ->
   sum_ok lim M_INI M_FIN sum -> sum_ok lim M_INI M_FIN (l_sum s))
  /\ forall k, l_data s k
               = if (1 <=? k) && (k <? jm)
                    && in_bounds FREQ_START FREQ_END
                         (freq_save DIM_RAD STEP_P to_float k)
                 then labelled mode d k
                 else d k.

End LabelModel.

(** ** libm and [globals.h]: what is assumed, and stand-ins *)

(** The pitch angle of a non-negative mode, in degrees and before the
    wrap-around, as libm's [atan2] and [GR_RAD] give it.  The ordinate is
    [(double) mode], a number whose sign bit is clear (+0.0 for mode 0, never
    -0.0, for which [atan2] returns -pi on the negative abscissae): the
    angle is that of a point of the upper half plane, between 0 and 180
    degrees; 270 is all the wrap needs. *)
Definition atan2_degrees_range (GR_RAD : double)
  (atan2 : double -> double -> double) : Prop :=
  forall y x, sf_signed false (Prim2SF y) -> not_nan x = true ->
    (0 <=? atan2 y x * (1.0 / GR_RAD))%float = true
    /\ (atan2 y x * (1.0 / GR_RAD) <=? 270.0)%float = true.

(** pi / 180 in binary64. *)
Definition GR_RAD_model : double := 0x1.1df46a2529d39p-6%float.

(** A coarse stand-in for [atan2], for the samples whose statements do not
    depend on the angle.  It ignores [y]: pi on the negative abscissae, 0 on
    the positive ones, pi / 2 elsewhere, which is libm's value only for
    [y = +0.0] with [x] not a zero and for a positive [y] with [x] a
    zero. *)
Definition atan2_model (y x : double) : double :=
  if (x <? 0)%float then 0x1.921fb54442d18p+1%float
  else if (0 <? x)%float then 0%float
  else 0x1.921fb54442d18p+0%float.

(** The sign bit of a number: set for the negative numbers and for -0.0. *)
Definition sign_bit (y : double) : bool :=
  (y <? 0)%float || ((y =? 0)%float && (1 / y <? 0)%float).

(** A stand-in for [atan2] with libm's value wherever the point [(x, y)]
    lies on an axis or on a diagonal: NaN for a NaN argument; for [y] a
    zero, 0 or pi by the sign of [x]; for [x] a zero, pi/2; on a diagonal,
    pi/4 for a positive [x] and 3 pi/4 for a negative one; all with the sign
    of [y].  For a point off the axes and the diagonals it returns the angle
    of the diagonal of the point's quadrant. *)
Definition atan2_octant (y x : double) : double :=
  if negb (not_nan y && not_nan x) then NAN
  else
    let a :=
      if (y =? 0)%float
      then (if sign_bit x then 0x1.921fb54442d18p+1%float else 0%float)
      else if (x =? 0)%float then 0x1.921fb54442d18p+0%float
      else if (0 <? x)%float then 0x1.921fb54442d18p-1%float
      else 0x1.2d97c7f3321d2p+1%float in
    if sign_bit y then (- a)%float else a.

(** A stand-in for [pow] on the two exponents the sources use. *)
Definition pow_model (x y : double) : double :=
  if (y =? 2.0)%float then (x * x)%float else sqrt x.

(** ** Sample inputs *)

(** Every bin NaN but the mid-frequency slot. *)
Definition only_mid_slot : fft_array :=
  fun i => if i =? 1025 then fft_out.mk 1%float 0%float 1%float 0%float
           else fft_out.mk NAN NAN NAN NAN.

Definition all_nan : fft_array := fun _ => fft_out.mk NAN NAN NAN NAN.

(** A peak at slot 1000 over a floor of 1. *)
Definition peak : fft_array :=
  fun i => fft_out.mk 1%float 0%float
             (if i =? 1000 then 10%float
              else if (i =? 999) || (i =? 1001) then 6%float
              else 1%float)
             1%float.

Definition res0 : result_pa.t :=
  result_pa.mk 0 0%float 0%float 0%float 0%float 0%float 0%float 0%float.

Definition st0 : pitch_state := mk_state res0 0.

(** The cell [pitch_phase] and [snr] leave on [peak]: index 1000, amplitude
    10, average amplitude 1. *)
Definition st_peak : pitch_state :=
  mk_state
    (result_pa.mk 1000 1%float 10%float 1%float 0%float 0%float 0%float 0%float) 0.

(** A native output of eight bins per mode, and an empty worker buffer. *)
Definition out8 : Z -> fftw_complex := fun i => (double_of_int i, 1%float).

Definition blank : fft_array := fun _ => fft_out.mk 0%float 0%float 0%float 0%float.

Definition blank_sum : sum_array := fun _ => blank.

(** [-f 10] alone. *)
Definition fixed_flags : flags := mk_flags 0 0 0 10.

(** * The caller and the list files *)

(** ** C++ strings *)

Module std_string.
Import Ascii.

(** A [std::string] is the list of its characters. *)
Abbreviation t := (list ascii).

Definition dot : ascii := ".".
Definition slash : ascii := "/".
Definition comma : ascii := ",".

(** [s.find(c)] for a one-character pattern: the first position of [c];
    [npos] is [None]. *)
Fixpoint find (c : ascii) (s : t) : option nat :=
  match s with
  | [] => None
  | a :: s' => if (a =? c)%char then Some O else option_map S (find c s')
  end.

(** [s.find_last_of(c)] for a one-character set: the last position of [c]. *)
Fixpoint find_last_of (c : ascii) (s : t) : option nat :=
  match s with
  | [] => None
  | a :: s' =>
      match find_last_of c s' with
      | Some n => Some (S n)
      | None => if (a =? c)%char then Some O else None
      end
  end.

(** [s.substr(0, n)]; a count of [npos] takes the whole string. *)
Definition substr (s : t) (n : option nat) : t :=
  match n with
  | Some n => firstn n s
  | None => s
  end.

(** [s.substr(p + 1)] for a position [p] that may be [npos]: [npos + 1]
    wraps around to 0. *)
Definition substr_from_next (s : t) (p : option nat) : t :=
  match p with
  | Some n => skipn (S n) s
  | None => s
  end.

(** [a == b]. *)
Definition eqb (a b : t) : bool :=
  if list_eq_dec ascii_dec a b then true else false.

End std_string.

(** ** astro_class.h *)

Module file_rec.
Record t : Type := mk
  { valid : Z;                (* Flag to indicate if data is valid *)
    name : std_string.t;      (* File name *)
    keyword : std_string.t;   (* Name of output file per radius *)
    result : std_string.t;    (* Prefix for overall output files *)
    radius : Z;               (* Outer radius value *)
    binary : Z                (* Is binary (1) FITS or ASCII text FITS (0) *) }.
End file_rec.

Definition ASTRO_ERR_OPEN : Z := 1026.
Definition ASTRO_ERR_CLOSE : Z := 1028.
Definition ASTRO_ERR_GET_SIZE : Z := 1038.

Definition ASTRO_SUCCESS : Z := 0.
Definition ASTRO_FAILURE : Z := 1.

(** ** astro_class.cpp *)

(** [(int) z] for a [long] [z]. *)
Definition int_of_long (z : Z) : Z := (z + 2 ^ 31) mod 2 ^ 32 - 2 ^ 31.

(** What CFITSIO answers for a file name: [fits_open_file] fails;
    [fits_get_img_size] fails; or the two axes are read, and
    [fits_close_file] fails or not. *)
Inductive cfitsio : Type :=
  | Open_fails
  | Size_fails
  | Image (naxes0 naxes1 : Z) (close_fails : bool).

(** [astro::fits_dims]: the status, the pair written through [rows] and
    [cols] ([None] when nothing is written) and the error code it leaves. *)
Definition fits_dims (f : cfitsio) (astro_errno : Z) : Z * option (Z * Z) * Z :=
  match f with
  | Open_fails => (ASTRO_FAILURE, None, ASTRO_ERR_OPEN)
  | Size_fails => (ASTRO_FAILURE, None, ASTRO_ERR_GET_SIZE)
  | Image n0 n1 close_fails =>
      if close_fails
      then (ASTRO_FAILURE, Some (int_of_long n0, int_of_long n1), ASTRO_ERR_CLOSE)
      else (ASTRO_SUCCESS, Some (int_of_long n0, int_of_long n1), astro_errno)
  end.

(** [std::getline(ss, tok, delim)] on a string stream: [ss] is what is left
    to read, [None] once the end was hit; a stream at its end leaves [tok]
    as it is. *)
Definition getline (ss : option std_string.t) (delim : Ascii.ascii)
  (tok : std_string.t) : std_string.t * option std_string.t :=
  match ss with
  | None => (tok, None)
  | Some s =>
      match std_string.find delim s with
      | Some n => (firstn n s, Some (skipn (S n) s))
      | None => (s, None)
      end
  end.

(** The literals ["outi"], ["fits"] and ["fts"]. *)
Definition outi : std_string.t := map Ascii.ascii_of_nat [111; 117; 116; 105]%nat.
Definition lit_fits : std_string.t := map Ascii.ascii_of_nat [102; 105; 116; 115]%nat.
Definition lit_fts : std_string.t := map Ascii.ascii_of_nat [102; 116; 115]%nat.

Section ReadLines.

(** The files CFITSIO sees, and [atoi] of libc. *)
Variable fs : std_string.t -> cfitsio.
Variable atoi : std_string.t -> Z.

(** One iteration of the loop of [astro::read_lines], lines 274-400: the
    record pushed ([None] for a blank line) and the error code.  [(x - 1) / 2]
    is the division of [int]s, which truncates. *)
Definition read_line (line : std_string.t) (astro_errno : Z)
  : option file_rec.t * Z :=
  match line with
  | [] => (None, astro_errno)
  | _ =>
      let ss := Some line in
      let '(name, ss) := getline ss std_string.comma [] in
      let '(result, ss) := getline ss std_string.comma [] in
      let calc_rad := match result with [] => 1 | _ => 0 end in
      let result :=
        match result with
        | [] => std_string.substr line (std_string.find std_string.dot line)
        | _ => result
        end in
      let keyword := outi in
      let '(token, ss) := getline ss std_string.comma [] in
      if (calc_rad =? 1) || (match token with [] => true | _ => false end)
      then
        let '(status, dims, astro_errno) := fits_dims (fs name) astro_errno in
        if negb (status =? 0)
        then (Some (file_rec.mk 0 name keyword result (-1) 0), astro_errno)
        else
          let x := match dims with Some (x, _) => x | None => 0 end in
          (Some (file_rec.mk 1 name keyword result (Z.quot (x - 1) 2) 1),
           astro_errno)
      else
        let ext :=
          std_string.substr_from_next name
            (std_string.find_last_of std_string.dot name) in
        let binary :=
          if std_string.eqb ext lit_fits || std_string.eqb ext lit_fts
          then 1 else 0 in
        (Some (file_rec.mk 1 name keyword result (atoi token) binary),
         astro_errno)
  end.

(** [astro::read_lines]: [file] is the list of the lines of the file, [None]
    when it cannot be opened; [rec] is the vector the records are pushed
    to. *)
Definition read_lines (file : option (list std_string.t))
  (rec : list file_rec.t) (astro_errno : Z) : Z * list file_rec.t * Z :=
  match file with
  | None => (ASTRO_FAILURE, rec, ASTRO_ERR_OPEN)
  | Some lines =>
      let '(rec, astro_errno) :=
        fold_left
          (fun (s : list file_rec.t * Z) line =>
             match read_line line (snd s) with
             | (Some f, e) => (fst s ++ [f], e)
             | (None, e) => (fst s, e)
             end)
          lines (rec, astro_errno) in
      (ASTRO_SUCCESS, rec, astro_errno)
  end.

End ReadLines.

(** ** astro_class.cpp: [ArrayAlloc] (lines 968-1008) *)

Definition ASTRO_ERR_MALLOC : Z := 1032.

(** The block [ArrayAlloc] returns: its size in bytes and the row pointers
    [fptr[a]], each as an offset from [buf], the first [float] after the
    header, counted in [float]s. *)
Module block.
Record t : Type := mk
  { bytes : Z;
    fptr : Z -> Z }.
End block.

Section ArrayAlloc.

(** The sizes of a pointer and of a [float], in bytes. *)
Variables sizeof_ptr sizeof_float : Z.
(** Whether [malloc] succeeds for a size, and what the block it returns
    holds. *)
Variable malloc : Z -> bool.
Variable fresh : Z -> Z.

(** [astro::ArrayAlloc]: [None] for the [NULL] it returns when [malloc]
    fails, and the error code it leaves.  [header] and [body] are [int]s. *)
Definition ArrayAlloc (frows fcolumns : Z) (astro_errno : Z)
  : option block.t * Z :=
  let header := int_of_long (frows * sizeof_ptr) in
  let body :=
    for_loop (Z.to_nat frows) 0
      (fun a body => int_of_long (body + fcolumns)) 0 in
  let body := int_of_long (body * sizeof_float) in
  if negb (malloc (int_of_long (header + body)))
  then (None, ASTRO_ERR_MALLOC)
  else
    let fptr := upd fresh 0 (fun _ => 0) in
    let fptr :=
      for_incl 1 (frows - 1)
        (fun a fptr => upd fptr a (fun _ => fptr (a - 1) + fcolumns)) fptr in
    (Some (block.mk (int_of_long (header + body)) fptr), astro_errno).

End ArrayAlloc.

(** ** p2dfft.cpp: [remove_extension] (lines 441-472) *)

Definition remove_extension (filename : std_string.t) : std_string.t :=
  match std_string.find_last_of std_string.dot filename with
  | None => filename
  | Some lastdot =>
      match std_string.find_last_of std_string.slash filename with
      | Some slashpos =>
          if (lastdot <? slashpos)%nat then filename
          else std_string.substr filename (Some lastdot)
      | None => std_string.substr filename (Some lastdot)
      end
  end.

(** ** p2dfft.cpp: the image and its geometry (lines 1046-1058, 1145-1169) *)

(** The Cartesian array [mat[i][j]]. *)
Definition matrix := Z -> Z -> double.

Definition upd_mat (m : matrix) (i j : Z) (v : double) : matrix :=
  fun i' j' => if (i' =? i) && (j' =? j) then v else m i' j'.

(** The locals of the copy loop at 1145-1157. *)
Module image.
Record t : Type := mk
  { mat : matrix;
    counter : Z }.
End image.

(** Lines 1145-1157: [mat[i][j] = data[counter++]], rows outside. *)
Definition load_image (data : Z -> double) (x_dim y_dim : Z) (mat : matrix)
  : image.t :=
  for_incl 1 y_dim
    (fun j s =>
       for_incl 1 x_dim
         (fun i s =>
            image.mk (upd_mat (image.mat s) i j (data (image.counter s)))
              (image.counter s + 1)) s)
    (image.mk mat 0).

(** The radius of a binary image that comes without one, lines 1048-1057
    ([int] division truncates). *)
Definition image_radius (x_dim y_dim : Z) : Z :=
  if x_dim <? y_dim then Z.quot (x_dim - 1) 2 else Z.quot (y_dim - 1) 2.

(** [x_0] and [y_0], lines 1168-1169. *)
Definition centre (dim : Z) : Z := Z.quot (dim - 1) 2 + 1.

(** ** p2dfft.cpp: [find_bar] (lines 568-653) *)

(** The locals of the loop over the radius steps. *)
Module bar.
Record t : Type := mk
  { skip : Z;
    lb : double;
    r : double;
    curr : double;
    prev1 : double;
    prev2 : double;
    prev3 : double }.
End bar.

Section FindBar.

Variables expf cosf sinf log : double -> double.
Variable to_float : double -> double.
Variable int_of_float : double -> Z.
Variable GR_RAD : double.
Variables DIM_RAD DIM_THT : Z.
Variables radstep theta_step : double.
Variable mat : matrix.

(** Lines 616-648: one radius step at the angle [tht_rad]. *)
Definition bar_step (log_edge tht_rad : double) (x_org y_org : Z)
  (lim_val : double) (s : bar.t) : bar.t :=
  if negb (bar.skip s =? 0) then s
  else if (log_edge <? bar.r s)%float then s
  else
    let xx := to_float (expf (bar.r s) * cosf tht_rad)%float in
    let yy := to_float (expf (bar.r s) * sinf tht_rad)%float in
    let aa := int_of_float xx + x_org in
    let bb := int_of_float yy + y_org in
    let s := bar.mk (bar.skip s) (bar.lb s) (bar.r s)
               (mat aa bb) (bar.curr s) (bar.prev1 s) (bar.prev2 s) in
    if (lim_val <=? mat aa bb)%float
    then
      if (bar.lb s <? bar.r s)%float
      then bar.mk (bar.skip s) (bar.r s) (bar.r s)
             (bar.curr s) (bar.prev1 s) (bar.prev2 s) (bar.prev3 s)
      else s
    else bar.mk 1 (bar.lb s) (bar.r s)
           (bar.curr s) (bar.prev1 s) (bar.prev2 s) (bar.prev3 s).

(** The loop over [cnt_rad]: [r] advances after every step, skipped or
    not. *)
Definition bar_ray (log_edge tht_rad : double) (x_org y_org : Z)
  (lim_val : double) (lb : double) : bar.t :=
  for_incl 1 DIM_RAD
    (fun cnt_rad s =>
       let s := bar_step log_edge tht_rad x_org y_org lim_val s in
       bar.mk (bar.skip s) (bar.lb s) (to_float (bar.r s + radstep)%float)
         (bar.curr s) (bar.prev1 s) (bar.prev2 s) (bar.prev3 s))
    (bar.mk 0 lb 0.0%float (-65535.0)%float (-65535.0)%float
       (-65535.0)%float (-65535.0)%float).

(** [find_bar]: the value returned (the printing apart). *)
Definition find_bar (rad x_org y_org : Z) (lim_val : double) : double :=
  let log_edge := to_float (log (double_of_int rad)) in
  fst (for_incl 1 DIM_THT
         (fun cnt_tht (p : double * double) =>
            let tht_rad := to_float (snd p * GR_RAD)%float in
            (bar.lb (bar_ray log_edge tht_rad x_org y_org lim_val (fst p)),
             to_float (snd p + theta_step)%float))
         (0.0%float, 0.0%float)).

End FindBar.

(** ** p2dfft.cpp: the frequency axis of the summed spectrum (lines 819-828) *)

Section SumAxis.

Variables lim M_INI M_FIN : Z.
Variable STEP_P FREQ_START : double.
Variable to_float : double -> double.

(** [freq_counter] is a [float]: it starts at [FREQ_START] and advances by
    [STEP_P] after every column. *)
Definition label_sum (sum : sum_array) : sum_array * double :=
  for_incl 0 (lim - 1)
    (fun i (p : sum_array * double) =>
       (for_incl M_INI M_FIN
          (fun j s => upd2 s j i (fft_out.set_freq (snd p))) (fst p),
        to_float (snd p + STEP_P)%float))
    (sum, to_float FREQ_START).

End SumAxis.

(** ** p2dfft.cpp: the polar sampling of one annulus (lines 1270-1355) *)

(** Loops whose body may read an unassigned local. *)
Fixpoint for_loop_e {A : Type} (n : nat) (i : Z) (body : Z -> A -> eval A)
  (s : A) : eval A :=
  match n with
  | O => Val s
  | S n' => s' <- body i s ;; for_loop_e n' (i + 1) body s'
  end.

Definition for_incl_e {A : Type} (lo hi : Z) (body : Z -> A -> eval A)
  (s : A) : eval A :=
  for_loop_e (Z.to_nat (hi + 1 - lo)) lo body s.

(** What the sampling threads: the worker's [in_data[current]], [counter]
    and [norma]. *)
Module polar.
Record t : Type := mk
  { in_data : Z -> fftw_complex;
    counter : Z;
    norma : double }.
End polar.

Section PolarMap.

(** libm ([expf], [cosf] and [sinf] return a [float]), the rounding to
    [float] and the cast [(int)] of a [float]. *)
Variables expf cosf sinf : double -> double.
Variable to_float : double -> double.
Variable int_of_float : double -> Z.
(** [globals.h], and the two global steps of lines 411-412. *)
Variable GR_RAD : double.
Variables DIM_RAD DIM_THT : Z.
Variables radstep theta_step : double.
(** The image, its centre, the core brightness and the flag [mask]. *)
Variable mat : matrix.
Variables x_0 y_0 : Z.
Variable ctr_val : double.
Variable mask : Z.
Variable fl : flags.
Variables log_bar log_itrad : double.
Variable a : annulus.

(** Lines 1270-1276. *)
Definition clear_data (d : Z -> fftw_complex) : Z -> fftw_complex :=
  for_incl 0 (DIM_RAD * DIM_THT)
    (fun im d => upd d im (fun _ => (0.0, 0.0)%float)) d.

(** [in_data[current][counter][0] = re; in_data[current][counter++][1] = 0.0]. *)
Definition store (re : double) (s : polar.t) : polar.t :=
  polar.mk (upd (polar.in_data s) (polar.counter s) (fun _ => (re, 0.0%float)))
    (polar.counter s + 1) (polar.norma s).

(** Lines 1297-1353: one sample. *)
Definition sample (count_theta : Z) (theta_radians lnr : double) (s : polar.t)
  : eval polar.t :=
  v <- sample_rule fl log_bar log_itrad a count_theta lnr ;;
  Val (match v with
       | Zeroed _ => store 0.0%float s
       | Mapped =>
           let x := to_float (expf lnr * cosf theta_radians)%float in
           let y := to_float (expf lnr * sinf theta_radians)%float in
           let a := int_of_float x + x_0 in
           let b := int_of_float y + y_0 in
           if negb (mask =? 0) && (ctr_val <=? mat a b)%float
           then store 0.0%float s
           else
             let s := store (mat a b) s in
             polar.mk (polar.in_data s) (polar.counter s)
               (to_float (polar.norma s + mat a b)%float)
       end).

(** Lines 1293-1354: the loop over [count_radians]; [lnr] advances after
    every sample, skipped or not. *)
Definition polar_row (count_theta : Z) (theta_radians : double) (s : polar.t)
  : eval (polar.t * double) :=
  for_incl_e 1 DIM_RAD
    (fun count_radians (p : polar.t * double) =>
       s <- sample count_theta theta_radians (snd p) (fst p) ;;
       Val (s, to_float (snd p + radstep)%float))
    (s, 0.0%float).

(** Lines 1282-1355: the loop over [count_theta], which is incremented on
    entry of the body. *)
Definition polar_map (in_data : Z -> fftw_complex)
  : eval (polar.t * double) :=
  for_incl_e 1 DIM_THT
    (fun count_theta (p : polar.t * double) =>
       let count_theta := count_theta + 1 in
       let theta_radians := to_float (snd p * GR_RAD)%float in
       q <- polar_row count_theta theta_radians (fst p) ;;
       Val (fst q, to_float (snd p + theta_step)%float))
    (polar.mk (clear_data in_data) 0 0.0%float, 0.0%float).

End PolarMap.

(** ** p2dfft.cpp: the normalisation of the FFT output (lines 1405-1413) *)

(** [out_data[im] /= (double) norma] for [im] from 0 to [counter],
    [counter] included. *)
Definition normalise (norma : double) (counter : Z)
  (out_data : Z -> fftw_complex) : Z -> fftw_complex :=
  for_incl 0 counter
    (fun im o => upd o im (fun c => (fst c / norma, snd c / norma)%float))
    out_data.

(** The per-(mode, radius) chain after the FFT: normalisation, remap,
    labelling, the three extractor calls. *)
Section Chain.

Variable GR_RAD : double.
Variable atan2 : double -> double -> double.
Variable pow : double -> double -> double.
Variable DIM_RAD : Z.
Variable STEP_P FREQ_START FREQ_END : double.
Variable to_float : double -> double.

Definition analyse (high_pass : Z) (norma : double) (counter : Z)
  (out_data : Z -> fftw_complex) (mode : Z) (d : fft_array) (sum : sum_array)
  (st : pitch_state) : label_state * (pitch_state * call_log) :=
  let out := normalise norma counter out_data in
  let l := label_loop DIM_RAD STEP_P FREQ_START FREQ_END to_float high_pass
             mode (fft_data (remap DIM_RAD pow out mode d)) sum in
  (l, extract GR_RAD atan2 pow (l_data l) mode st).

End Chain.

(** ** p2dfft.cpp: the loop over the radii and the per-mode output
    (lines 1210-1263, 1419, 1567-1614, 1625-1638) *)

(** [mode_data[mode][radius]]. *)
Definition mode_table := Z -> Z -> result_pa.t.

(** What the loop over the radii threads: the table and the global
    [pitch_errno]. *)
Module radii.
Record t : Type := mk
  { mode_data : mode_table;
    pitch_errno : Z }.
End radii.

Section RadiusLoop.

Variable GR_RAD : double.
Variable atan2 : double -> double -> double.
Variable pow : double -> double -> double.
Variable log : double -> double.
Variable to_float : double -> double.
Variables M_INI M_FIN : Z.
Variable fl : flags.
(** [items[it].radius]. *)
Variable items_radius : Z.
(** [fft_data[current]] as the remap and the labelling of (radius, mode)
    leave it. *)
Variable analysed : Z -> Z -> fft_array.

(** The body of the loop over the modes, lines 1419-1616, from the call of
    [pitch_phase] on. *)
Definition mode_body (radius mode : Z) (s : radii.t) : radii.t :=
  let st := fst (extract GR_RAD atan2 pow (analysed radius mode) mode
                   (mk_state (radii.mode_data s mode radius)
                      (radii.pitch_errno s))) in
  radii.mk
    (fun m r => if (m =? mode) && (r =? radius) then res st
                else radii.mode_data s m r)
    (pitch_errno st).

(** One iteration of the loop over the radii, line 1210: skipped by the
    [continue] of line 1263, or the loop over the modes. *)
Definition radius_body (radius : Z) (s : radii.t) : radii.t :=
  match annulus_entry log to_float fl items_radius radius with
  | None => s
  | Some _ => for_incl M_INI M_FIN (mode_body radius) s
  end.

(** [for (int radius = 1; radius < items[it].radius; radius++)]. *)
Definition radius_loop (s : radii.t) : radii.t :=
  for_incl 1 (items_radius - 1) radius_body s.

(** Lines 1634-1638: the cells printed to the file of mode [i], one row for
    each [j] from 1 to [items[it].radius]. *)
Definition mode_rows (md : mode_table) (i : Z) : list result_pa.t :=
  map (md i) (range (Z.to_nat items_radius) 1).

End RadiusLoop.

(** The work of one input file on the summed spectrum: the reset, then the
    contributions of its (mode, radius) pairs. *)
Definition file_sum (DIM_RAD : Z) (pow : double -> double -> double)
  (STEP_P FREQ_START FREQ_END : double) (to_float : double -> double)
  (high_pass lim M_INI M_FIN : Z) (sum : sum_array)
  (works : list (Z * (Z -> fftw_complex) * fft_array)) : sum_array :=
  fold_left
    (contribute DIM_RAD pow STEP_P FREQ_START FREQ_END to_float high_pass)
    works (reset_sum lim M_INI M_FIN sum).

(** * Vocabulary of the further statements *)

(** ** The maximum search, first maximum *)

(** What the maximum search knows besides [scan_inv]: every slot before the
    stored index is strictly below [a_max] or holds NaN, and a stored index
    comes with an [a_max] above the initial one. *)
Definition scan_first (fft : fft_array) (s : scan) : Prop :=
  (forall j, LO_INDEX <= j < index s -> j <> 1025 ->
     (a_max s <=? fft_out.abs (fft j))%float = false)
  /\ (index s = -1 \/ (-255.0 <? a_max s)%float = true).

(** Two equal maxima, at slots 900 and 950, over a floor of 1. *)
Definition twin_peaks : fft_array :=
  fun i => fft_out.mk 1%float 0%float
             (if (i =? 900) || (i =? 950) then 5%float else 1%float)
             1%float.

(** A number, as opposed to NaN and the two infinities. *)
Definition is_finite (x : double) : bool :=
  match Prim2SF x with
  | S754_zero _ | S754_finite _ _ _ => true
  | S754_infinity _ | S754_nan => false
  end.

(** The sample peak with every bin outside the window replaced by NaN. *)
Definition peak_in_window : fft_array :=
  fun i => if (i <? LO_INDEX) || (HI_INDEX <? i)
           then fft_out.mk NAN NAN NAN NAN else peak i.

(** A cell that holds a maximum at the last slot of the window. *)
Definition st_edge : pitch_state :=
  mk_state
    (result_pa.mk HI_INDEX 1%float 10%float 1%float 0%float 0%float 0%float 0%float) 0.

(** The fields of a cell that [pitch_phase] writes. *)
Definition peak_fields (fft : fft_array) (r : result_pa.t) : Prop :=
  (LO_INDEX <= result_pa.index r <= HI_INDEX /\ result_pa.index r <> 1025)
  /\ result_pa.amp r = fft_out.abs (fft (result_pa.index r))
  /\ result_pa.freq r = fft_out.freq (fft (result_pa.index r)).

(** [out8] with other values outside the slice of mode 1 (bins 8..15). *)
Definition out8_other : Z -> fftw_complex :=
  fun i => if (8 <=? i) && (i <? 16) then out8 i else (NAN, NAN).

(** The entry [(mode, c)] of the summed spectrum after one guarded addition
    of [v]. *)
Definition added (sum : sum_array) (mode c : Z) (v : double) : fft_out.t :=
  if not_nan v
  then fft_out.set_abs (fft_out.abs (sum mode c) + v)%float (sum mode c)
  else sum mode c.

Section AccModel.

Variable DIM_RAD : Z.
Variable STEP_P FREQ_START FREQ_END : double.
Variable to_float : double -> double.

(** What the labelling loop has done to the summed spectrum before slot
    [jm]. *)
Definition acc_inv (mode : Z) (d : fft_array) (sum : sum_array)
  (jm : Z) (s : label_state) : Prop :=
  0 <= sum_ptr s <= jm - 1
  /\ (forall k, jm <= k -> l_data s k = d k)
  /\ (forall m c, m <> mode \/ c < 0 \/ sum_ptr s <= c -> l_sum s m c = sum m c)
  /\ (forall c, 0 <= c < sum_ptr s ->
        exists k, c + 1 <= k < jm
                  /\ in_bounds FREQ_START FREQ_END
                       (freq_save DIM_RAD STEP_P to_float k) = true
                  /\ l_sum s mode c = added sum mode c (fft_out.abs (d k))).

End AccModel.

Section AxisModel.

Variable STEP_P FREQ_START : double.
Variable to_float : double -> double.

(** The value of [freq_counter] after [n] columns. *)
Fixpoint axis (n : nat) : double :=
  match n with
  | O => to_float FREQ_START
  | S n' => to_float (axis n' + STEP_P)%float
  end.

End AxisModel.

(** An FFT output of zeros. *)
Definition out_zero : Z -> fftw_complex := fun _ => (0.0, 0.0)%float.

(** The annulus of radius 20 in the standard mode, and the flags [-z]. *)
Definition annulus_20 : annulus := mk_annulus (Some 20%float) None None.
Definition zero_flags : flags := mk_flags 1 0 0 0.

Section PolarModel.

Variable DIM_RAD : Z.
Variable mat : matrix.
Variable fl : flags.

(** The rows of the polar map that the option [-z] blanks: [count_theta],
    which is the row number plus one, below 4 or above 1021. *)
Definition padded (row : Z) : Prop := row + 1 < 4 \/ 1021 < row + 1.

(** What the sampling has written before the sample [col] of row [row]
    (both counted from 1). *)
Definition sampled (in0 : Z -> fftw_complex) (row col : Z) (s : polar.t)
  : Prop :=
  polar.counter s = (row - 1) * DIM_RAD + (col - 1)
  /\ (forall k, 0 <= k < polar.counter s ->
        snd (polar.in_data s k) = 0.0%float
        /\ (fst (polar.in_data s k) = 0.0%float
            \/ exists a b, fst (polar.in_data s k) = mat a b))
  /\ (forall k, ~ 0 <= k < polar.counter s -> polar.in_data s k = in0 k)
  /\ (zero fl <> 0 ->
      forall r c, padded r -> 0 <= c < DIM_RAD ->
        (r - 1) * DIM_RAD + c < polar.counter s -> 1 <= r ->
        polar.in_data s ((r - 1) * DIM_RAD + c) = (0.0, 0.0)%float).

End PolarModel.

(** [lb] is the initial 0.0, or a radius step that is positive and not
    beyond the edge. *)
Definition bar_range (log_edge lb : double) : Prop :=
  lb = 0.0%float
  \/ ((0.0 <? lb)%float = true /\ (log_edge <? lb)%float = false).

(** An image whose every pixel is 5. *)
Definition flat_5 : matrix := fun _ _ => 5%float.

(** A pixel list that holds its own index, and an empty array. *)
Definition ramp : Z -> double := double_of_int.
Definition dark : matrix := fun _ _ => 0%float.

Section LoadModel.

Variable data : Z -> double.
Variable x_dim : Z.
Variable mat0 : matrix.

(** The array before row [j]: the rows below are filled. *)
Definition rows_loaded (j : Z) (s : image.t) : Prop :=
  image.counter s = (j - 1) * x_dim
  /\ forall i' j', image.mat s i' j'
                   = if (1 <=? i') && (i' <=? x_dim) && (1 <=? j') && (j' <? j)
                     then data ((j' - 1) * x_dim + (i' - 1))
                     else mat0 i' j'.

(** Row [j] before column [i]. *)
Definition row_loaded (j i : Z) (s : image.t) : Prop :=
  image.counter s = (j - 1) * x_dim + (i - 1)
  /\ forall i' j', image.mat s i' j'
                   = if (1 <=? i') && (i' <=? x_dim) && (1 <=? j')
                        && ((j' <? j) || ((j' =? j) && (i' <? i)))
                     then data ((j' - 1) * x_dim + (i' - 1))
                     else mat0 i' j'.

End LoadModel.

(** A table of cleared cells, and the sample peak for every (radius, mode). *)
Definition md0 : mode_table := fun _ _ => res0.
Definition all_peak : Z -> Z -> fft_array := fun _ _ => peak.

Section RadiusModel.

Variable log : double -> double.
Variable to_float : double -> double.
Variables M_INI M_FIN : Z.
Variable fl : flags.
Variable items_radius : Z.

(** The cell of (mode, radius) is one the loops reach. *)
Definition computed (mode radius : Z) : bool :=
  (M_INI <=? mode) && (mode <=? M_FIN)
  && (1 <=? radius) && (radius <? items_radius)
  && match annulus_entry log to_float fl items_radius radius with
     | None => false
     | Some _ => true
     end.

End RadiusModel.

(** The cell the caller's sequence computes for (mode, radius). *)
Definition computed_cell (GR_RAD : double) (atan2 pow : double -> double -> double)
    (analysed : Z -> Z -> fft_array) (m r : Z) : result_pa.t :=
  res (fst (extract GR_RAD atan2 pow (analysed r m) m st0)).

(** ** File names and list files *)

(** Samples: [img] and [run.1]. *)
Definition img : std_string.t := map Ascii.ascii_of_nat [105; 109; 103]%nat.
Definition run_1 : std_string.t :=
  map Ascii.ascii_of_nat [114; 117; 110; 46; 49]%nat.

(** A record as [read_lines] leaves it. *)
Definition file_rec_ok (f : file_rec.t) : Prop :=
  file_rec.keyword f = outi
  /\ ~ In std_string.comma (file_rec.name f)
  /\ (file_rec.binary f = 0 \/ file_rec.binary f = 1)
  /\ (file_rec.valid f = 1
      \/ (file_rec.valid f = 0 /\ file_rec.radius f = -1
          /\ file_rec.binary f = 0)).

(** The record of a line whose radius comes from the FITS header. *)
Definition header_record (fs : std_string.t -> cfitsio)
  (name result : std_string.t) : file_rec.t :=
  match fs name with
  | Image n0 _ false =>
      file_rec.mk 1 name outi result (Z.quot (int_of_long n0 - 1) 2) 1
  | _ => file_rec.mk 0 name outi result (-1) 0
  end.

(** The record [read_lines] pushes for the line [l]: the one an iteration of
    its loop builds from [l], whatever the error code was before; its name
    is the text of [l] before the first comma. *)
Definition line_record (fs : std_string.t -> cfitsio) (atoi : std_string.t -> Z)
  (l : std_string.t) (f : file_rec.t) : Prop :=
  (forall e, fst (read_line fs atoi l e) = Some f)
  /\ file_rec.name f
     = std_string.substr l (std_string.find std_string.comma l)
  /\ file_rec_ok f.

(** The lines that are not empty, in the order of the file. *)
Definition written (lines : list std_string.t) : list std_string.t :=
  filter (fun l => match l with [] => false | _ => true end) lines.

(** A directory of FITS images of 101 x 101 pixels, and [atoi] on texts that
    hold no number. *)
Definition fs_101 : std_string.t -> cfitsio := fun _ => Image 101 101 false.
Definition atoi_text : std_string.t -> Z := fun _ => 0.

(** The name [img.fits] and the line [img.fits,img,fits], whose third field
    is not a number. *)
Definition img_fits : std_string.t := img ++ std_string.dot :: lit_fits.
Definition line_full : std_string.t :=
  img_fits ++ std_string.comma :: img ++ std_string.comma :: lit_fits.

(** * Facts on binary64 *)

(** ** NaN, order and sign *)

Lemma SFcompare_refl (x : spec_float) :
  x <> S754_nan -> SFcompare x x = Some Eq.
Proof.
  destruct x as [s | s | | s m e]; simpl; try congruence; intros _.
  - destruct s; reflexivity.
  - rewrite Z.compare_refl, Pos.compare_cont_refl. destruct s; reflexivity.
Qed.

Lemma not_nan_SF (x : double) :
  not_nan x = true <-> Prim2SF x <> S754_nan.
Proof.
  unfold not_nan. rewrite eqb_spec. unfold SFeqb. split.
  - intros H E. rewrite E in H. discriminate.
  - intros H. rewrite (SFcompare_refl _ H). reflexivity.
Qed.

Lemma not_nan_false (x : double) : not_nan x = false <-> x = NAN.
Proof.
  split.
  - intros H. apply Prim2SF_inj. change (Prim2SF NAN) with S754_nan.
    destruct (Prim2SF x) eqn:E; try reflexivity;
      assert (N : not_nan x = true) by (apply not_nan_SF; congruence);
      congruence.
  - intros ->. reflexivity.
Qed.

Lemma ltb_not_nan_r (x y : double) : (x <? y)%float = true -> not_nan y = true.
Proof.
  rewrite ltb_spec. intros H. apply not_nan_SF. intros E.
  rewrite E in H. unfold SFltb in H. destruct (Prim2SF x); discriminate.
Qed.

Lemma lex_cmp_Lt (e1 : Z) (m1 : positive) (e2 : Z) (m2 : positive) :
  lex_cmp e1 m1 e2 m2 = Lt <-> e1 < e2 \/ (e1 = e2 /\ Zpos m1 < Zpos m2).
Proof.
  unfold lex_cmp. rewrite Pos.compare_cont_spec. cbn [Pos.switch_Eq].
  destruct (Z.compare_spec e1 e2) as [E | E | E].
  - destruct (Pos.compare_spec m1 m2) as [M | M | M]; split;
      try discriminate; try reflexivity; intros; try subst; lia.
  - split; [intros _; left; exact E | reflexivity].
  - split; [discriminate | lia].
Qed.

Lemma lex_cmp_Gt (e1 : Z) (m1 : positive) (e2 : Z) (m2 : positive) :
  lex_cmp e1 m1 e2 m2 = Gt <-> e2 < e1 \/ (e1 = e2 /\ Zpos m2 < Zpos m1).
Proof.
  unfold lex_cmp. rewrite Pos.compare_cont_spec. cbn [Pos.switch_Eq].
  destruct (Z.compare_spec e1 e2) as [E | E | E].
  - destruct (Pos.compare_spec m1 m2) as [M | M | M]; split;
      try discriminate; try reflexivity; intros; try subst; lia.
  - split; [discriminate | lia].
  - split; [intros _; left; exact E | reflexivity].
Qed.

Lemma SFcompare_finite (s1 s2 : bool) (m1 m2 : positive) (e1 e2 : Z) :
  SFcompare (S754_finite s1 m1 e1) (S754_finite s2 m2 e2)
  = Some match s1, s2 with
         | true, false => Lt
         | false, true => Gt
         | false, false => lex_cmp e1 m1 e2 m2
         | true, true => CompOpp (lex_cmp e1 m1 e2 m2)
         end.
Proof.
  unfold lex_cmp. destruct s1, s2; cbn [SFcompare]; try reflexivity.
  destruct (e1 ?= e2); reflexivity.
Qed.

Lemma SFltb_trans (x y z : spec_float) :
  SFltb x y = true -> SFltb y z = true -> SFltb x z = true.
Proof.
  unfold SFltb.
  destruct x as [sx | sx | | sx mx ex], y as [sy | sy | | sy my ey],
    z as [sz | sz | | sz mz ez];
    rewrite ?SFcompare_finite; cbn [SFcompare]; intros H1 H2;
    try discriminate H1; try discriminate H2; try reflexivity;
    try (destruct sx; (reflexivity || discriminate H1 || discriminate H2));
    try (destruct sy; (reflexivity || discriminate H1 || discriminate H2));
    try (destruct sz; (reflexivity || discriminate H1 || discriminate H2));
    try (destruct sx, sy; (reflexivity || discriminate H1 || discriminate H2));
    try (destruct sy, sz; (reflexivity || discriminate H1 || discriminate H2));
    try (destruct sx, sz; (reflexivity || discriminate H1 || discriminate H2));
    try (destruct sx, sy, sz;
         (reflexivity || discriminate H1 || discriminate H2)).
  destruct sx, sy, sz; try discriminate H1; try discriminate H2;
    try reflexivity; revert H1 H2.
  - destruct (lex_cmp ex mx ey my) eqn:A; cbn [CompOpp]; try discriminate.
    destruct (lex_cmp ey my ez mz) eqn:B; cbn [CompOpp]; try discriminate.
    intros _ _. apply lex_cmp_Gt in A, B.
    assert (C : lex_cmp ex mx ez mz = Gt) by (apply lex_cmp_Gt; lia).
    rewrite C. reflexivity.
  - destruct (lex_cmp ex mx ey my) eqn:A; try discriminate.
    destruct (lex_cmp ey my ez mz) eqn:B; try discriminate.
    intros _ _. apply lex_cmp_Lt in A, B.
    assert (C : lex_cmp ex mx ez mz = Lt) by (apply lex_cmp_Lt; lia).
    rewrite C. reflexivity.
Qed.

Lemma ltb_trans (x y z : double) :
  (x <? y)%float = true -> (y <? z)%float = true -> (x <? z)%float = true.
Proof. rewrite !ltb_spec. apply SFltb_trans. Qed.

Lemma ltb_irrefl (x : double) : (x <? x)%float = false.
Proof.
  rewrite ltb_spec. unfold SFltb.
  destruct (Prim2SF x) eqn:E; try reflexivity;
    rewrite SFcompare_refl by discriminate; reflexivity.
Qed.

Lemma leb0_SF (x : double) :
  (0 <=? x)%float = true <-> sf_nonneg (Prim2SF x).
Proof.
  rewrite leb_spec. change (Prim2SF 0) with (S754_zero false).
  destruct (Prim2SF x) as [s | s | | s m e]; simpl; unfold SFleb; simpl;
    try destruct s; intuition congruence.
Qed.

Lemma nonneg_above_a_max (x : double) :
  (0 <=? x)%float = true -> (-255.0 <? x)%float = true.
Proof.
  rewrite leb0_SF, ltb_spec.
  replace (Prim2SF (-255.0)) with (S754_finite true 8972014882652160 (-45))
    by (vm_compute; reflexivity).
  destruct (Prim2SF x) as [s | s | | s m e]; simpl; unfold SFltb; simpl;
    try destruct s; intuition congruence.
Qed.

Lemma iter_pos_inv {A : Type} (P : A -> Prop) (f : A -> A) :
  (forall a, P a -> P (f a)) ->
  forall n a, P a -> P (iter_pos f n a).
Proof.
  intros Hf. induction n as [n IH | n IH | ]; simpl; intros a Ha; auto.
Qed.

Lemma shr_1_nonneg (r : shr_record) : 0 <= shr_m r -> 0 <= shr_m (shr_1 r).
Proof.
  destruct r as [m r s]. simpl.
  destruct m as [ | [p | p | ] | p]; simpl; lia.
Qed.

Lemma shr_fexp_nonneg (m e : Z) (l : location) :
  0 <= m -> 0 <= shr_m (fst (shr_fexp prec emax m e l)).
Proof.
  intros Hm. unfold shr_fexp, shr.
  assert (H0 : 0 <= shr_m (shr_record_of_loc m l))
    by (destruct l as [ | [ | | ]]; exact Hm).
  destruct (fexp prec emax (Zdigits2 m + e) - e); simpl; auto.
  apply (iter_pos_inv (fun r => 0 <= shr_m r)); auto using shr_1_nonneg.
Qed.

Lemma round_nearest_even_nonneg (m : Z) (l : location) :
  0 <= m -> 0 <= round_nearest_even m l.
Proof.
  intros Hm. destruct l as [ | [ | | ]]; simpl; try lia.
  destruct (Z.even m); lia.
Qed.

(** Rounding a non-negative mantissa never yields NaN and keeps the
    sign. *)
Lemma binary_round_aux_signed (sx : bool) (mx ex : Z) (lx : location) :
  0 <= mx -> sf_signed sx (binary_round_aux prec emax sx mx ex lx).
Proof.
  intros Hm. unfold binary_round_aux.
  pose proof (shr_fexp_nonneg mx ex lx Hm) as H1.
  destruct (shr_fexp prec emax mx ex lx) as [mrs' e']. simpl in H1.
  pose proof (shr_fexp_nonneg _ e' loc_Exact
                (round_nearest_even_nonneg _ (loc_of_shr_record mrs') H1)) as H2.
  destruct (shr_fexp prec emax _ e' loc_Exact) as [mrs'' e'']. simpl in H2.
  destruct (shr_m mrs'') as [ | p | p]; [reflexivity | | lia].
  destruct (e'' <=? emax - prec); reflexivity.
Qed.

Lemma binary_round_signed (sx : bool) (mx : positive) (ex : Z) :
  sf_signed sx (binary_round prec emax sx mx ex).
Proof.
  unfold binary_round. destruct (shl_align mx ex _) as [mz ez].
  apply binary_round_aux_signed. lia.
Qed.

Lemma sf_signed_nonneg (x : spec_float) : sf_signed false x -> sf_nonneg x.
Proof. destruct x; simpl; auto. Qed.

Lemma SFadd_nonneg (x y : spec_float) :
  sf_nonneg x -> sf_nonneg y -> sf_nonneg (SF64add x y).
Proof.
  destruct x as [sx | sx | | sx mx ex], y as [sy | sy | | sy my ey];
    simpl; try tauto; intros Hx Hy; subst; simpl; auto.
  - destruct sx, sy; simpl; auto.
  - apply sf_signed_nonneg, binary_round_signed.
Qed.

Lemma add_nonneg (x y : double) :
  (0 <=? x)%float = true -> (0 <=? y)%float = true ->
  (0 <=? x + y)%float = true.
Proof.
  rewrite !leb0_SF, add_spec. apply SFadd_nonneg.
Qed.

Lemma SFsqrt_nonneg (x : spec_float) :
  SF64sqrt x <> S754_nan -> sf_nonneg (SF64sqrt x).
Proof.
  destruct x as [s | s | | s m e]; simpl; try tauto.
  - destruct s; simpl; tauto.
  - destruct s; simpl; try tauto. intros _.
    unfold SFsqrt_core_binary.
    set (m' := match _ with Z0 => _ | Zpos _ => _ | Zneg _ => _ end).
    pose proof (Z.sqrtrem_sqrt m') as Hq. pose proof (Z.sqrt_nonneg m') as Hp.
    destruct (Z.sqrtrem m') as [q r]. simpl in Hq. subst q.
    apply sf_signed_nonneg, binary_round_aux_signed. exact Hp.
Qed.

Lemma sqrt_nonneg (x : double) :
  not_nan (sqrt x) = true -> (0 <=? sqrt x)%float = true.
Proof.
  rewrite not_nan_SF, leb0_SF, sqrt_spec. apply SFsqrt_nonneg.
Qed.

Lemma nonneg_not_nan (x : double) : (0 <=? x)%float = true -> not_nan x = true.
Proof.
  rewrite leb0_SF, not_nan_SF. destruct (Prim2SF x); simpl; congruence.
Qed.

Lemma SFopp_not_nan (x : spec_float) : x <> S754_nan -> SFopp x <> S754_nan.
Proof. destruct x; simpl; congruence. Qed.

Lemma sf_signed_not_nan (s : bool) (x : spec_float) :
  sf_signed s x -> x <> S754_nan.
Proof. destruct x; simpl; congruence. Qed.

Lemma of_uint63_not_nan (n : PrimInt63.int) : Prim2SF (of_uint63 n) <> S754_nan.
Proof.
  rewrite of_uint63_spec. unfold binary_normalize.
  destruct (Uint63.to_Z n) as [ | p | p]; [discriminate | | ];
    exact (sf_signed_not_nan _ _ (binary_round_signed _ p 0)).
Qed.

Lemma double_of_int_not_nan (z : Z) : not_nan (double_of_int z) = true.
Proof.
  apply not_nan_SF. unfold double_of_int. destruct (z <? 0).
  - rewrite opp_spec. apply SFopp_not_nan, of_uint63_not_nan.
  - apply of_uint63_not_nan.
Qed.

(** ** Exact subtraction and the wrap-around of the pitch angle *)

Lemma digits2_pos_bounds (p : positive) :
  2 ^ (Zpos (digits2_pos p) - 1) <= Zpos p < 2 ^ Zpos (digits2_pos p).
Proof.
  induction p as [p IH | p IH | ]; cbn [digits2_pos].
  - rewrite Pos2Z.inj_succ.
    replace (Z.succ (Zpos (digits2_pos p)) - 1) with (Z.succ (Zpos (digits2_pos p) - 1))
      by lia.
    rewrite !Z.pow_succ_r by lia. lia.
  - rewrite Pos2Z.inj_succ.
    replace (Z.succ (Zpos (digits2_pos p)) - 1) with (Z.succ (Zpos (digits2_pos p) - 1))
      by lia.
    rewrite !Z.pow_succ_r by lia. lia.
  - simpl. lia.
Qed.

Lemma iter_xO_value (p k : positive) :
  Zpos (Pos.iter xO p k) = Zpos p * 2 ^ Zpos k.
Proof.
  induction k as [ | k IH] using Pos.peano_ind.
  - simpl. lia.
  - rewrite Pos.iter_succ, Pos2Z.inj_xO, IH, Pos2Z.inj_succ, Z.pow_succ_r by lia.
    lia.
Qed.

Lemma iter_xO_digits (p k : positive) :
  Zpos (digits2_pos (Pos.iter xO p k)) = Zpos (digits2_pos p) + Zpos k.
Proof.
  induction k as [ | k IH] using Pos.peano_ind.
  - simpl. lia.
  - rewrite Pos.iter_succ. cbn [digits2_pos].
    rewrite Pos2Z.inj_succ, IH. lia.
Qed.

(** A full-width mantissa with an exponent in range is already rounded. *)
Lemma binary_round_aux_canonical (s : bool) (m : positive) (e : Z) :
  Zpos (digits2_pos m) = 53 -> -1074 <= e <= 971 ->
  binary_round_aux prec emax s (Zpos m) e loc_Exact = S754_finite s m e.
Proof.
  intros Hd He. unfold binary_round_aux.
  assert (S0 : shr_fexp prec emax (Zpos m) e loc_Exact
               = (Build_shr_record (Zpos m) false false, e)).
  { unfold shr_fexp, fexp, Zdigits2, FloatOps.emin, SpecFloat.emin, prec, emax.
    rewrite Hd.
    replace (Z.max (53 + e - 53) (3 - 1024 - 53) - e) with 0 by lia.
    reflexivity. }
  rewrite S0. cbn [shr_m loc_of_shr_record round_nearest_even]. rewrite S0.
  cbn [shr_m]. unfold prec, emax.
  replace (e <=? 1024 - 53) with true by (symmetry; apply Z.leb_le; lia).
  reflexivity.
Qed.

(** Rounding a mantissa of at most 53 bits only normalises it. *)
Lemma binary_round_exact (s : bool) (p : positive) (e : Z) :
  Zpos (digits2_pos p) <= 53 -> -1021 <= e <= 971 ->
  exists (m : positive) (k : Z),
    0 <= k /\ Zpos (digits2_pos p) + k = 53
    /\ Zpos m = Zpos p * 2 ^ k
    /\ binary_round prec emax s p e = S754_finite s m (e - k).
Proof.
  intros Hd He. unfold binary_round.
  assert (F : fexp prec emax (Zpos (digits2_pos p) + e)
              = Zpos (digits2_pos p) + e - 53).
  { unfold fexp, FloatOps.emin, SpecFloat.emin, prec, emax.
    pose proof (Pos2Z.is_pos (digits2_pos p)). lia. }
  rewrite F. unfold shl_align.
  destruct (Zpos (digits2_pos p) + e - 53 - e) as [ | q | q] eqn:Q.
  - exists p, 0. repeat split; try lia.
    replace (e - 0) with e by lia.
    apply binary_round_aux_canonical; lia.
  - pose proof (Pos2Z.is_pos q). lia.
  - exists (Pos.iter xO p q), (Zpos q).
    assert (K : Zpos (digits2_pos p) + Zpos q = 53)
      by (pose proof (Pos2Z.neg_is_neg q); lia).
    repeat split; try lia.
    + apply iter_xO_value.
    + replace (Zpos (digits2_pos p) + e - 53) with (e - Zpos q) by lia.
      apply binary_round_aux_canonical; [ | lia].
      rewrite iter_xO_digits. exact K.
Qed.

(** [z * 2^e] with [e] one of -46, -45 and at most 90 in magnitude: its
    binary64 value is at most 90 in magnitude. *)
Lemma normalize_le_90 (z e : Z) :
  (e = -46 /\ Z.abs z <= 6333186975989760)
  \/ (e = -45 /\ Z.abs z <= 3166593487994880) ->
  SFleb (SFabs (binary_normalize prec emax z e false)) c90 = true.
Proof.
  intros H. unfold binary_normalize.
  assert (G : forall s p, Z.abs z = Zpos p ->
              SFleb (SFabs (binary_round prec emax s p e)) c90 = true).
  { intros s p Hz.
    pose proof (digits2_pos_bounds p) as [Dlo Dhi].
    assert (Dd : Zpos (digits2_pos p) <= 53).
    { destruct (Z_le_gt_dec (Zpos (digits2_pos p)) 53) as [ | Hgt]; [assumption | ].
      assert (2 ^ 53 <= 2 ^ (Zpos (digits2_pos p) - 1))
        by (apply Z.pow_le_mono_r; lia).
      change (2 ^ 53) with 9007199254740992 in *. lia. }
    destruct (binary_round_exact s p e Dd) as [m [k [K0 [K1 [Km ->]]]]]; [lia | ].
    cbn [SFabs]. unfold c90, SFleb, SFcompare.
    destruct (Z.compare_spec (e - k) (-46)) as [E | E | E]; [ | reflexivity | ].
    - rewrite Pos.compare_cont_spec. cbn [Pos.switch_Eq].
      assert (Hm : Zpos m <= 6333186975989760).
      { destruct H as [[-> Hb] | [-> Hb]].
        - replace k with 0 in * by lia. rewrite Km. simpl. lia.
        - replace k with 1 in * by lia. rewrite Km. simpl (2 ^ 1). lia. }
      destruct (Pos.compare_spec m 6333186975989760); try reflexivity. lia.
    - exfalso. destruct H as [[-> Hb] | [-> Hb]]; [lia | ].
      replace k with 0 in * by lia.
      replace (Zpos (digits2_pos p) - 1) with 52 in Dlo by lia.
      change (2 ^ 52) with 4503599627370496 in Dlo. lia. }
  destruct z as [ | p | p]; [reflexivity | apply G | apply G]; reflexivity.
Qed.

Lemma SFltb_finite_pos (m1 m2 : positive) (e1 e2 : Z) :
  SFltb (S754_finite false m1 e1) (S754_finite false m2 e2) = true ->
  e1 < e2 \/ (e1 = e2 /\ Zpos m1 < Zpos m2).
Proof.
  unfold SFltb, SFcompare. rewrite Pos.compare_cont_spec. cbn [Pos.switch_Eq].
  destruct (Z.compare_spec e1 e2) as [E | E | E]; intros L.
  - right. split; [exact E | ].
    destruct (Pos.compare_spec m1 m2) as [M | M | M];
      [discriminate L | lia | discriminate L].
  - left. exact E.
  - discriminate L.
Qed.

Lemma SFleb_finite_pos (m1 m2 : positive) (e1 e2 : Z) :
  SFleb (S754_finite false m1 e1) (S754_finite false m2 e2) = true ->
  e1 < e2 \/ (e1 = e2 /\ Zpos m1 <= Zpos m2).
Proof.
  unfold SFleb, SFcompare. rewrite Pos.compare_cont_spec. cbn [Pos.switch_Eq].
  destruct (Z.compare_spec e1 e2) as [E | E | E]; intros L.
  - right. split; [exact E | ].
    destruct (Pos.compare_spec m1 m2) as [M | M | M];
      [subst; lia | lia | discriminate L].
  - left. exact E.
  - discriminate L.
Qed.

Lemma SFsub_180_bound (x : spec_float) :
  valid_binary x = true -> SFltb c90 x = true -> SFleb x c270 = true ->
  SFleb (SFabs (SF64sub x c180)) c90 = true.
Proof.
  intros V L U. destruct x as [s | s | | s m e].
  - destruct s; discriminate L.
  - destruct s; [discriminate L | discriminate U].
  - discriminate L.
  - destruct s; [discriminate L | ].
    apply SFltb_finite_pos in L. apply SFleb_finite_pos in U.
    cbn [valid_binary] in V. unfold bounded, canonical_mantissa in V.
    apply andb_true_iff in V. destruct V as [V _]. apply Z.eqb_eq in V.
    unfold fexp, FloatOps.emin, SpecFloat.emin, prec, emax in V.
    pose proof (digits2_pos_bounds m) as [Dlo Dhi].
    assert (Hd : Zpos (digits2_pos m) = 53) by lia.
    rewrite Hd in Dlo, Dhi. clear V Hd.
    change (2 ^ (53 - 1)) with 4503599627370496 in Dlo.
    change (2 ^ 53) with 9007199254740992 in Dhi.
    assert (E : (e = -46 /\ 6333186975989760 < Zpos m) \/ e = -45
                \/ (e = -44 /\ Zpos m <= 4749890231992320)) by lia.
    clear L U.
    destruct E as [[-> Hm] | [-> | [-> Hm]]].
    + (* 90 < x < 128 *)
      change (SF64sub (S754_finite false m (-46)) c180)
        with (binary_normalize prec emax (Zpos m - Zpos 6333186975989760~0) (-46) false).
      apply normalize_le_90. left. split; [reflexivity | ].
      rewrite Pos2Z.inj_xO. lia.
    + (* 128 <= x < 256 *)
      change (SF64sub (S754_finite false m (-45)) c180)
        with (binary_normalize prec emax (Zpos m - Zpos 6333186975989760) (-45) false).
      apply normalize_le_90. right. split; [reflexivity | ]. lia.
    + (* 256 <= x <= 270 *)
      change (SF64sub (S754_finite false m (-44)) c180)
        with (binary_normalize prec emax (Zpos m~0 - Zpos 6333186975989760) (-45) false).
      apply normalize_le_90. right. split; [reflexivity | ].
      rewrite Pos2Z.inj_xO. lia.
Qed.

Lemma Prim2SF_90 : Prim2SF 90.0 = c90.
Proof. vm_compute. reflexivity. Qed.

Lemma Prim2SF_180 : Prim2SF 180.0 = c180.
Proof. vm_compute. reflexivity. Qed.

Lemma Prim2SF_270 : Prim2SF 270.0 = c270.
Proof. vm_compute. reflexivity. Qed.

Lemma SFltb_false_leb (m1 m2 : positive) (e1 e2 : Z) :
  SFltb (S754_finite false m1 e1) (S754_finite false m2 e2) = false ->
  SFleb (S754_finite false m2 e2) (S754_finite false m1 e1) = true.
Proof.
  unfold SFltb, SFleb, SFcompare. rewrite !Pos.compare_cont_spec.
  cbn [Pos.switch_Eq].
  rewrite (Z.compare_antisym e2 e1), (Pos.compare_antisym m2 m1).
  destruct (e2 ?= e1); cbn [CompOpp]; intros L;
    [ | reflexivity | discriminate L].
  destruct (m2 ?= m1)%positive; cbn [CompOpp] in *;
    [reflexivity | reflexivity | discriminate L].
Qed.

Lemma SFltb_false_leb_90 (x : spec_float) :
  sf_nonneg x -> SFltb c90 x = false -> SFleb x c90 = true.
Proof.
  destruct x as [s | s | | s m e]; cbn [sf_nonneg].
  - intros _ _. reflexivity.
  - intros -> L. discriminate L.
  - intros [].
  - intros -> L. apply SFltb_false_leb. exact L.
Qed.

Lemma SFabs_nonneg_ltb (c x : spec_float) :
  sf_nonneg x -> SFltb c (SFabs x) = SFltb c x.
Proof.
  destruct x as [s | s | | s m e]; cbn [sf_nonneg SFabs].
  - intros _. destruct c; reflexivity.
  - intros ->. reflexivity.
  - intros [].
  - intros ->. reflexivity.
Qed.

Lemma SFabs_nonneg_leb (c x : spec_float) :
  sf_nonneg x -> SFleb (SFabs x) c = SFleb x c.
Proof.
  destruct x as [s | s | | s m e]; cbn [sf_nonneg SFabs].
  - intros _. destruct c; reflexivity.
  - intros ->. reflexivity.
  - intros [].
  - intros ->. reflexivity.
Qed.

(** An angle between 0 and 270 degrees is wrapped to one between -90 and 90
    degrees. *)
Lemma wrap_pa_bound (d : double) :
  (0 <=? d)%float = true -> (d <=? 270.0)%float = true ->
  (PrimFloat.abs (wrap_pa d) <=? 90.0)%float = true.
Proof.
  intros H0 H270. unfold wrap_pa.
  pose proof (proj1 (leb0_SF d) H0) as N.
  destruct (90.0 <? PrimFloat.abs d)%float eqn:T.
  - rewrite leb_spec, abs_spec, sub_spec, Prim2SF_90, Prim2SF_180.
    rewrite ltb_spec, abs_spec, Prim2SF_90, SFabs_nonneg_ltb in T by exact N.
    rewrite leb_spec, Prim2SF_270 in H270.
    apply SFsub_180_bound; [apply Prim2SF_valid | exact T | exact H270].
  - rewrite leb_spec, abs_spec, Prim2SF_90, SFabs_nonneg_leb by exact N.
    rewrite ltb_spec, abs_spec, Prim2SF_90, SFabs_nonneg_ltb in T by exact N.
    apply SFltb_false_leb_90; assumption.
Qed.

Lemma double_of_int_nonneg (z : Z) :
  0 <= z -> (0 <=? double_of_int z)%float = true.
Proof.
  intros Hz. unfold double_of_int.
  replace (z <? 0) with false by (symmetry; apply Z.ltb_ge; exact Hz).
  apply leb0_SF. rewrite of_uint63_spec. unfold binary_normalize.
  destruct (Uint63.to_Z (Uint63.of_Z z)) as [ | p | p] eqn:E; [exact I | | ].
  - apply sf_signed_nonneg, binary_round_signed.
  - pose proof (Uint63.to_Z_bounded (Uint63.of_Z z)) as B.
    rewrite E in B. destruct B as [B _]. exfalso. apply B. reflexivity.
Qed.

(** * Loops *)

Lemma for_loop_inv {A : Type} (P : Z -> A -> Prop) (body : Z -> A -> A) :
  forall (n : nat) (i : Z) (s : A),
    P i s ->
    (forall j t, i <= j < i + Z.of_nat n -> P j t -> P (j + 1) (body j t)) ->
    P (i + Z.of_nat n) (for_loop n i body s).
Proof.
  induction n as [ | n IH]; intros i s H0 Hstep.
  - simpl. replace (i + 0) with i by lia. exact H0.
  - cbn [for_loop].
    replace (i + Z.of_nat (S n)) with ((i + 1) + Z.of_nat n) by lia.
    apply IH.
    + apply Hstep; [lia | exact H0].
    + intros j t Hj. apply Hstep. lia.
Qed.

Lemma for_incl_inv {A : Type} (P : Z -> A -> Prop) (body : Z -> A -> A)
  (lo hi : Z) (s : A) :
  lo <= hi + 1 ->
  P lo s ->
  (forall j t, lo <= j <= hi -> P j t -> P (j + 1) (body j t)) ->
  P (hi + 1) (for_incl lo hi body s).
Proof.
  intros Hle H0 Hstep. unfold for_incl.
  replace (hi + 1) with (lo + Z.of_nat (Z.to_nat (hi + 1 - lo))) at 1 by lia.
  apply for_loop_inv; [exact H0 | ].
  intros j t Hj. apply Hstep. lia.
Qed.

(** * The maximum search of [pitch_phase] *)

Section Scan.

Variable fft : fft_array.

Lemma scan_inv_init : scan_inv fft LO_INDEX scan_init.
Proof.
  split; [left; split; [reflexivity | intros; lia] | ].
  split; [intros; lia | left; split; reflexivity].
Qed.

Lemma scan_body_nan (i : Z) (s : scan) :
  nan (scan_body fft i s) = if valid_at fft i then 0 else nan s.
Proof. unfold scan_body. destruct (_ && _); reflexivity. Qed.

Lemma scan_body_index (i : Z) (s : scan) :
  index (scan_body fft i s)
  = if (a_max s <? fft_out.abs (fft i))%float && negb (i =? 1025)
    then i else index s.
Proof. unfold scan_body. destruct (_ && _); reflexivity. Qed.

Lemma scan_body_a_max (i : Z) (s : scan) :
  a_max (scan_body fft i s)
  = if (a_max s <? fft_out.abs (fft i))%float && negb (i =? 1025)
    then fft_out.abs (fft i) else a_max s.
Proof. unfold scan_body. destruct (_ && _); reflexivity. Qed.

Lemma scan_inv_step (i : Z) (s : scan) :
  LO_INDEX <= i -> scan_inv fft i s -> scan_inv fft (i + 1) (scan_body fft i s).
Proof.
  intros Hi [Hn [Hmax Hx]]. split; [ | split].
  - rewrite scan_body_nan. destruct (valid_at fft i) eqn:V.
    + right. split; [reflexivity | ]. exists i. split; [lia | exact V].
    + destruct Hn as [[N A] | [N [j [Hj Vj]]]].
      * left. split; [exact N | ]. intros j Hj.
        destruct (Z.eq_dec j i) as [-> | ]; [exact V | apply A; lia].
      * right. split; [exact N | ]. exists j. split; [lia | exact Vj].
  - rewrite scan_body_a_max. intros j Hj Hne.
    destruct ((a_max s <? fft_out.abs (fft i))%float && negb (i =? 1025)) eqn:T.
    + apply andb_true_iff in T. destruct T as [T _].
      destruct (Z.eq_dec j i) as [-> | Hji]; [apply ltb_irrefl | ].
      destruct (fft_out.abs (fft i) <? fft_out.abs (fft j))%float eqn:G;
        [ | reflexivity].
      rewrite <- (Hmax j) by lia. symmetry. exact (ltb_trans _ _ _ T G).
    + destruct (Z.eq_dec j i) as [-> | Hji]; [ | apply Hmax; lia].
      apply andb_false_iff in T. destruct T as [T | T]; [exact T | ].
      apply negb_false_iff, Z.eqb_eq in T. contradiction.
  - rewrite scan_body_index, scan_body_a_max.
    destruct ((a_max s <? fft_out.abs (fft i))%float && negb (i =? 1025)) eqn:T.
    + apply andb_true_iff in T. destruct T as [_ T].
      apply negb_true_iff, Z.eqb_neq in T. right.
      split; [lia | ]. split; [exact T | reflexivity].
    + destruct Hx as [X | [X [Y W]]]; [left; exact X | right].
      split; [lia | ]. split; assumption.
Qed.

Lemma scan_window_inv : scan_inv fft (HI_INDEX + 1) (scan_window fft).
Proof.
  unfold scan_window. apply (for_incl_inv (scan_inv fft)).
  - unfold LO_INDEX, HI_INDEX. lia.
  - exact scan_inv_init.
  - intros j t Hj. apply scan_inv_step. lia.
Qed.

(** The window has a valid bin exactly when the search clears [nan]. *)
Lemma scan_window_nan :
  (nan (scan_window fft) = 1
   /\ forall j, LO_INDEX <= j <= HI_INDEX -> valid_at fft j = false)
  \/ (nan (scan_window fft) = 0
      /\ exists j, LO_INDEX <= j <= HI_INDEX /\ valid_at fft j = true).
Proof.
  destruct scan_window_inv as [[[N A] | [N [j [Hj V]]]] _].
  - left. split; [exact N | ]. intros j Hj. apply A. lia.
  - right. split; [exact N | ]. exists j. split; [lia | exact V].
Qed.

(** The search leaves [index] at -1 exactly when no bin of the window
    other than slot 1025 exceeds the initial [a_max]; otherwise [index] is a
    bin of the window, not slot 1025, that no such bin exceeds. *)
Lemma scan_window_index :
  (index (scan_window fft) = -1
   /\ forall j, LO_INDEX <= j <= HI_INDEX -> j <> 1025 ->
        (-255.0 <? fft_out.abs (fft j))%float = false)
  \/ (LO_INDEX <= index (scan_window fft) <= HI_INDEX
      /\ index (scan_window fft) <> 1025
      /\ forall j, LO_INDEX <= j <= HI_INDEX -> j <> 1025 ->
           (fft_out.abs (fft (index (scan_window fft))) <? fft_out.abs (fft j))%float
           = false).
Proof.
  destruct scan_window_inv as [_ [Hmax [[X M] | [X [Y M]]]]].
  - left. split; [exact X | ]. intros j Hj Hne. rewrite <- M. apply Hmax; lia.
  - right. split; [lia | ]. split; [exact Y | ].
    intros j Hj Hne. rewrite <- M. apply Hmax; lia.
Qed.

End Scan.

(** * [pitch_phase]: the three outcomes *)

Section Outcomes.

Variable GR_RAD : double.
Variable atan2 : double -> double -> double.
Variable pow : double -> double -> double.

Lemma pitch_phase_nan (fft : fft_array) (mode : Z) (st : pitch_state) :
  (forall j, LO_INDEX <= j <= HI_INDEX -> valid_at fft j = false) ->
  pitch_phase GR_RAD atan2 fft mode st = (PITCH_RET_NAN, st).
Proof.
  intros H. unfold pitch_phase.
  destruct (scan_window_nan fft) as [[N _] | [_ [j [Hj V]]]].
  - rewrite N. reflexivity.
  - rewrite (H j Hj) in V. discriminate.
Qed.

(** C1.  When the window has a valid bin but the search index stays at -1,
    [pitch_phase] records [PITCH_ERR_MAX_AMP] and returns 0, which is
    [PITCH_RET_NAN] and not [PITCH_RET_ERR]. *)
Theorem pitch_phase_no_maximum (fft : fft_array) (mode : Z) (st : pitch_state) :
  (exists j, LO_INDEX <= j <= HI_INDEX /\ valid_at fft j = true) ->
  index (scan_window fft) = -1 ->
  pitch_phase GR_RAD atan2 fft mode st
    = (PITCH_RET_NAN, set_pitch_errno PITCH_ERR_MAX_AMP st)
  /\ fst (pitch_phase GR_RAD atan2 fft mode st) <> PITCH_RET_ERR.
Proof.
  intros [j [Hj V]] X.
  assert (E : pitch_phase GR_RAD atan2 fft mode st
              = (PITCH_RET_NAN, set_pitch_errno PITCH_ERR_MAX_AMP st)).
  { unfold pitch_phase.
    destruct (scan_window_nan fft) as [[_ A] | [N _]].
    - rewrite (A j Hj) in V. discriminate.
    - rewrite N, X. reflexivity. }
  split; [exact E | ]. rewrite E. discriminate.
Qed.

(** C5.  On a window without any valid magnitude [pitch_phase] returns
    [PITCH_RET_NAN] and leaves the state alone; the caller then clears
    every statistic of the cell to NaN, and neither [snr] nor [fwhm] is
    called, so that no status of the cell is [PITCH_RET_ERR] and no error
    code is recorded. *)
Theorem all_nan_window (fft : fft_array) (mode : Z) (st : pitch_state) :
  (forall j, LO_INDEX <= j <= HI_INDEX -> valid_at fft j = false) ->
  pitch_phase GR_RAD atan2 fft mode st = (PITCH_RET_NAN, st)
  /\ snd (extract GR_RAD atan2 pow fft mode st) = [(Pitch_phase, PITCH_RET_NAN)]
  /\ (forall c, In c (snd (extract GR_RAD atan2 pow fft mode st)) ->
        snd c <> PITCH_RET_ERR)
  /\ pitch_errno (fst (extract GR_RAD atan2 pow fft mode st)) = pitch_errno st
  /\ let r := res (fst (extract GR_RAD atan2 pow fft mode st)) in
     result_pa.freq r = NAN /\ result_pa.amp r = NAN
     /\ result_pa.avg_amp r = NAN /\ result_pa.pa r = NAN
     /\ result_pa.phase r = NAN /\ result_pa.snr r = NAN
     /\ result_pa.fwhm r = NAN.
Proof.
  intros H. pose proof (pitch_phase_nan fft mode st H) as E.
  split; [exact E | ].
  assert (X : extract GR_RAD atan2 pow fft mode st
              = (upd_res clear_all st, [(Pitch_phase, PITCH_RET_NAN)])).
  { unfold extract. rewrite E. reflexivity. }
  rewrite X. simpl. repeat split.
  intros c [<- | []]. discriminate.
Qed.

End Outcomes.

Lemma pitch_phase_no_maximum_witness :
  (exists j, LO_INDEX <= j <= HI_INDEX /\ valid_at only_mid_slot j = true)
  /\ index (scan_window only_mid_slot) = -1
  /\ fst (pitch_phase GR_RAD_model atan2_model only_mid_slot 2 st0)
     = PITCH_RET_NAN.
Proof.
  assert (V : exists j, LO_INDEX <= j <= HI_INDEX /\ valid_at only_mid_slot j = true).
  { exists 1025. split; [unfold LO_INDEX, HI_INDEX; lia | reflexivity]. }
  assert (X : index (scan_window only_mid_slot) = -1) by (vm_compute; reflexivity).
  split; [exact V | ]. split; [exact X | ].
  rewrite (proj1 (pitch_phase_no_maximum GR_RAD_model atan2_model
                    only_mid_slot 2 st0 V X)).
  reflexivity.
Defined.

Lemma all_nan_window_witness :
  (forall j, LO_INDEX <= j <= HI_INDEX -> valid_at all_nan j = false)
  /\ snd (extract GR_RAD_model atan2_model pow_model all_nan 2 st0)
     = [(Pitch_phase, PITCH_RET_NAN)].
Proof.
  assert (H : forall j, LO_INDEX <= j <= HI_INDEX -> valid_at all_nan j = false)
    by (intros j _; reflexivity).
  split; [exact H | ].
  exact (proj1 (proj2 (all_nan_window GR_RAD_model atan2_model pow_model
                         all_nan 2 st0 H))).
Defined.

Lemma double_of_int_signed (z : Z) :
  0 <= z -> sf_signed false (Prim2SF (double_of_int z)).
Proof.
  intros Hz. unfold double_of_int.
  replace (z <? 0) with false by (symmetry; apply Z.ltb_ge; exact Hz).
  rewrite of_uint63_spec. unfold binary_normalize.
  destruct (Uint63.to_Z (Uint63.of_Z z)) as [ | p | p] eqn:E; [reflexivity | | ].
  - apply binary_round_signed.
  - pose proof (Uint63.to_Z_bounded (Uint63.of_Z z)) as B.
    rewrite E in B. destruct B as [B _]. exfalso. apply B. reflexivity.
Qed.

Lemma sign_bit_clear (y : double) :
  sf_signed false (Prim2SF y) -> sign_bit y = false.
Proof.
  intros H. unfold sign_bit.
  rewrite !ltb_spec, eqb_spec, div_spec.
  change (Prim2SF 0) with (S754_zero false).
  change (Prim2SF 1) with (S754_finite false 4503599627370496 (-52)).
  destruct (Prim2SF y) as [s | s | | s m e]; cbn [sf_signed] in H;
    try contradiction; subst s; reflexivity.
Qed.

Lemma atan2_octant_range : atan2_degrees_range GR_RAD_model atan2_octant.
Proof.
  intros y x Hy Hx. unfold atan2_octant.
  rewrite (sign_bit_clear y Hy), Hx.
  replace (not_nan y) with true
    by (symmetry; apply not_nan_SF; exact (sf_signed_not_nan _ _ Hy)).
  cbn [andb negb].
  destruct (y =? 0)%float;
    [destruct (sign_bit x)
    | destruct (x =? 0)%float; [ | destruct (0 <? x)%float]];
    split; vm_compute; reflexivity.
Qed.

Lemma mul_nan_l (x : double) : (NAN * x)%float = NAN.
Proof.
  apply Prim2SF_inj. rewrite mul_spec. change (Prim2SF NAN) with S754_nan.
  reflexivity.
Qed.

Section PitchAngle.

Variable GR_RAD : double.
Variable atan2 : double -> double -> double.
Hypothesis atan2_range : atan2_degrees_range GR_RAD atan2.

(** C4, amended.  When a bin of the window other than slot 1025 has a
    magnitude above -255 (any magnitude that is a number and not negative),
    [pitch_phase] returns 1 ([PITCH_RET_OK]) and stores the index, the
    magnitude and the frequency of a bin of the window, not slot 1025, that
    no other such bin exceeds.  The pitch angle it stores is
    [atan2 (mode, freq)] in degrees, less 180 when its magnitude exceeds 90.
    For a mode that is not negative it lies between -90 and 90 when the
    stored frequency label is a number; when the label is NaN, which
    [atan2] propagates, the angle is NaN and the bound fails. *)
Theorem pitch_phase_success (fft : fft_array) (mode : Z) (st : pitch_state) :
  0 <= mode ->
  (exists i, LO_INDEX <= i <= HI_INDEX /\ i <> 1025
             /\ (-255.0 <? fft_out.abs (fft i))%float = true) ->
  let out := pitch_phase GR_RAD atan2 fft mode st in
  let r := res (snd out) in
  let d := (atan2 (double_of_int mode) (result_pa.freq r)
            * (1.0 / GR_RAD))%float in
  fst out = PITCH_RET_OK
  /\ (LO_INDEX <= result_pa.index r <= HI_INDEX /\ result_pa.index r <> 1025)
  /\ (result_pa.amp r = fft_out.abs (fft (result_pa.index r))
      /\ result_pa.freq r = fft_out.freq (fft (result_pa.index r))
      /\ forall j, LO_INDEX <= j <= HI_INDEX -> j <> 1025 ->
           (result_pa.amp r <? fft_out.abs (fft j))%float = false)
  /\ result_pa.pa r
     = (if (90.0 <? PrimFloat.abs d)%float then (d - 180.0)%float else d)
  /\ (not_nan (result_pa.freq r) = true ->
      (PrimFloat.abs (result_pa.pa r) <=? 90.0)%float = true)
  /\ (not_nan (result_pa.freq r) = false ->
      atan2 (double_of_int mode) NAN = NAN ->
      result_pa.pa r = NAN
      /\ (PrimFloat.abs (result_pa.pa r) <=? 90.0)%float = false).
Proof.
  intros Hm [i [Hi [Hne Hv]]]. cbv zeta. unfold pitch_phase.
  destruct (scan_window_nan fft) as [[_ A] | [N _]].
  { assert (V : valid_at fft i = true) by (apply ltb_not_nan_r in Hv; exact Hv).
    rewrite (A i Hi) in V. discriminate V. }
  destruct (scan_window_index fft) as [[_ A] | [X [X' M]]].
  { rewrite (A i Hi Hne) in Hv. discriminate Hv. }
  rewrite N.
  replace (index (scan_window fft) <? 0) with false
    by (symmetry; apply Z.ltb_ge; unfold LO_INDEX in X; lia).
  cbn [negb Z.eqb fst snd res result_pa.index result_pa.pa result_pa.amp
         result_pa.freq result_pa.set_phase result_pa.set_pa
         result_pa.set_index result_pa.set_freq result_pa.set_amp].
  split; [reflexivity | ]. split; [split; assumption | ].
  split; [split; [reflexivity | split; [reflexivity | exact M]] | ].
  split; [reflexivity | ].
  unfold pitch_angle. split.
  - intros Hf.
    destruct (atan2_range (double_of_int mode)
                (fft_out.freq (fft (index (scan_window fft))))) as [D0 D270].
    + apply double_of_int_signed. exact Hm.
    + exact Hf.
    + apply wrap_pa_bound; assumption.
  - intros Hf Hn. apply not_nan_false in Hf. rewrite Hf, Hn, mul_nan_l.
    split; reflexivity.
Qed.

End PitchAngle.

Lemma pitch_phase_success_witness :
  atan2_degrees_range GR_RAD_model atan2_octant
  /\ 0 <= 1
  /\ (exists i, LO_INDEX <= i <= HI_INDEX /\ i <> 1025
                /\ (-255.0 <? fft_out.abs (peak i))%float = true)
  /\ fst (pitch_phase GR_RAD_model atan2_octant peak 1 st0) = PITCH_RET_OK
  /\ not_nan
       (result_pa.freq (res (snd (pitch_phase GR_RAD_model atan2_octant peak 1 st0))))
     = true
  /\ (PrimFloat.abs
        (result_pa.pa (res (snd (pitch_phase GR_RAD_model atan2_octant peak 1 st0))))
      <=? 90.0)%float = true.
Proof.
  assert (H1 : 0 <= 1) by lia.
  assert (H2 : exists i, LO_INDEX <= i <= HI_INDEX /\ i <> 1025
                         /\ (-255.0 <? fft_out.abs (peak i))%float = true).
  { exists 1000. split; [unfold LO_INDEX, HI_INDEX; lia | ].
    split; [lia | reflexivity]. }
  assert (H3 : not_nan
                 (result_pa.freq
                    (res (snd (pitch_phase GR_RAD_model atan2_octant peak 1 st0))))
               = true)
    by (vm_compute; reflexivity).
  split; [exact atan2_octant_range | ]. split; [exact H1 | ].
  split; [exact H2 | ].
  pose proof (pitch_phase_success GR_RAD_model atan2_octant atan2_octant_range
                peak 1 st0 H1 H2) as [A [_ [_ [_ [B _]]]]].
  split; [exact A | ]. split; [exact H3 | exact (B H3)].
Defined.

(** The pitch angle stored for the sample peak at mode 1: the frequency
    label of every bin is 1, the point (1, 1) lies on a diagonal and the
    angle is 45 degrees, up to the rounding of [GR_RAD]. *)
Example pitch_phase_peak :
  let pa := result_pa.pa
              (res (snd (pitch_phase GR_RAD_model atan2_octant peak 1 st0))) in
  (44.999 <? pa)%float = true /\ (pa <? 45.001)%float = true.
Proof. vm_compute. split; reflexivity. Qed.

(** C4 as stated fails: a window whose only valid bin is slot 1025. *)
Lemma valid_bin_without_success :
  (exists j, LO_INDEX <= j <= HI_INDEX /\ valid_at only_mid_slot j = true)
  /\ fst (pitch_phase GR_RAD_model atan2_model only_mid_slot 2 st0) <> PITCH_RET_OK.
Proof.
  split.
  - exists 1025. split; [unfold LO_INDEX, HI_INDEX; lia | reflexivity].
  - vm_compute. discriminate.
Qed.

(** * [fwhm] *)

Section Fwhm.

Variable fft : fft_array.
Variable limit : double.

Lemma scan_hi_spec (n : nat) :
  forall i, n = Z.to_nat (HI_INDEX + 1 - i) ->
    (no_crossing_up fft limit (i - 1) /\ scan_hi fft limit n i = 0)
    \/ (exists j, first_below_up fft limit (i - 1) j
                  /\ scan_hi fft limit n i = j - 1).
Proof.
  induction n as [ | n IH]; intros i Hn.
  - left. split; [ | reflexivity]. intros k Hk. lia.
  - cbn [scan_hi]. fold (below fft limit i).
    assert (Hi : i <= HI_INDEX) by lia.
    apply Z.leb_le in Hi. rewrite Hi. apply Z.leb_le in Hi.
    destruct (below fft limit i) eqn:B.
    + right. exists i. split; [ | reflexivity].
      split; [lia | ]. split; [exact B | ]. intros k Hk. lia.
    + destruct (IH (i + 1)) as [[N E] | [j [[Hj [Bj F]] E]]]; [lia | | ].
      * left. split; [ | exact E]. intros k Hk.
        destruct (Z.eq_dec k i) as [-> | ]; [exact B | apply N; lia].
      * right. exists j. split; [ | exact E].
        split; [lia | ]. split; [exact Bj | ]. intros k Hk.
        destruct (Z.eq_dec k i) as [-> | ]; [exact B | apply F; lia].
Qed.

Lemma scan_lo_spec (n : nat) :
  forall i, n = Z.to_nat (i + 1 - LO_INDEX) ->
    (no_crossing_down fft limit (i + 1) /\ scan_lo fft limit n i = 0)
    \/ (exists j, first_below_down fft limit (i + 1) j
                  /\ scan_lo fft limit n i = j + 1).
Proof.
  induction n as [ | n IH]; intros i Hn.
  - left. split; [ | reflexivity]. intros k Hk. lia.
  - cbn [scan_lo]. fold (below fft limit i).
    assert (Hi : LO_INDEX <= i) by lia.
    apply Z.leb_le in Hi. rewrite Hi. apply Z.leb_le in Hi.
    destruct (below fft limit i) eqn:B.
    + right. exists i. split; [ | reflexivity].
      split; [lia | ]. split; [exact B | ]. intros k Hk. lia.
    + destruct (IH (i - 1)) as [[N E] | [j [[Hj [Bj F]] E]]]; [lia | | ].
      * left. split; [ | exact E]. intros k Hk.
        destruct (Z.eq_dec k i) as [-> | ]; [exact B | apply N; lia].
      * right. exists j. split; [ | exact E].
        split; [lia | ]. split; [exact Bj | ]. intros k Hk.
        destruct (Z.eq_dec k i) as [-> | ]; [exact B | apply F; lia].
Qed.

End Fwhm.





(** On the sample peak the magnitude drops below the limit 5.5 at the
    slots 1002 and 998, and the width is 3 bins. *)
Example fwhm_peak :
  fwhm peak st_peak
  = (PITCH_RET_OK, upd_res (result_pa.set_fwhm 3%float) st_peak).
Proof. vm_compute. reflexivity. Qed.

(** * [snr] against its description *)




Lemma fold_left_ext {A : Type} (f g : A -> Z -> A) :
  (forall a j, f a j = g a j) ->
  forall (l : list Z) (s : A), fold_left f l s = fold_left g l s.
Proof.
  intros H. induction l as [ | x l IH]; intros s; simpl; [reflexivity | ].
  rewrite H. apply IH.
Qed.

Lemma range_length (n : nat) : forall i, length (range n i) = n.
Proof. induction n; intros i; simpl; auto. Qed.









Section SnrProof.

Variable pow : double -> double -> double.
Variable fft : fft_array.




End SnrProof.


(** The three stages on the sample peak: all succeed, the mean is 421/402
    and the width 3 bins. *)
Example extract_peak :
  snd (extract GR_RAD_model atan2_model pow_model peak 2 st0)
  = [(Pitch_phase, PITCH_RET_OK); (Snr, PITCH_RET_OK); (Fwhm, PITCH_RET_OK)]
  /\ result_pa.fwhm (res (fst (extract GR_RAD_model atan2_model pow_model peak 2 st0)))
     = 3%float
  /\ result_pa.avg_amp
       (res (fst (extract GR_RAD_model atan2_model pow_model peak 2 st0)))
     = (421 / 402)%float.
Proof. vm_compute. repeat split. Qed.

(** * The frequency remap *)

Section RemapProof.

Variable DIM_RAD : Z.
Variable pow : double -> double -> double.
Variable out_data : Z -> fftw_complex.
Variable mode : Z.
Variable d : fft_array.

(** [DIM_RAD] is even and positive (2048 in the table above the remap
    loops): [DIM_RAD = 2 h]. *)
Variable h : Z.
Hypothesis h_pos : 0 < h.
Hypothesis DIM_RAD_even : DIM_RAD = 2 * h.

Lemma half : Z.quot DIM_RAD 2 = h.
Proof. rewrite DIM_RAD_even. rewrite Z.mul_comm. apply Z.quot_mul. lia. Qed.

Ltac zbool :=
  repeat match goal with
    | |- context [?a <=? ?b] => destruct (Z.leb_spec a b)
    | |- context [?a <? ?b] => destruct (Z.ltb_spec a b)
    | |- context [?a =? ?b] => destruct (Z.eqb_spec a b)
    end; simpl; try reflexivity; try lia.

Lemma first_loop :
  after_first DIM_RAD pow out_data mode d h h
    (for_incl 0 (h - 1) (remap_body DIM_RAD pow out_data)
       (mk_remap d (mode * DIM_RAD))).
Proof.
  replace h with (h - 1 + 1) at 2 by lia.
  apply (for_incl_inv (after_first DIM_RAD pow out_data mode d h)); [lia | | ].
  - split; [simpl; lia | ]. intros k. simpl. zbool.
  - intros j t Hj [C F]. unfold remap_body. rewrite half. split.
    + simpl. lia.
    + intros k. cbn [fft_data]. unfold upd. rewrite F, C.
      destruct (Z.eqb_spec k (j + h + 1)) as [-> | Hne].
      * replace ((h + 1 <=? j + h + 1) && (j + h + 1 <? h + 1 + j)) with false
          by (symmetry; apply andb_false_iff; right; apply Z.ltb_ge; lia).
        replace ((h + 1 <=? j + h + 1) && (j + h + 1 <? h + 1 + (j + 1))) with true
          by (symmetry; apply andb_true_iff; rewrite Z.leb_le, Z.ltb_lt; lia).
        f_equal. f_equal. lia.
      * zbool.
Qed.

Lemma wrap_point (s : remap_state) :
  after_first DIM_RAD pow out_data mode d h h s ->
  after_second DIM_RAD pow out_data mode d h (- h + 1)
    (remap_wrap DIM_RAD pow out_data s).
Proof.
  intros [C F]. unfold remap_wrap. split.
  - simpl. lia.
  - intros k. cbn [fft_data]. unfold upd, wrapped. rewrite F, C.
    zbool; subst; try lia.
Qed.

Lemma second_loop (s : remap_state) :
  after_second DIM_RAD pow out_data mode d h (- h + 1) s ->
  after_second DIM_RAD pow out_data mode d h 0
    (for_incl (- h + 1) (-1) (remap_body DIM_RAD pow out_data) s).
Proof.
  intros H. change 0 with (-1 + 1).
  apply (for_incl_inv (after_second DIM_RAD pow out_data mode d h));
    [lia | exact H | ].
  intros j t Hj [C F]. unfold remap_body. rewrite half. split.
  - simpl. lia.
  - intros k. cbn [fft_data]. unfold upd. rewrite F, C.
    destruct (Z.eqb_spec k (j + h + 1)) as [-> | Hne].
    + replace ((2 <=? j + h + 1) && (j + h + 1 <? h + 1 + j)) with false
        by (symmetry; apply andb_false_iff; right; apply Z.ltb_ge; lia).
      replace ((2 <=? j + h + 1) && (j + h + 1 <? h + 1 + (j + 1))) with true
        by (symmetry; apply andb_true_iff; rewrite Z.leb_le, Z.ltb_lt; lia).
      unfold wrapped.
      replace ((h + 1 <=? j + h + 1) && (j + h + 1 <=? DIM_RAD)) with false
        by (symmetry; apply andb_false_iff; left; apply Z.leb_gt; lia).
      replace (j + h + 1 =? DIM_RAD + 1) with false
        by (symmetry; apply Z.eqb_neq; lia).
      replace (j + h + 1 =? 1) with false
        by (symmetry; apply Z.eqb_neq; lia).
      f_equal. f_equal. lia.
    + zbool.
Qed.

(** The remap leaves [remapped] in the buffer. *)
Lemma remap_slots (k : Z) :
  fft_data (remap DIM_RAD pow out_data mode d) k
  = remapped DIM_RAD pow out_data mode d h k.
Proof.
  unfold remap. rewrite half.
  replace ((-1) * h + 1) with (- h + 1) by lia.
  destruct (second_loop _ (wrap_point _ first_loop)) as [_ F].
  rewrite F. unfold remapped. zbool.
Qed.

Lemma remap_counter :
  counter (remap DIM_RAD pow out_data mode d) = mode * DIM_RAD + DIM_RAD.
Proof.
  unfold remap. rewrite half.
  replace ((-1) * h + 1) with (- h + 1) by lia.
  destruct (second_loop _ (wrap_point _ first_loop)) as [C _].
  rewrite C. lia.
Qed.

Lemma store_bin_holds (c : fftw_complex) (r : fft_out.t) :
  holds_bin pow (store_bin pow c r) c.
Proof. repeat split. Qed.

Ltac slot_cases :=
  rewrite remap_slots; unfold remapped, wrapped;
  repeat match goal with
    | |- context [?a <=? ?b] => destruct (Z.leb_spec a b)
    | |- context [?a =? ?b] => destruct (Z.eqb_spec a b)
    end; simpl; try lia; try reflexivity.

Lemma remap_upper (k : Z) :
  h + 1 <= k <= DIM_RAD ->
  fft_data (remap DIM_RAD pow out_data mode d) k
  = store_bin pow (out_data (mode * DIM_RAD + (k - h - 1))) (d k).
Proof. intros Hk. slot_cases. do 2 f_equal. lia. Qed.

Lemma remap_lower (k : Z) :
  2 <= k <= h ->
  fft_data (remap DIM_RAD pow out_data mode d) k
  = store_bin pow (out_data (mode * DIM_RAD + (h + k - 1))) (d k).
Proof. intros Hk. slot_cases. do 2 f_equal. lia. Qed.

Lemma remap_end :
  fft_data (remap DIM_RAD pow out_data mode d) (DIM_RAD + 1)
  = store_bin pow (out_data (mode * DIM_RAD + h)) (d (DIM_RAD + 1)).
Proof. slot_cases. Qed.

Lemma remap_start :
  fft_data (remap DIM_RAD pow out_data mode d) 1
  = fft_out.set_abs (magnitude pow (out_data (mode * DIM_RAD + h))) (d 1).
Proof. slot_cases. Qed.

Lemma remap_outside (k : Z) :
  k < 1 \/ DIM_RAD + 1 < k ->
  fft_data (remap DIM_RAD pow out_data mode d) k = d k.
Proof. intros Hk. slot_cases. Qed.

(** C3.  With [N = DIM_RAD = 2 h], the remap of the slice of [mode], which
    starts at [mode * N] in the native output: bin 0 lands in the mid slot
    [h + 1]; bins [1 .. h - 1] in the slots that follow it, in order; bin
    [h], the wrap point, has its magnitude written to slot 1, the start of
    the frequency axis, and is also written to slot [N + 1]; bins
    [h + 1 .. N - 1] land in slots [2 .. h], in order.  Each imaginary
    part written is [-1.0] times the native one. *)
Theorem remap_layout :
  let D := fft_data (remap DIM_RAD pow out_data mode d) in
  let bin := fun b => out_data (mode * DIM_RAD + b) in
  holds_bin pow (D (h + 1)) (bin 0)
  /\ (forall b, 1 <= b <= h - 1 -> holds_bin pow (D (h + 1 + b)) (bin b))
  /\ (fft_out.abs (D 1) = magnitude pow (bin h)
      /\ holds_bin pow (D (DIM_RAD + 1)) (bin h))
  /\ (forall b, h + 1 <= b <= DIM_RAD - 1 ->
        2 <= b - h + 1 <= h /\ holds_bin pow (D (b - h + 1)) (bin b)).
Proof.
  cbv zeta.
  split; [ | split; [ | split; [split | ]]].
  - rewrite remap_upper by lia.
    replace (h + 1 - h - 1) with 0 by lia. apply store_bin_holds.
  - intros b Hb. rewrite remap_upper by lia.
    replace (h + 1 + b - h - 1) with b by lia. apply store_bin_holds.
  - rewrite remap_start. reflexivity.
  - rewrite remap_end. apply store_bin_holds.
  - intros b Hb. split; [lia | ]. rewrite remap_lower by lia.
    replace (h + (b - h + 1) - 1) with b by lia. apply store_bin_holds.
Qed.

(** C9.  The remap writes a real and an imaginary part into the slots
    [2 .. DIM_RAD + 1] and into no other slot; slot 1 receives the
    magnitude of the wrap-point bin alone, and keeps the real and
    imaginary parts the buffer [d] held before. *)
Theorem remap_frame :
  let D := fft_data (remap DIM_RAD pow out_data mode d) in
  let bin := fun b => out_data (mode * DIM_RAD + b) in
  (forall k, 2 <= k <= DIM_RAD + 1 ->
     exists b, 0 <= b < DIM_RAD /\ holds_bin pow (D k) (bin b))
  /\ (forall k, ~ 2 <= k <= DIM_RAD + 1 ->
        fft_out.real (D k) = fft_out.real (d k)
        /\ fft_out.imag (D k) = fft_out.imag (d k))
  /\ fft_out.abs (D 1) = magnitude pow (bin h)
  /\ fft_out.real (D 1) = fft_out.real (d 1)
  /\ fft_out.imag (D 1) = fft_out.imag (d 1).
Proof.
  cbv zeta.
  split; [ | split; [ | split; [ | split]]].
  - intros k Hk.
    destruct (Z_le_gt_dec k h); [ | destruct (Z_le_gt_dec k DIM_RAD)].
    + exists (h + k - 1). split; [lia | ].
      rewrite remap_lower by lia. apply store_bin_holds.
    + exists (k - h - 1). split; [lia | ].
      rewrite remap_upper by lia. apply store_bin_holds.
    + exists h. split; [lia | ].
      replace k with (DIM_RAD + 1) by lia.
      rewrite remap_end. apply store_bin_holds.
  - intros k Hk. destruct (Z.eq_dec k 1) as [-> | Hne].
    + rewrite remap_start. split; reflexivity.
    + rewrite remap_outside by lia. split; reflexivity.
  - rewrite remap_start. reflexivity.
  - rewrite remap_start. reflexivity.
  - rewrite remap_start. reflexivity.
Qed.

(** Every magnitude the remap leaves in the slots [1 .. DIM_RAD + 1] is a
    square root of libm. *)
Lemma remap_abs (k : Z) :
  1 <= k <= DIM_RAD + 1 ->
  exists c, fft_out.abs (fft_data (remap DIM_RAD pow out_data mode d) k)
            = magnitude pow c.
Proof.
  intros Hk. destruct (Z.eq_dec k 1) as [-> | Hne].
  - rewrite remap_start. eexists. reflexivity.
  - destruct (Z_le_gt_dec k h); [ | destruct (Z_le_gt_dec k DIM_RAD)].
    + rewrite remap_lower by lia. eexists. reflexivity.
    + rewrite remap_upper by lia. eexists. reflexivity.
    + replace k with (DIM_RAD + 1) by lia. rewrite remap_end.
      eexists. reflexivity.
Qed.

End RemapProof.

Lemma remap_layout_witness :
  0 < 4 /\ 8 = 2 * 4
  /\ holds_bin pow_model (fft_data (remap 8 pow_model out8 1 blank) 5) (out8 8)
  /\ fft_out.abs (fft_data (remap 8 pow_model out8 1 blank) 1)
     = magnitude pow_model (out8 12).
Proof.
  assert (H1 : 0 < 4) by lia. assert (H2 : 8 = 2 * 4) by lia.
  split; [exact H1 | ]. split; [exact H2 | ].
  pose proof (remap_layout 8 pow_model out8 1 blank 4 H1 H2) as [A [_ [[B _] _]]].
  split; [exact A | exact B].
Defined.

Lemma remap_frame_witness :
  0 < 4 /\ 8 = 2 * 4
  /\ fft_out.real (fft_data (remap 8 pow_model out8 1 peak) 1)
     = fft_out.real (peak 1)
  /\ fft_out.imag (fft_data (remap 8 pow_model out8 1 peak) 1)
     = fft_out.imag (peak 1).
Proof.
  assert (H1 : 0 < 4) by lia. assert (H2 : 8 = 2 * 4) by lia.
  split; [exact H1 | ]. split; [exact H2 | ].
  pose proof (remap_frame 8 pow_model out8 1 peak 4 H1 H2) as [_ [_ [_ [A B]]]].
  split; [exact A | exact B].
Defined.

(** The remap of mode 1 over eight bins: slot 1 keeps the real part 1 the
    buffer held and takes the magnitude of bin 4 of the slice. *)
Example remap_slot_1 :
  fft_data (remap 8 pow_model out8 1 peak) 1
  = fft_out.mk 1%float 0%float (magnitude pow_model (12%float, 1%float)) 1%float.
Proof. vm_compute. reflexivity. Qed.

(** * Frequency labels, high pass and the summed spectrum *)

Lemma upd2_same (a : sum_array) (m k : Z) (f : fft_out.t -> fft_out.t) :
  upd2 a m k f m k = f (a m k).
Proof. unfold upd2, upd. rewrite !Z.eqb_refl. reflexivity. Qed.

Lemma upd2_other (a : sum_array) (m k m' k' : Z) (f : fft_out.t -> fft_out.t) :
  m' <> m \/ k' <> k -> upd2 a m k f m' k' = a m' k'.
Proof.
  intros H. unfold upd2, upd.
  destruct (Z.eqb_spec m' m); [ | reflexivity].
  destruct (Z.eqb_spec k' k); [ | reflexivity]. lia.
Qed.

Lemma upd_same {A : Type} (a : Z -> A) (k : Z) (f : A -> A) :
  upd a k f k = f (a k).
Proof. unfold upd. rewrite Z.eqb_refl. reflexivity. Qed.

Lemma upd_other {A : Type} (a : Z -> A) (k j : Z) (f : A -> A) :
  j <> k -> upd a k f j = a j.
Proof. intros H. unfold upd. destruct (Z.eqb_spec j k); [lia | reflexivity]. Qed.

Section SumProof.

Variables lim M_INI M_FIN : Z.

Lemma sum_add_ok (sum : sum_array) (mode p : Z) (v : double) :
  sum_ok lim M_INI M_FIN sum -> magnitude_like v ->
  sum_ok lim M_INI M_FIN (sum_add sum mode p v).
Proof.
  intros H Hv. unfold sum_add. destruct (not_nan v) eqn:V; [ | exact H].
  intros m i Hm Hi.
  destruct (Z.eq_dec m mode) as [-> | ]; [destruct (Z.eq_dec i p) as [-> | ] | ].
  - rewrite upd2_same. simpl. apply add_nonneg; [apply H | apply Hv]; auto.
  - rewrite upd2_other by auto. apply H; auto.
  - rewrite upd2_other by auto. apply H; auto.
Qed.

(** The reset leaves 0.0 in every entry it covers. *)
Lemma reset_sum_zero (sum : sum_array) :
  forall m k, M_INI <= m <= M_FIN -> 0 <= k < lim ->
    fft_out.abs (reset_sum lim M_INI M_FIN sum m k) = 0.0%float.
Proof.
  intros m k Hm Hk. unfold reset_sum.
  assert (H : forall m k, M_INI <= m <= M_FIN -> 0 <= k < lim - 1 + 1 ->
            fft_out.abs
              (for_incl 0 (lim - 1)
                 (fun i s => for_incl M_INI M_FIN
                    (fun j s => upd2 s j i (fft_out.set_abs 0.0%float)) s)
                 sum m k) = 0.0%float); [ | apply H; lia].
  apply (for_incl_inv
           (fun i s => forall m k, M_INI <= m <= M_FIN -> 0 <= k < i ->
              fft_out.abs (s m k) = 0.0%float)); [lia | intros; lia | ].
  clear m k Hm Hk. intros i s Hi Hs m k Hm Hk.
  assert (H : forall m k, M_INI <= m <= M_FIN ->
            0 <= k < i \/ (k = i /\ m < M_FIN + 1) ->
            fft_out.abs
              (for_incl M_INI M_FIN
                 (fun j s => upd2 s j i (fft_out.set_abs 0.0%float)) s m k)
            = 0.0%float); [ | apply H; lia].
  apply (for_incl_inv
           (fun j s => forall m k, M_INI <= m <= M_FIN ->
              0 <= k < i \/ (k = i /\ m < j) ->
              fft_out.abs (s m k) = 0.0%float)); [lia | | ].
  - intros m' k' Hm' [Hk' | Hk']; [apply Hs; assumption | lia].
  - intros j t Hj Ht m' k' Hm' Hk'.
    destruct (Z.eq_dec m' j) as [-> | ]; [destruct (Z.eq_dec k' i) as [-> | ] | ].
    + rewrite upd2_same. reflexivity.
    + rewrite upd2_other by auto. apply Ht; [assumption | lia].
    + rewrite upd2_other by auto. apply Ht; [assumption | lia].
Qed.

Lemma reset_sum_ok (sum : sum_array) :
  sum_ok lim M_INI M_FIN (reset_sum lim M_INI M_FIN sum).
Proof.
  intros m i Hm Hi. rewrite reset_sum_zero by assumption. reflexivity.
Qed.

End SumProof.

Section LabelProof.

Variable DIM_RAD : Z.
Variable pow : double -> double -> double.
Variable STEP_P FREQ_START FREQ_END : double.
Variable to_float : double -> double.
Variable high_pass : Z.

Hypothesis DIM_RAD_nonneg : 0 <= DIM_RAD.

Lemma label_loop_inv (mode : Z) (d : fft_array) (sum : sum_array)
  (lim M_INI M_FIN : Z) :
  label_inv DIM_RAD STEP_P FREQ_START FREQ_END to_float high_pass
    mode d sum lim M_INI M_FIN (DIM_RAD + 1 + 1)
    (label_loop DIM_RAD STEP_P FREQ_START FREQ_END to_float high_pass
       mode d sum).
Proof.
  unfold label_loop.
  apply (for_incl_inv
           (label_inv DIM_RAD STEP_P FREQ_START FREQ_END to_float high_pass
              mode d sum lim M_INI M_FIN)); [lia | | ].
  - split; [auto | ]. intros k. simpl.
    destruct (Z.leb_spec 1 k), (Z.ltb_spec k 1); simpl; try reflexivity; lia.
  - intros j t Hj [S F].
    assert (E : forall k, k <> j -> (k <? j + 1) = (k <? j)).
    { intros k Hne.
      destruct (Z.ltb_spec k j), (Z.ltb_spec k (j + 1)); try reflexivity; lia. }
    assert (Ej : (1 <=? j) && (j <? j) = false)
      by (apply andb_false_iff; right; apply Z.ltb_ge; lia).
    assert (Ej' : (1 <=? j) && (j <? j + 1) = true)
      by (apply andb_true_iff; rewrite Z.leb_le, Z.ltb_lt; lia).
    unfold label_body.
    destruct (in_bounds FREQ_START FREQ_END (freq_save DIM_RAD STEP_P to_float j))
      eqn:B.
    + split.
      * intros Hd Hs. cbn [l_sum]. apply sum_add_ok; [exact (S Hd Hs) | ].
        rewrite F, Ej. apply Hd. lia.
      * intros k. cbn [l_data].
        destruct (Z.eq_dec k j) as [-> | Hne].
        -- rewrite upd_same, upd_same, F, B, Ej, Ej'. reflexivity.
        -- rewrite !upd_other by exact Hne. rewrite F, (E k Hne). reflexivity.
    + split; [exact S | ]. intros k. rewrite F.
      destruct (Z.eq_dec k j) as [-> | Hne].
      * rewrite B, !andb_false_r. reflexivity.
      * rewrite (E k Hne). reflexivity.
Qed.

Lemma label_loop_data (mode : Z) (d : fft_array) (sum : sum_array) (k : Z) :
  l_data (label_loop DIM_RAD STEP_P FREQ_START FREQ_END to_float high_pass
            mode d sum) k
  = if (1 <=? k) && (k <=? DIM_RAD + 1)
       && in_bounds FREQ_START FREQ_END (freq_save DIM_RAD STEP_P to_float k)
    then labelled DIM_RAD STEP_P to_float high_pass mode d k
    else d k.
Proof.
  destruct (label_loop_inv mode d sum 0 0 0) as [_ F]. rewrite F.
  replace (k <? DIM_RAD + 1 + 1) with (k <=? DIM_RAD + 1); [reflexivity | ].
  destruct (Z.leb_spec k (DIM_RAD + 1)), (Z.ltb_spec k (DIM_RAD + 1 + 1));
    try reflexivity; lia.
Qed.

Lemma label_loop_sum (mode : Z) (d : fft_array) (sum : sum_array)
  (lim M_INI M_FIN : Z) :
  (forall k, 1 <= k <= DIM_RAD + 1 -> magnitude_like (fft_out.abs (d k))) ->
  sum_ok lim M_INI M_FIN sum ->
  sum_ok lim M_INI M_FIN
    (l_sum (label_loop DIM_RAD STEP_P FREQ_START FREQ_END to_float high_pass
              mode d sum)).
Proof. apply label_loop_inv. Qed.

(** C8.  The suppression step zeroes the magnitude, the real and the
    imaginary part of a bin exactly when high pass is enabled and the
    frequency of the bin is strictly between [-0.25 * mode] and
    [0.25 * mode]; it never touches the frequency field, and it leaves the
    bin as it is in every other case.  The labelling loop applies the step
    once to every slot it labels. *)
Theorem high_pass_suppression (mode : Z) :
  let m := to_float (double_of_int mode) in
  (forall (f : double) (r : fft_out.t),
     let r' := high_pass_bin to_float high_pass mode f r in
     fft_out.freq r' = fft_out.freq r
     /\ (high_pass <> 0 -> (f <? m * 0.25)%float = true ->
         (m * (-0.25) <? f)%float = true ->
         fft_out.abs r' = 0.0%float /\ fft_out.real r' = 0.0%float
         /\ fft_out.imag r' = 0.0%float)
     /\ (high_pass = 0 \/ (f <? m * 0.25)%float = false
         \/ (m * (-0.25) <? f)%float = false ->
         r' = r))
  /\ (forall (d : fft_array) (sum : sum_array) (k : Z),
        1 <= k <= DIM_RAD + 1 ->
        in_bounds FREQ_START FREQ_END (freq_save DIM_RAD STEP_P to_float k) = true ->
        l_data (label_loop DIM_RAD STEP_P FREQ_START FREQ_END to_float
                  high_pass mode d sum) k
        = high_pass_bin to_float high_pass mode
            (freq_save DIM_RAD STEP_P to_float k)
            (fft_out.set_freq (freq_save DIM_RAD STEP_P to_float k) (d k))).
Proof.
  intros m. split.
  - intros f r r'. unfold r', high_pass_bin, in_high_pass_band. fold m.
    split; [ | split].
    + destruct (_ && _); reflexivity.
    + intros Hh H1 H2. rewrite H1, H2.
      replace (high_pass =? 0) with false by (symmetry; apply Z.eqb_neq; exact Hh).
      simpl. repeat split.
    + intros [-> | [H | H]].
      * reflexivity.
      * rewrite H, andb_false_r. reflexivity.
      * rewrite H, andb_false_r. reflexivity.
  - intros d sum k Hk B. rewrite label_loop_data, B.
    replace ((1 <=? k) && (k <=? DIM_RAD + 1)) with true
      by (symmetry; apply andb_true_iff; rewrite !Z.leb_le; lia).
    reflexivity.
Qed.

End LabelProof.

Section SpectrumProof.

Variable DIM_RAD : Z.
Variable pow : double -> double -> double.
Variable STEP_P FREQ_START FREQ_END : double.
Variable to_float : double -> double.
Variable high_pass : Z.
Variables lim M_INI M_FIN : Z.

Variable h : Z.
Hypothesis h_pos : 0 < h.
Hypothesis DIM_RAD_even : DIM_RAD = 2 * h.

Lemma contribute_ok (sum : sum_array) (w : Z * (Z -> fftw_complex) * fft_array) :
  sum_ok lim M_INI M_FIN sum ->
  sum_ok lim M_INI M_FIN
    (contribute DIM_RAD pow STEP_P FREQ_START FREQ_END to_float high_pass sum w).
Proof.
  intros Hs. destruct w as [[mode out_data] d]. unfold contribute.
  apply label_loop_sum; [lia | | exact Hs].
  intros k Hk.
  destruct (remap_abs DIM_RAD pow out_data mode d h h_pos DIM_RAD_even k Hk)
    as [c ->].
  unfold magnitude_like, magnitude. apply sqrt_nonneg.
Qed.

Lemma contributions_ok (works : list (Z * (Z -> fftw_complex) * fft_array)) :
  forall sum, sum_ok lim M_INI M_FIN sum ->
    sum_ok lim M_INI M_FIN
      (fold_left
         (contribute DIM_RAD pow STEP_P FREQ_START FREQ_END to_float high_pass)
         works sum).
Proof.
  induction works as [ | w works IH]; intros sum Hs; simpl; [exact Hs | ].
  apply IH, contribute_ok, Hs.
Qed.

(** Critical sections of several workers interleave: whatever the order
    of the guarded additions of remapped magnitudes, the invariant
    holds. *)
Lemma additions_ok (adds : list (Z * Z * fftw_complex)) :
  forall sum, sum_ok lim M_INI M_FIN sum ->
    sum_ok lim M_INI M_FIN
      (fold_left
         (fun s a => sum_add s (fst (fst a)) (snd (fst a)) (magnitude pow (snd a)))
         adds sum).
Proof.
  induction adds as [ | a adds IH]; intros sum Hs; simpl; [exact Hs | ].
  apply IH, sum_add_ok; [exact Hs | ].
  unfold magnitude_like, magnitude. apply sqrt_nonneg.
Qed.

(** C10.  A magnitude that is NaN is not added to the summed spectrum.
    From the per-file reset on, whatever (mode, radius) contributions
    follow and in whatever order, every entry of the summed spectrum that
    the reset covers is not NaN; the same holds after any sequence of
    single guarded additions of remapped magnitudes. *)
Theorem summed_spectrum_never_nan
  (sum0 : sum_array) (works : list (Z * (Z -> fftw_complex) * fft_array))
  (adds : list (Z * Z * fftw_complex)) :
  (forall sum mode p v, not_nan v = false -> sum_add sum mode p v = sum)
  /\ (forall m i, M_INI <= m <= M_FIN -> 0 <= i < lim ->
        not_nan
          (fft_out.abs
             (fold_left
                (contribute DIM_RAD pow STEP_P FREQ_START FREQ_END to_float
                   high_pass)
                works (reset_sum lim M_INI M_FIN sum0) m i)) = true)
  /\ (forall m i, M_INI <= m <= M_FIN -> 0 <= i < lim ->
        not_nan
          (fft_out.abs
             (fold_left
                (fun s a => sum_add s (fst (fst a)) (snd (fst a))
                              (magnitude pow (snd a)))
                adds (reset_sum lim M_INI M_FIN sum0) m i)) = true).
Proof.
  split; [ | split].
  - intros sum mode p v V. unfold sum_add. rewrite V. reflexivity.
  - intros m i Hm Hi. apply nonneg_not_nan.
    apply contributions_ok; [apply reset_sum_ok | exact Hm | exact Hi].
  - intros m i Hm Hi. apply nonneg_not_nan.
    apply additions_ok; [apply reset_sum_ok | exact Hm | exact Hi].
Qed.

End SpectrumProof.

(** A frequency axis of step 0.25 over nine slots, bounds -1 and 1. *)
Lemma high_pass_suppression_witness :
  0 <= 8 /\ (1 : Z) <> 0
  /\ (0.25 <? (double_of_int 2) * 0.25)%float = true
  /\ ((double_of_int 2) * (-0.25) <? 0.25)%float = true
  /\ fft_out.abs (high_pass_bin (fun x => x) 1 2 0.25%float (peak 1000)) = 0.0%float.
Proof.
  assert (H0 : 0 <= 8) by lia.
  assert (H1 : (1 : Z) <> 0) by discriminate.
  assert (H2 : (0.25 <? (double_of_int 2) * 0.25)%float = true) by reflexivity.
  assert (H3 : ((double_of_int 2) * (-0.25) <? 0.25)%float = true) by reflexivity.
  split; [exact H0 | ]. split; [exact H1 | ]. split; [exact H2 | ].
  split; [exact H3 | ].
  pose proof (high_pass_suppression 8 0.25%float (-1)%float 1%float (fun x => x) 1 H0 2)
    as [A _].
  destruct (A 0.25%float (peak 1000)) as [_ [B _]].
  exact (proj1 (B H1 H2 H3)).
Defined.

Lemma summed_spectrum_never_nan_witness :
  0 < 4 /\ 8 = 2 * 4 /\ 0 <= 1 <= 2 /\ 0 <= 3 < 9
  /\ not_nan
       (fft_out.abs
          (fold_left
             (contribute 8 pow_model 0.25%float (-1)%float 1%float (fun x => x) 1)
             [(1, out8, peak); (2, out8, all_nan)]
             (reset_sum 9 0 2 (fun _ => all_nan)) 1 3)) = true.
Proof.
  assert (H1 : 0 < 4) by lia. assert (H2 : 8 = 2 * 4) by lia.
  assert (H3 : 0 <= 1 <= 2) by lia. assert (H4 : 0 <= 3 < 9) by lia.
  split; [exact H1 | ]. split; [exact H2 | ]. split; [exact H3 | ].
  split; [exact H4 | ].
  exact (proj1 (proj2
           (summed_spectrum_never_nan 8 pow_model 0.25%float (-1)%float 1%float
              (fun x => x) 1 9 0 2 4 H1 H2 (fun _ => all_nan)
              [(1, out8, peak); (2, out8, all_nan)] [])) 1 3 H3 H4).
Defined.

(** * The fixed-width annulus cutoff of the sampler *)

Section SamplerProof.

Variable log : double -> double.
Variable to_float : double -> double.

Lemma annulus_entry_locals (fl : flags) (items_radius radius : Z) (a : annulus) :
  annulus_entry log to_float fl items_radius radius = Some a ->
  log_lo a = None /\ log_hi a = None /\ log_rad a <> None.
Proof.
  unfold annulus_entry. destruct (_ && _); [discriminate | ].
  intros E. injection E as <-. cbn. repeat split. discriminate.
Qed.

(** C2 on the code.  The sample loop is entered with [log_lo] and [log_hi]
    never assigned.  No sample is zeroed by a fixed-width cutoff; with the
    fixed-width option active (and no earlier rule applying) the test of
    the first sample already reads the unassigned [log_hi]. *)
Theorem fixed_cutoff_reads_unassigned (fl : flags) (items_radius radius : Z)
  (a : annulus) (log_bar log_itrad : double) (count_theta : Z) (lnr : double) :
  annulus_entry log to_float fl items_radius radius = Some a ->
  (log_lo a = None /\ log_hi a = None)
  /\ sample_rule fl log_bar log_itrad a count_theta lnr <> Val (Zeroed Fixed_cutoff)
  /\ (fixed fl <> 0 -> zero fl = 0 -> mask_line fl = 0 -> reverse fl = 0 ->
      sample_rule fl log_bar log_itrad a count_theta lnr = Unassigned Log_hi).
Proof.
  intros E. destruct (annulus_entry_locals _ _ _ _ E) as [Hlo [Hhi Hrad]].
  split; [split; assumption | ].
  destruct a as [[lr | ] lo hi]; [ | cbn in Hrad; congruence].
  cbn in Hlo, Hhi. subst lo hi.
  split.
  - unfold sample_rule. cbn [log_rad log_lo log_hi read bind c_or c_and].
    destruct (negb (zero fl =? 0) && _); [discriminate | ].
    destruct (negb (mask_line fl =? 0) && _); [discriminate | ].
    destruct (reverse fl =? 0), (fixed fl =? 0), (lr <? lnr)%float,
      (log_itrad <? lnr)%float, (lnr <? lr)%float; cbn; discriminate.
  - intros Hf Hz Hm Hr. unfold sample_rule.
    rewrite Hz, Hm, Hr.
    replace (fixed fl =? 0) with false by (symmetry; apply Z.eqb_neq; exact Hf).
    reflexivity.
Qed.

End SamplerProof.

Lemma fixed_cutoff_reads_unassigned_witness :
  annulus_entry (fun x => x) (fun x => x) fixed_flags 100 20
  = Some (mk_annulus (Some 20%float) None None)
  /\ sample_rule fixed_flags 0%float 0x1.26bb1bbb55516p+2%float
       (mk_annulus (Some 20%float) None None) 2 0%float
     = Unassigned Log_hi.
Proof.
  assert (E : annulus_entry (fun x => x) (fun x => x) fixed_flags 100 20
              = Some (mk_annulus (Some 20%float) None None)) by reflexivity.
  split; [exact E | ].
  apply (fixed_cutoff_reads_unassigned (fun x => x) (fun x => x)
           fixed_flags 100 20 _ 0%float 0x1.26bb1bbb55516p+2%float 2 0%float E);
    [discriminate | reflexivity | reflexivity | reflexivity].
Defined.

(** * More on the order of binary64 *)

Lemma lex_cmp_Eq (e1 : Z) (m1 : positive) (e2 : Z) (m2 : positive) :
  lex_cmp e1 m1 e2 m2 = Eq <-> e1 = e2 /\ m1 = m2.
Proof.
  unfold lex_cmp. rewrite Pos.compare_cont_spec. cbn [Pos.switch_Eq].
  destruct (Z.compare_spec e1 e2) as [E | E | E].
  - destruct (Pos.compare_spec m1 m2) as [M | M | M]; split;
      try discriminate; try reflexivity; intros H; try subst;
      try (split; reflexivity); destruct H as [_ H]; subst; lia.
  - split; [discriminate | lia].
  - split; [discriminate | lia].
Qed.

Lemma SFltb_leb_trans (x y z : spec_float) :
  SFltb x y = true -> SFleb y z = true -> SFltb x z = true.
Proof.
  unfold SFltb, SFleb.
  destruct x as [sx | sx | | sx mx ex], y as [sy | sy | | sy my ey],
    z as [sz | sz | | sz mz ez];
    rewrite ?SFcompare_finite; cbn [SFcompare]; intros H1 H2;
    try discriminate H1; try discriminate H2; try reflexivity;
    try (destruct sx; (reflexivity || discriminate H1 || discriminate H2));
    try (destruct sy; (reflexivity || discriminate H1 || discriminate H2));
    try (destruct sz; (reflexivity || discriminate H1 || discriminate H2));
    try (destruct sx, sy; (reflexivity || discriminate H1 || discriminate H2));
    try (destruct sy, sz; (reflexivity || discriminate H1 || discriminate H2));
    try (destruct sx, sz; (reflexivity || discriminate H1 || discriminate H2));
    try (destruct sx, sy, sz;
         (reflexivity || discriminate H1 || discriminate H2)).
  destruct sx, sy, sz; try discriminate H1; try discriminate H2;
    try reflexivity; revert H1 H2.
  - destruct (lex_cmp ex mx ey my) eqn:A; cbn [CompOpp]; try discriminate.
    destruct (lex_cmp ey my ez mz) eqn:B; cbn [CompOpp]; try discriminate;
      intros _ _.
    + apply lex_cmp_Gt in A. apply lex_cmp_Eq in B.
      assert (C : lex_cmp ex mx ez mz = Gt) by (apply lex_cmp_Gt; destruct B; subst; lia).
      rewrite C. reflexivity.
    + apply lex_cmp_Gt in A, B.
      assert (C : lex_cmp ex mx ez mz = Gt) by (apply lex_cmp_Gt; lia).
      rewrite C. reflexivity.
  - destruct (lex_cmp ex mx ey my) eqn:A; try discriminate.
    destruct (lex_cmp ey my ez mz) eqn:B; try discriminate; intros _ _.
    + apply lex_cmp_Lt in A. apply lex_cmp_Eq in B.
      assert (C : lex_cmp ex mx ez mz = Lt) by (apply lex_cmp_Lt; destruct B; subst; lia).
      rewrite C. reflexivity.
    + apply lex_cmp_Lt in A, B.
      assert (C : lex_cmp ex mx ez mz = Lt) by (apply lex_cmp_Lt; lia).
      rewrite C. reflexivity.
Qed.

Lemma ltb_leb_trans (x y z : double) :
  (x <? y)%float = true -> (y <=? z)%float = true -> (x <? z)%float = true.
Proof. rewrite !ltb_spec, leb_spec. apply SFltb_leb_trans. Qed.

(** * [pitch_phase]: the outcomes and the first maximum *)

Section ScanFirst.

Variable fft : fft_array.

Lemma scan_first_init : scan_first fft scan_init.
Proof.
  split; [ | left; reflexivity].
  intros j Hj. cbn [index scan_init] in Hj. unfold LO_INDEX in Hj. lia.
Qed.

Lemma scan_first_step (i : Z) (s : scan) :
  LO_INDEX <= i -> scan_inv fft i s -> scan_first fft s ->
  scan_first fft (scan_body fft i s).
Proof.
  intros Hi [_ [Hmax Hx]] [Hf Ha]. unfold scan_first.
  rewrite scan_body_index, scan_body_a_max.
  destruct ((a_max s <? fft_out.abs (fft i))%float && negb (i =? 1025)) eqn:T.
  - apply andb_true_iff in T. destruct T as [T _]. split.
    + intros j Hj Hne.
      destruct (fft_out.abs (fft i) <=? fft_out.abs (fft j))%float eqn:G;
        [ | reflexivity].
      rewrite <- (Hmax j) by lia. symmetry. exact (ltb_leb_trans _ _ _ T G).
    + right. destruct Ha as [Ha | Ha]; [ | exact (ltb_trans _ _ _ Ha T)].
      destruct Hx as [[_ X] | [X _]]; [rewrite X in T; exact T | ].
      unfold LO_INDEX in X. lia.
  - split; assumption.
Qed.

Lemma scan_window_first :
  scan_inv fft (HI_INDEX + 1) (scan_window fft) /\ scan_first fft (scan_window fft).
Proof.
  unfold scan_window.
  apply (for_incl_inv (fun i s => scan_inv fft i s /\ scan_first fft s)).
  - unfold LO_INDEX, HI_INDEX. lia.
  - split; [apply scan_inv_init | apply scan_first_init].
  - intros j t Hj [A B]. split.
    + apply scan_inv_step; [lia | exact A].
    + apply scan_first_step with (i := j); [lia | exact A | exact B].
Qed.

(** The search stores an index exactly when some bin of the window other
    than slot 1025 is above the initial [a_max]. *)
Lemma scan_window_found :
  0 <= index (scan_window fft)
  <-> exists i, LO_INDEX <= i <= HI_INDEX /\ i <> 1025
                /\ (-255.0 <? fft_out.abs (fft i))%float = true.
Proof.
  destruct scan_window_first as [[_ [Hmax Hx]] [_ Ha]]. split.
  - intros H. destruct Hx as [[X _] | [X [Y M]]]; [lia | ].
    exists (index (scan_window fft)). split; [lia | ]. split; [exact Y | ].
    rewrite <- M. destruct Ha as [Ha | Ha]; [lia | exact Ha].
  - intros [i [Hi [Hne Hv]]].
    destruct Hx as [[X M] | [X _]]; [ | unfold LO_INDEX in X; lia].
    rewrite <- M, Hmax in Hv by lia. discriminate Hv.
Qed.

End ScanFirst.

Section PitchPhaseOutcomes.

Variable GR_RAD : double.
Variable atan2 : double -> double -> double.

(** X1.  [pitch_phase] returns [PITCH_RET_OK] exactly when some bin of the
    window other than slot 1025 has a magnitude above -255.  Otherwise it
    returns [PITCH_RET_NAN], never [PITCH_RET_ERR], and leaves the result
    record alone: with a window without any valid magnitude the error code is
    untouched as well, with a valid magnitude somewhere the error code is
    [PITCH_ERR_MAX_AMP]. *)
Theorem pitch_phase_outcomes (fft : fft_array) (mode : Z) (st : pitch_state) :
  let out := pitch_phase GR_RAD atan2 fft mode st in
  (fst out = PITCH_RET_OK
   <-> exists i, LO_INDEX <= i <= HI_INDEX /\ i <> 1025
                 /\ (-255.0 <? fft_out.abs (fft i))%float = true)
  /\ (fst out = PITCH_RET_OK \/ fst out = PITCH_RET_NAN)
  /\ fst out <> PITCH_RET_ERR
  /\ (fst out = PITCH_RET_OK -> pitch_errno (snd out) = pitch_errno st)
  /\ (fst out = PITCH_RET_NAN ->
      ((forall j, LO_INDEX <= j <= HI_INDEX -> valid_at fft j = false)
       /\ snd out = st)
      \/ ((exists j, LO_INDEX <= j <= HI_INDEX /\ valid_at fft j = true)
          /\ snd out = set_pitch_errno PITCH_ERR_MAX_AMP st)).
Proof.
  cbv zeta. pose proof (scan_window_found fft) as F.
  unfold pitch_phase.
  destruct (scan_window_nan fft) as [[N A] | [N V]]; rewrite N.
  - cbn [negb Z.eqb fst snd].
    split; [ | split; [ | split; [ | split]]].
    + split; [discriminate | ]. intros [i [Hi [_ Hv]]].
      apply ltb_not_nan_r in Hv. fold (valid_at fft i) in Hv.
      rewrite (A i Hi) in Hv. discriminate Hv.
    + right. reflexivity.
    + discriminate.
    + discriminate.
    + intros _. left. split; [exact A | reflexivity].
  - cbn [negb Z.eqb].
    destruct (index (scan_window fft) <? 0) eqn:X; cbn [fst snd].
    + apply Z.ltb_lt in X.
      split; [ | split; [ | split; [ | split]]].
      * split; [discriminate | ]. intros H. apply F in H. lia.
      * right. reflexivity.
      * discriminate.
      * discriminate.
      * intros _. right. split; [exact V | reflexivity].
    + apply Z.ltb_ge in X.
      split; [ | split; [ | split; [ | split]]].
      * split; [intros _; apply F; exact X | reflexivity].
      * left. reflexivity.
      * discriminate.
      * reflexivity.
      * discriminate.
Qed.

(** X2.  Of several bins that share the largest magnitude, [pitch_phase]
    stores the lowest slot: every bin of the window before the stored index,
    slot 1025 apart, is strictly below the stored amplitude or holds NaN. *)
Theorem pitch_phase_first_maximum (fft : fft_array) (mode : Z) (st : pitch_state) :
  fst (pitch_phase GR_RAD atan2 fft mode st) = PITCH_RET_OK ->
  let r := res (snd (pitch_phase GR_RAD atan2 fft mode st)) in
  forall j, LO_INDEX <= j < result_pa.index r -> j <> 1025 ->
    (result_pa.amp r <=? fft_out.abs (fft j))%float = false.
Proof.
  cbv zeta. unfold pitch_phase.
  destruct (scan_window_first fft) as [[_ [_ Hx]] [Hf _]].
  destruct (negb (nan (scan_window fft) =? 0)); [discriminate | ].
  destruct (index (scan_window fft) <? 0) eqn:X; [discriminate | ].
  intros _ j. cbn [fst snd res result_pa.index result_pa.amp
         result_pa.set_phase result_pa.set_pa
         result_pa.set_index result_pa.set_freq result_pa.set_amp].
  intros Hj Hne. apply Z.ltb_ge in X.
  destruct Hx as [[Y _] | [_ [_ M]]]; [lia | ].
  rewrite <- M. apply Hf; assumption.
Qed.

End PitchPhaseOutcomes.

Lemma pitch_phase_first_maximum_witness :
  fst (pitch_phase GR_RAD_model atan2_model twin_peaks 2 st0) = PITCH_RET_OK
  /\ result_pa.index (res (snd (pitch_phase GR_RAD_model atan2_model twin_peaks 2 st0)))
     = 900
  /\ (result_pa.amp (res (snd (pitch_phase GR_RAD_model atan2_model twin_peaks 2 st0)))
      <=? fft_out.abs (twin_peaks 899%Z))%float = false.
Proof.
  assert (H : fst (pitch_phase GR_RAD_model atan2_model twin_peaks 2 st0)
              = PITCH_RET_OK) by (vm_compute; reflexivity).
  split; [exact H | ]. split; [vm_compute; reflexivity | ].
  apply (pitch_phase_first_maximum GR_RAD_model atan2_model twin_peaks 2 st0 H).
  - vm_compute. split; [discriminate | reflexivity].
  - lia.
Defined.

Lemma div_by_zero (x : double) : is_finite (x / double_of_int 0)%float = false.
Proof.
  unfold is_finite. rewrite div_spec.
  change (Prim2SF (double_of_int 0)) with (S754_zero false).
  destruct (Prim2SF x) as [s | s | | s m e]; reflexivity.
Qed.

Section ModeZero.

Variable GR_RAD : double.
Variable atan2 : double -> double -> double.

(** X3.  For mode 0 the phase angle is a quotient by zero: whenever
    [pitch_phase] succeeds on mode 0, the phase it stores is NaN or
    infinite, whatever the bins hold. *)
Theorem pitch_phase_mode_zero (fft : fft_array) (st : pitch_state) :
  fst (pitch_phase GR_RAD atan2 fft 0 st) = PITCH_RET_OK ->
  is_finite (result_pa.phase (res (snd (pitch_phase GR_RAD atan2 fft 0 st))))
  = false.
Proof.
  unfold pitch_phase.
  destruct (negb (nan (scan_window fft) =? 0)); [discriminate | ].
  destruct (index (scan_window fft) <? 0); [discriminate | ].
  intros _. cbn [snd res result_pa.phase result_pa.set_phase].
  unfold phase_angle. apply div_by_zero.
Qed.

End ModeZero.

Lemma pitch_phase_mode_zero_witness :
  fst (pitch_phase GR_RAD_model atan2_model peak 0 st0) = PITCH_RET_OK
  /\ is_finite
       (result_pa.phase (res (snd (pitch_phase GR_RAD_model atan2_model peak 0 st0))))
     = false.
Proof.
  assert (H : fst (pitch_phase GR_RAD_model atan2_model peak 0 st0) = PITCH_RET_OK)
    by (vm_compute; reflexivity).
  split; [exact H | ].
  exact (pitch_phase_mode_zero GR_RAD_model atan2_model peak st0 H).
Defined.

(** * [fwhm]: the width and its bounds *)

(** [fwhm] on a cell whose index is inside the window: the two scans. *)
Lemma fwhm_inside (fft : fft_array) (st : pitch_state) :
  LO_INDEX <= result_pa.index (res st) <= HI_INDEX ->
  let i0 := result_pa.index (res st) in
  let hi := scan_hi fft (fwhm_limit (res st)) (Z.to_nat (HI_INDEX + 1 - (i0 + 1))) (i0 + 1) in
  let lo := scan_lo fft (fwhm_limit (res st)) (Z.to_nat (i0 - 1 + 1 - LO_INDEX)) (i0 - 1) in
  (hi = 0 \/ i0 <= hi < HI_INDEX) /\ (lo = 0 \/ LO_INDEX < lo <= i0)
  /\ fwhm fft st
     = if (hi =? 0) || (lo =? 0)
       then (PITCH_RET_ERR, set_pitch_errno PITCH_ERR_SCANFWHM st)
       else (PITCH_RET_OK, upd_res (result_pa.set_fwhm (double_of_int (hi - lo + 1))) st).
Proof.
  intros H i0 hi lo. split; [ | split].
  - destruct (scan_hi_spec fft (fwhm_limit (res st))
                (Z.to_nat (HI_INDEX + 1 - (i0 + 1))) (i0 + 1) eq_refl)
      as [[_ E] | [j [[Hj _] E]]]; fold hi in E; [left; exact E | right; lia].
  - destruct (scan_lo_spec fft (fwhm_limit (res st))
                (Z.to_nat (i0 - 1 + 1 - LO_INDEX)) (i0 - 1) eq_refl)
      as [[_ E] | [j [[Hj _] E]]]; fold lo in E; [left; exact E | right; lia].
  - unfold fwhm. fold i0.
    replace ((i0 <? LO_INDEX) || (HI_INDEX <? i0)) with false
      by (symmetry; apply orb_false_iff; rewrite !Z.ltb_ge; subst i0; lia).
    fold hi. fold lo. rewrite double_of_int_not_nan. reflexivity.
Qed.

(** X4.  [fwhm] never returns [PITCH_RET_NAN].  When it returns
    [PITCH_RET_OK] the error code is untouched and the stored width is the
    count of the bins from [lo] to [hi], with
    [LO_INDEX < lo <= index <= hi < HI_INDEX], a whole number from 1 to 401.
    When it returns [PITCH_RET_ERR] the result record is untouched and the
    error code is [PITCH_ERR_INVALID] or [PITCH_ERR_SCANFWHM]. *)
Theorem fwhm_outcomes (fft : fft_array) (st : pitch_state) :
  let out := fwhm fft st in
  (fst out = PITCH_RET_OK
   /\ pitch_errno (snd out) = pitch_errno st
   /\ exists hi lo,
        LO_INDEX < lo <= result_pa.index (res st)
        /\ result_pa.index (res st) <= hi < HI_INDEX
        /\ 1 <= hi - lo + 1 <= 401
        /\ res (snd out)
           = result_pa.set_fwhm (double_of_int (hi - lo + 1)) (res st))
  \/ (fst out = PITCH_RET_ERR
      /\ res (snd out) = res st
      /\ (pitch_errno (snd out) = PITCH_ERR_INVALID
          \/ pitch_errno (snd out) = PITCH_ERR_SCANFWHM)).
Proof.
  cbv zeta.
  destruct (Z.ltb_spec (result_pa.index (res st)) LO_INDEX) as [L | L].
  { right. unfold fwhm. apply Z.ltb_lt in L. rewrite L. cbn. auto. }
  destruct (Z.ltb_spec HI_INDEX (result_pa.index (res st))) as [G | G].
  { right. unfold fwhm. apply Z.ltb_lt in G. rewrite G, orb_true_r. cbn. auto. }
  destruct (fwhm_inside fft st (conj L G)) as [Hh [Hl E]]. rewrite E. clear E.
  destruct ((_ =? 0) || (_ =? 0)) eqn:T.
  - right. cbn. auto.
  - left. apply orb_false_iff in T. destruct T as [T1 T2].
    apply Z.eqb_neq in T1, T2.
    destruct Hh as [Hh | Hh]; [contradiction | ].
    destruct Hl as [Hl | Hl]; [contradiction | ].
    split; [reflexivity | ]. split; [reflexivity | ].
    eexists. eexists. split; [exact Hl | ]. split; [exact Hh | ].
    split; [unfold LO_INDEX, HI_INDEX in *; lia | reflexivity].
Qed.

(** X5.  A maximum at the first or the last slot of the window has no bin on
    one side to scan: [fwhm] returns [PITCH_RET_ERR] with
    [PITCH_ERR_SCANFWHM], whatever the magnitudes are. *)
Theorem fwhm_edge_peak (fft : fft_array) (st : pitch_state) :
  result_pa.index (res st) = LO_INDEX \/ result_pa.index (res st) = HI_INDEX ->
  fwhm fft st = (PITCH_RET_ERR, set_pitch_errno PITCH_ERR_SCANFWHM st).
Proof.
  intros H.
  assert (B : LO_INDEX <= result_pa.index (res st) <= HI_INDEX)
    by (unfold LO_INDEX, HI_INDEX in *; lia).
  destruct (fwhm_inside fft st B) as [_ [_ E]]. rewrite E. clear E.
  destruct H as [H | H]; rewrite H.
  - replace (Z.to_nat (LO_INDEX - 1 + 1 - LO_INDEX)) with O by lia.
    cbn [scan_lo Z.eqb]. rewrite orb_true_r. reflexivity.
  - replace (Z.to_nat (HI_INDEX + 1 - (HI_INDEX + 1))) with O by lia.
    reflexivity.
Qed.

Lemma fwhm_edge_peak_witness :
  (result_pa.index (res st_edge) = LO_INDEX
   \/ result_pa.index (res st_edge) = HI_INDEX)
  /\ fwhm peak st_edge = (PITCH_RET_ERR, set_pitch_errno PITCH_ERR_SCANFWHM st_edge).
Proof.
  assert (H : result_pa.index (res st_edge) = LO_INDEX
              \/ result_pa.index (res st_edge) = HI_INDEX)
    by (right; reflexivity).
  split; [exact H | exact (fwhm_edge_peak peak st_edge H)].
Defined.

(** * The extractor reads the window only *)

Lemma for_loop_ext {A : Type} (f g : Z -> A -> A) :
  forall (n : nat) (i : Z) (s : A),
    (forall j t, i <= j < i + Z.of_nat n -> f j t = g j t) ->
    for_loop n i f s = for_loop n i g s.
Proof.
  induction n as [ | n IH]; intros i s H; [reflexivity | ].
  cbn [for_loop]. rewrite (H i s) by lia. apply IH.
  intros j t Hj. apply H. lia.
Qed.

Lemma for_incl_ext {A : Type} (f g : Z -> A -> A) (lo hi : Z) (s : A) :
  (forall j t, lo <= j <= hi -> f j t = g j t) ->
  for_incl lo hi f s = for_incl lo hi g s.
Proof.
  intros H. unfold for_incl. apply for_loop_ext.
  intros j t Hj. apply H. lia.
Qed.

Section Locality.

Variable GR_RAD : double.
Variable atan2 : double -> double -> double.
Variable pow : double -> double -> double.
Variables fft fft' : fft_array.
Hypothesis same_window :
  forall j, LO_INDEX <= j <= HI_INDEX -> fft j = fft' j.

Lemma scan_window_local : scan_window fft = scan_window fft'.
Proof.
  unfold scan_window. apply for_incl_ext.
  intros j t Hj. unfold scan_body. rewrite (same_window j Hj). reflexivity.
Qed.

Lemma pitch_phase_local (mode : Z) (st : pitch_state) :
  pitch_phase GR_RAD atan2 fft mode st = pitch_phase GR_RAD atan2 fft' mode st.
Proof.
  unfold pitch_phase. rewrite <- scan_window_local.
  destruct (negb (nan (scan_window fft) =? 0)); [reflexivity | ].
  destruct (index (scan_window fft) <? 0) eqn:X; [reflexivity | ].
  apply Z.ltb_ge in X.
  destruct (scan_window_index fft) as [[Y _] | [Y _]]; [lia | ].
  rewrite <- (same_window _ Y). reflexivity.
Qed.

Lemma snr_local (st : pitch_state) : snr pow fft st = snr pow fft' st.
Proof.
  unfold snr.
  rewrite (for_incl_ext (mean_body fft) (mean_body fft')).
  2:{ intros j t Hj. unfold mean_body. rewrite (same_window j Hj). reflexivity. }
  destruct (_ <? 0.5)%float; [reflexivity | ].
  match goal with
  | |- context [for_incl _ _ (dev_body pow fft ?L) _] =>
      rewrite (for_incl_ext (dev_body pow fft L) (dev_body pow fft' L))
  end.
  2:{ intros j t Hj. unfold dev_body. rewrite (same_window j Hj). reflexivity. }
  reflexivity.
Qed.

Lemma scan_hi_local (limit : double) (n : nat) :
  forall i, LO_INDEX <= i -> scan_hi fft limit n i = scan_hi fft' limit n i.
Proof.
  induction n as [ | n IH]; intros i Hi; [reflexivity | ].
  cbn [scan_hi]. destruct (Z.leb_spec i HI_INDEX) as [L | L]; [ | reflexivity].
  rewrite (same_window i (conj Hi L)), IH by lia. reflexivity.
Qed.

Lemma scan_lo_local (limit : double) (n : nat) :
  forall i, i <= HI_INDEX -> scan_lo fft limit n i = scan_lo fft' limit n i.
Proof.
  induction n as [ | n IH]; intros i Hi; [reflexivity | ].
  cbn [scan_lo]. destruct (Z.leb_spec LO_INDEX i) as [L | L]; [ | reflexivity].
  rewrite (same_window i (conj L Hi)), IH by lia. reflexivity.
Qed.

Lemma fwhm_local (st : pitch_state) : fwhm fft st = fwhm fft' st.
Proof.
  unfold fwhm.
  destruct (Z.ltb_spec (result_pa.index (res st)) LO_INDEX) as [L | L];
    [reflexivity | ].
  destruct (Z.ltb_spec HI_INDEX (result_pa.index (res st))) as [G | G];
    [reflexivity | ].
  cbn [orb]. rewrite scan_hi_local, scan_lo_local by lia. reflexivity.
Qed.

(** X6.  The three member functions of [pitch] and the caller's sequence
    read the bin array at the slots 824..1226 only: two arrays that agree
    there give the same statuses, the same result record and the same error
    code. *)
Theorem extract_reads_window_only (mode : Z) (st : pitch_state) :
  pitch_phase GR_RAD atan2 fft mode st = pitch_phase GR_RAD atan2 fft' mode st
  /\ snr pow fft st = snr pow fft' st
  /\ fwhm fft st = fwhm fft' st
  /\ extract GR_RAD atan2 pow fft mode st = extract GR_RAD atan2 pow fft' mode st.
Proof.
  split; [apply pitch_phase_local | ]. split; [apply snr_local | ].
  split; [apply fwhm_local | ].
  unfold extract. rewrite pitch_phase_local.
  destruct (pitch_phase GR_RAD atan2 fft' mode st) as [s1 st1].
  destruct ((s1 =? PITCH_RET_ERR) || (s1 =? PITCH_RET_NAN)); [reflexivity | ].
  rewrite snr_local. destruct (snr pow fft' st1) as [s2 st2].
  destruct (s2 =? PITCH_RET_ERR); [reflexivity | ].
  rewrite fwhm_local. reflexivity.
Qed.

End Locality.

Lemma extract_reads_window_only_witness :
  (forall j, LO_INDEX <= j <= HI_INDEX -> peak j = peak_in_window j)
  /\ extract GR_RAD_model atan2_model pow_model peak 2 st0
     = extract GR_RAD_model atan2_model pow_model peak_in_window 2 st0.
Proof.
  assert (H : forall j, LO_INDEX <= j <= HI_INDEX -> peak j = peak_in_window j).
  { intros j [L G]. unfold peak_in_window.
    replace (j <? LO_INDEX) with false by (symmetry; apply Z.ltb_ge; exact L).
    replace (HI_INDEX <? j) with false by (symmetry; apply Z.ltb_ge; exact G).
    reflexivity. }
  split; [exact H | ].
  exact (proj2 (proj2 (proj2
           (extract_reads_window_only GR_RAD_model atan2_model pow_model
              peak peak_in_window H 2 st0)))).
Defined.

(** * The cell of one (mode, radius) *)

Section CellOverwrite.

Variable GR_RAD : double.
Variable atan2 : double -> double -> double.
Variable pow : double -> double -> double.

Ltac cell_fields :=
  cbn [res upd_res pitch_errno set_pitch_errno clear_all
       result_pa.set_index result_pa.set_freq result_pa.set_amp
       result_pa.set_avg_amp result_pa.set_pa result_pa.set_phase
       result_pa.set_snr result_pa.set_fwhm
       result_pa.index result_pa.freq result_pa.amp result_pa.avg_amp
       result_pa.pa result_pa.phase result_pa.snr result_pa.fwhm
       fst snd app].

(** The cell and the statuses the caller's sequence leaves do not depend on
    the state it starts from; the error code depends on the error code. *)
Lemma extract_fresh (fft : fft_array) (mode : Z) (st st' : pitch_state) :
  res (fst (extract GR_RAD atan2 pow fft mode st))
  = res (fst (extract GR_RAD atan2 pow fft mode st'))
  /\ snd (extract GR_RAD atan2 pow fft mode st)
     = snd (extract GR_RAD atan2 pow fft mode st')
  /\ (pitch_errno st = pitch_errno st' ->
      pitch_errno (fst (extract GR_RAD atan2 pow fft mode st))
      = pitch_errno (fst (extract GR_RAD atan2 pow fft mode st'))).
Proof.
  destruct st as [r1 e1], st' as [r2 e2].
  unfold extract, pitch_phase.
  generalize (scan_window fft). intros W.
  destruct (negb (nan W =? 0)); [cell_fields; auto | ].
  destruct (index W <? 0); [cell_fields; auto | ].
  cbn [Z.eqb PITCH_RET_ERR PITCH_RET_NAN orb]. unfold snr.
  generalize (for_incl LO_INDEX HI_INDEX (mean_body fft) (0.0, 0.0)%float).
  intros M.
  destruct (snd M <? 0.5)%float; [cell_fields; auto | ].
  generalize (for_incl LO_INDEX HI_INDEX
                (dev_body pow fft (fst M / snd M)%float) 0.0%float).
  intros D. cell_fields.
  destruct (_ <=? _)%float; [cell_fields; auto | ].
  cell_fields.
  destruct (not_nan _).
  all: cbn [Z.eqb PITCH_RET_ERR PITCH_RET_OK PITCH_RET_NAN].
  all: unfold fwhm, fwhm_limit; cell_fields.
  all: destruct (_ || _); [cell_fields; auto | ].
  all: match goal with
       | |- context [scan_hi ?a ?b ?c ?d] => generalize (scan_hi a b c d); intros hi
       end.
  all: match goal with
       | |- context [scan_lo ?a ?b ?c ?d] => generalize (scan_lo a b c d); intros lo
       end.
  all: destruct (_ || _); [cell_fields; auto | ].
  all: rewrite double_of_int_not_nan; cell_fields.
  all: auto.
Qed.

(** X7.  The caller's sequence rewrites every field of the cell: the cell it
    leaves and the statuses of the three stages do not depend on what the
    cell, or the error code, held before; started with the same error code
    it gives the same result whatever the cell held. *)
Theorem extract_overwrites_cell (fft : fft_array) (mode : Z)
  (st st' : pitch_state) :
  (res (fst (extract GR_RAD atan2 pow fft mode st))
   = res (fst (extract GR_RAD atan2 pow fft mode st'))
   /\ snd (extract GR_RAD atan2 pow fft mode st)
      = snd (extract GR_RAD atan2 pow fft mode st'))
  /\ (pitch_errno st = pitch_errno st' ->
      extract GR_RAD atan2 pow fft mode st
      = extract GR_RAD atan2 pow fft mode st').
Proof.
  destruct (extract_fresh fft mode st st') as [R [L E]].
  split; [split; assumption | ]. intros H. specialize (E H).
  destruct (extract GR_RAD atan2 pow fft mode st) as [[r e] l].
  destruct (extract GR_RAD atan2 pow fft mode st') as [[r' e'] l'].
  cbn in R, L, E. subst. reflexivity.
Qed.

End CellOverwrite.

Section CellProtocol.

Variable GR_RAD : double.
Variable atan2 : double -> double -> double.
Variable pow : double -> double -> double.

Lemma pitch_phase_cases (fft : fft_array) (mode : Z) (st : pitch_state) :
  (fst (pitch_phase GR_RAD atan2 fft mode st) = PITCH_RET_NAN
   /\ res (snd (pitch_phase GR_RAD atan2 fft mode st)) = res st)
  \/ (fst (pitch_phase GR_RAD atan2 fft mode st) = PITCH_RET_OK
      /\ peak_fields fft (res (snd (pitch_phase GR_RAD atan2 fft mode st)))).
Proof.
  unfold pitch_phase.
  destruct (negb (nan (scan_window fft) =? 0)); [left; split; reflexivity | ].
  destruct (index (scan_window fft) <? 0) eqn:X; [left; split; reflexivity | ].
  right. split; [reflexivity | ]. apply Z.ltb_ge in X.
  destruct (scan_window_index fft) as [[Y _] | [Y [Y' _]]]; [lia | ].
  cbn [fst snd res]. unfold peak_fields.
  cbn [result_pa.index result_pa.amp result_pa.freq
       result_pa.set_phase result_pa.set_pa
       result_pa.set_index result_pa.set_freq result_pa.set_amp].
  split; [split; assumption | split; reflexivity].
Qed.

Lemma snr_cases (fft : fft_array) (st : pitch_state) :
  let out := snr pow fft st in
  (result_pa.index (res (snd out)) = result_pa.index (res st)
   /\ result_pa.amp (res (snd out)) = result_pa.amp (res st)
   /\ result_pa.freq (res (snd out)) = result_pa.freq (res st))
  /\ (fst out = PITCH_RET_ERR
      \/ (fst out = PITCH_RET_OK /\ not_nan (result_pa.snr (res (snd out))) = true)
      \/ (fst out = PITCH_RET_NAN /\ result_pa.snr (res (snd out)) = NAN)).
Proof.
  cbv zeta. unfold snr.
  generalize (for_incl LO_INDEX HI_INDEX (mean_body fft) (0.0, 0.0)%float).
  intros M.
  destruct (snd M <? 0.5)%float; [split; [repeat split | left; reflexivity] | ].
  generalize (for_incl LO_INDEX HI_INDEX
                (dev_body pow fft (fst M / snd M)%float) 0.0%float).
  intros D.
  destruct (_ <=? _)%float; [split; [repeat split | left; reflexivity] | ].
  destruct (not_nan _) eqn:V.
  - split; [repeat split | ]. right. left. split; [reflexivity | exact V].
  - split; [repeat split | ]. right. right. split; [reflexivity | ].
    apply not_nan_false. exact V.
Qed.

(** X8.  What the caller's sequence leaves for one (mode, radius).  Either
    [pitch_phase] did not succeed, nothing else was called and the cell is
    cleared (index 0, every statistic NaN); or the cell holds a bin of the
    window other than slot 1025 with its magnitude and frequency, [snr] was
    called, and [fwhm] was called unless [snr] failed.  A status
    [PITCH_RET_NAN] of [snr] comes with a NaN ratio, a failed stage with NaN
    in its field, and a width that is not NaN is a whole number from 1 to
    401. *)
Theorem extract_cell (fft : fft_array) (mode : Z) (st : pitch_state) :
  let out := extract GR_RAD atan2 pow fft mode st in
  let r := res (fst out) in
  (snd out = [(Pitch_phase, PITCH_RET_NAN)]
   /\ r = result_pa.mk 0 NAN NAN NAN NAN NAN NAN NAN)
  \/ (peak_fields fft r
      /\ ((snd out = [(Pitch_phase, PITCH_RET_OK); (Snr, PITCH_RET_ERR)]
           /\ result_pa.avg_amp r = NAN /\ result_pa.snr r = NAN
           /\ result_pa.fwhm r = NAN)
          \/ exists s f,
               snd out = [(Pitch_phase, PITCH_RET_OK); (Snr, s); (Fwhm, f)]
               /\ (s = PITCH_RET_OK /\ not_nan (result_pa.snr r) = true
                   \/ s = PITCH_RET_NAN /\ result_pa.snr r = NAN)
               /\ (f = PITCH_RET_OK
                   /\ (exists n, 1 <= n <= 401
                                 /\ result_pa.fwhm r = double_of_int n)
                   \/ f = PITCH_RET_ERR /\ result_pa.fwhm r = NAN))).
Proof.
  cbv zeta. unfold extract.
  destruct (pitch_phase_cases fft mode st) as [[S1 _] | [S1 P1]];
    destruct (pitch_phase GR_RAD atan2 fft mode st) as [s1 st1];
    cbn [fst snd] in *; subst s1.
  { left. split; reflexivity. }
  right. cbn [Z.eqb PITCH_RET_OK PITCH_RET_ERR PITCH_RET_NAN orb].
  pose proof (snr_cases fft st1) as [[I2 [A2 F2]] S2]. cbv zeta in *.
  destruct (snr pow fft st1) as [s2 st2]. cbn [fst snd] in *.
  assert (P2 : peak_fields fft (res st2)).
  { unfold peak_fields in *. rewrite I2, A2, F2. exact P1. }
  clear P1 I2 A2 F2 st1.
  destruct S2 as [S2 | S2].
  { subst s2. cbn [Z.eqb PITCH_RET_ERR fst snd app].
    split; [ | left; repeat split].
    unfold peak_fields in *. destruct st2 as [r2 e2]. destruct r2. exact P2. }
  assert (N2 : (s2 =? PITCH_RET_ERR) = false)
    by (destruct S2 as [[-> _] | [-> _]]; reflexivity).
  rewrite N2.
  destruct (fwhm_inside fft st2 (proj1 (proj1 P2))) as [Hh [Hl E]].
  rewrite E. clear E.
  destruct ((_ =? 0) || (_ =? 0)) eqn:T.
  - cbn [Z.eqb PITCH_RET_ERR fst snd app].
    split; [unfold peak_fields in *; destruct st2 as [r2 e2]; destruct r2; exact P2 | ].
    right. exists s2, PITCH_RET_ERR. split; [reflexivity | ].
    split; [ | right; split; reflexivity].
    destruct st2 as [r2 e2]. destruct r2. exact S2.
  - cbn [Z.eqb PITCH_RET_ERR PITCH_RET_OK fst snd app].
    split; [unfold peak_fields in *; destruct st2 as [r2 e2]; destruct r2; exact P2 | ].
    right. exists s2, PITCH_RET_OK. split; [reflexivity | ].
    split; [destruct st2 as [r2 e2]; destruct r2; exact S2 | ].
    left. split; [reflexivity | ].
    apply orb_false_iff in T. destruct T as [T1 T2].
    apply Z.eqb_neq in T1, T2.
    destruct Hh as [Hh | Hh]; [contradiction | ].
    destruct Hl as [Hl | Hl]; [contradiction | ].
    eexists. split; [ | reflexivity].
    unfold LO_INDEX, HI_INDEX in *. lia.
Qed.

End CellProtocol.

(** * The remap reads the slice of its mode *)

Section RemapLocal.

Variable DIM_RAD : Z.
Variable pow : double -> double -> double.
Variable h : Z.
Hypothesis h_pos : 0 < h.
Hypothesis DIM_RAD_even : DIM_RAD = 2 * h.

(** X9.  The remap of a mode reads the [DIM_RAD] native bins of that mode's
    slice, [mode * DIM_RAD .. mode * DIM_RAD + DIM_RAD - 1], and no other
    bin: two native outputs that agree on the slice give the same buffer;
    [counter] stops at the first bin of the next slice. *)
Theorem remap_reads_own_slice (out_data out_data' : Z -> fftw_complex)
  (mode : Z) (d : fft_array) :
  (forall b, 0 <= b < DIM_RAD ->
     out_data (mode * DIM_RAD + b) = out_data' (mode * DIM_RAD + b)) ->
  (forall k, fft_data (remap DIM_RAD pow out_data mode d) k
             = fft_data (remap DIM_RAD pow out_data' mode d) k)
  /\ counter (remap DIM_RAD pow out_data mode d) = (mode + 1) * DIM_RAD.
Proof.
  intros H. split.
  - intros k.
    rewrite !(remap_slots DIM_RAD pow _ mode d h h_pos DIM_RAD_even).
    unfold remapped, wrapped.
    destruct (Z.leb_spec 2 k), (Z.leb_spec k h); cbn [andb].
    + replace (mode * DIM_RAD + h + k - 1) with (mode * DIM_RAD + (h + k - 1)) by lia.
      rewrite H by lia. reflexivity.
    + destruct (Z.leb_spec (h + 1) k), (Z.leb_spec k DIM_RAD); cbn [andb]; try lia.
      * replace (mode * DIM_RAD + k - h - 1) with (mode * DIM_RAD + (k - h - 1)) by lia.
        rewrite H by lia. reflexivity.
      * rewrite H by lia. reflexivity.
    + destruct (Z.leb_spec (h + 1) k); cbn [andb]; try lia.
      rewrite H by lia. reflexivity.
    + lia.
  - rewrite (remap_counter DIM_RAD pow out_data mode d h h_pos DIM_RAD_even). lia.
Qed.

End RemapLocal.

Lemma remap_reads_own_slice_witness :
  0 < 4 /\ 8 = 2 * 4
  /\ (forall b, 0 <= b < 8 -> out8 (1 * 8 + b) = out8_other (1 * 8 + b))
  /\ fft_data (remap 8 pow_model out8 1 blank) 3
     = fft_data (remap 8 pow_model out8_other 1 blank) 3.
Proof.
  assert (H1 : 0 < 4) by lia. assert (H2 : 8 = 2 * 4) by lia.
  assert (H3 : forall b, 0 <= b < 8 -> out8 (1 * 8 + b) = out8_other (1 * 8 + b)).
  { intros b Hb. unfold out8_other.
    replace ((8 <=? 1 * 8 + b) && (1 * 8 + b <? 16)) with true; [reflexivity | ].
    symmetry. apply andb_true_iff. rewrite Z.leb_le, Z.ltb_lt. lia. }
  split; [exact H1 | ]. split; [exact H2 | ]. split; [exact H3 | ].
  exact (proj1 (remap_reads_own_slice 8 pow_model 4 H1 H2 out8 out8_other 1 blank H3) 3).
Defined.

(** * The summed spectrum accumulates *)

Section AccProof.

Variable DIM_RAD : Z.
Variable STEP_P FREQ_START FREQ_END : double.
Variable to_float : double -> double.
Variable high_pass : Z.

Hypothesis DIM_RAD_nonneg : 0 <= DIM_RAD.

Lemma label_loop_acc (mode : Z) (d : fft_array) (sum : sum_array) :
  acc_inv DIM_RAD STEP_P FREQ_START FREQ_END to_float mode d sum
    (DIM_RAD + 1 + 1)
    (label_loop DIM_RAD STEP_P FREQ_START FREQ_END to_float high_pass
       mode d sum).
Proof.
  unfold label_loop.
  apply (for_incl_inv
           (acc_inv DIM_RAD STEP_P FREQ_START FREQ_END to_float mode d sum));
    [lia | | ].
  - split; [cbn; lia | ]. split; [reflexivity | ]. split; [reflexivity | ].
    intros c Hc. cbn in Hc. lia.
  - intros j t Hj [P [D [F A]]]. unfold label_body.
    destruct (in_bounds FREQ_START FREQ_END (freq_save DIM_RAD STEP_P to_float j))
      eqn:B.
    + unfold acc_inv. cbn [sum_ptr l_data l_sum]. split; [lia | ]. split; [ | split].
      * intros k Hk. rewrite !upd_other by lia. apply D. lia.
      * intros m c Hc. unfold sum_add.
        destruct (not_nan _); [ | apply F; lia].
        rewrite upd2_other by lia. apply F. lia.
      * intros c Hc. destruct (Z.eq_dec c (sum_ptr t)) as [-> | Hne].
        -- exists j. split; [lia | ]. split; [exact B | ].
           rewrite (D j) by lia. unfold sum_add, added.
           destruct (not_nan _); [ | apply F; lia].
           rewrite upd2_same, F by lia. reflexivity.
        -- destruct (A c) as [k [Hk [Bk E]]]; [lia | ].
           exists k. split; [lia | ]. split; [exact Bk | ].
           rewrite <- E. unfold sum_add.
           destruct (not_nan _); [ | reflexivity].
           apply upd2_other. right. exact Hne.
    + split; [lia | ]. split; [intros k Hk; apply D; lia | ].
      split; [exact F | ].
      intros c Hc. destruct (A c Hc) as [k [Hk E]].
      exists k. split; [lia | exact E].
Qed.

Lemma label_loop_keeps_fields (mode : Z) (d : fft_array) (sum : sum_array) :
  let s := label_loop DIM_RAD STEP_P FREQ_START FREQ_END to_float high_pass
             mode d sum in
  forall m c, fft_out.freq (l_sum s m c) = fft_out.freq (sum m c)
              /\ fft_out.real (l_sum s m c) = fft_out.real (sum m c)
              /\ fft_out.imag (l_sum s m c) = fft_out.imag (sum m c).
Proof.
  cbv zeta. destruct (label_loop_acc mode d sum) as [P [_ [F A]]].
  set (s := label_loop DIM_RAD STEP_P FREQ_START FREQ_END to_float high_pass
              mode d sum) in *.
  intros m c.
  destruct (Z.eq_dec m mode) as [-> | Hm]; [ | rewrite F by auto; auto].
  destruct (Z_lt_ge_dec c 0); [rewrite F by auto; auto | ].
  destruct (Z_lt_ge_dec c (sum_ptr s));
    [ | rewrite F by (right; right; lia); auto].
  destruct (A c) as [k [_ [_ E]]]; [lia | ]. rewrite E. unfold added.
  destruct (not_nan _); auto.
Qed.

(** X10.  One labelling pass of a mode adds to the summed spectrum of that
    mode only and to magnitudes only: [sum_ptr] ends at most at
    [DIM_RAD + 1]; each column below it received one guarded addition, of
    the magnitude the remapped buffer held at a slot whose frequency label
    lies within the bounds; every other entry, and the frequency, real and
    imaginary fields of every entry, are as before. *)
Theorem label_loop_accumulates (mode : Z) (d : fft_array) (sum : sum_array) :
  let s := label_loop DIM_RAD STEP_P FREQ_START FREQ_END to_float high_pass
             mode d sum in
  0 <= sum_ptr s <= DIM_RAD + 1
  /\ (forall m c, m <> mode \/ c < 0 \/ sum_ptr s <= c -> l_sum s m c = sum m c)
  /\ (forall c, 0 <= c < sum_ptr s ->
        exists k, c + 1 <= k <= DIM_RAD + 1
                  /\ in_bounds FREQ_START FREQ_END
                       (freq_save DIM_RAD STEP_P to_float k) = true
                  /\ l_sum s mode c = added sum mode c (fft_out.abs (d k)))
  /\ (forall m c, fft_out.freq (l_sum s m c) = fft_out.freq (sum m c)
                  /\ fft_out.real (l_sum s m c) = fft_out.real (sum m c)
                  /\ fft_out.imag (l_sum s m c) = fft_out.imag (sum m c)).
Proof.
  cbv zeta. destruct (label_loop_acc mode d sum) as [P [_ [F A]]].
  split; [lia | ]. split; [exact F | ]. split.
  - intros c Hc. destruct (A c Hc) as [k [Hk E]].
    exists k. split; [lia | exact E].
  - apply label_loop_keeps_fields.
Qed.

End AccProof.

Lemma label_loop_accumulates_witness :
  0 <= 8
  /\ sum_ptr (label_loop 8 0.25%float (-1)%float 1%float (fun x => x) 0 1
                peak blank_sum) = 9
  /\ l_sum (label_loop 8 0.25%float (-1)%float 1%float (fun x => x) 0 1
              peak blank_sum) 2 0 = blank_sum 2 0.
Proof.
  assert (H : 0 <= 8) by lia.
  split; [exact H | ]. split; [vm_compute; reflexivity | ].
  apply (proj1 (proj2 (label_loop_accumulates 8 0.25%float (-1)%float 1%float
                         (fun x => x) 0 H 1 peak blank_sum))).
  left. discriminate.
Defined.

Section SumAxisProof.

Variable DIM_RAD : Z.
Variable pow : double -> double -> double.
Variable STEP_P FREQ_START FREQ_END : double.
Variable to_float : double -> double.
Variable high_pass : Z.
Variables lim M_INI M_FIN : Z.

Hypothesis DIM_RAD_nonneg : 0 <= DIM_RAD.

Lemma label_column (i : Z) (f : double) (s : sum_array) :
  forall m k,
    for_incl M_INI M_FIN (fun j s => upd2 s j i (fft_out.set_freq f)) s m k
    = if (M_INI <=? m) && (m <=? M_FIN) && (k =? i)
      then fft_out.set_freq f (s m k) else s m k.
Proof.
  destruct (Z_le_gt_dec M_INI (M_FIN + 1)) as [L | G].
  2:{ intros m k. unfold for_incl.
      replace (Z.to_nat (M_FIN + 1 - M_INI)) with O by lia. cbn [for_loop].
      destruct (Z.leb_spec M_INI m), (Z.leb_spec m M_FIN); cbn [andb];
        try reflexivity; lia. }
  assert (H : forall m k,
            for_incl M_INI M_FIN (fun j s => upd2 s j i (fft_out.set_freq f)) s m k
            = if (M_INI <=? m) && (m <? M_FIN + 1) && (k =? i)
              then fft_out.set_freq f (s m k) else s m k).
  { apply (for_incl_inv
             (fun j t => forall m k,
                t m k = if (M_INI <=? m) && (m <? j) && (k =? i)
                        then fft_out.set_freq f (s m k) else s m k));
      [exact L | | ].
    - intros m k. destruct (Z.leb_spec M_INI m), (Z.ltb_spec m M_INI);
        cbn [andb]; try reflexivity; lia.
    - intros j t Hj Ht m k.
      destruct (Z.eq_dec m j) as [-> | Hm];
        [destruct (Z.eq_dec k i) as [-> | Hk] | ].
      + rewrite upd2_same, Ht.
        replace ((M_INI <=? j) && (j <? j)) with false
          by (symmetry; apply andb_false_iff; right; apply Z.ltb_ge; lia).
        replace ((M_INI <=? j) && (j <? j + 1)) with true
          by (symmetry; apply andb_true_iff; rewrite Z.leb_le, Z.ltb_lt; lia).
        rewrite Z.eqb_refl. reflexivity.
      + rewrite upd2_other by auto. rewrite Ht.
        replace (k =? i) with false by (symmetry; apply Z.eqb_neq; exact Hk).
        rewrite !andb_false_r. reflexivity.
      + rewrite upd2_other by auto. rewrite Ht.
        destruct (Z.leb_spec M_INI m), (Z.ltb_spec m j), (Z.ltb_spec m (j + 1));
          cbn [andb]; try reflexivity; lia. }
  intros m k. rewrite H.
  destruct (Z.leb_spec M_INI m), (Z.ltb_spec m (M_FIN + 1)), (Z.leb_spec m M_FIN);
    cbn [andb]; try reflexivity; lia.
Qed.

Lemma label_sum_spec (sum : sum_array) :
  forall m k,
    fst (label_sum lim M_INI M_FIN STEP_P FREQ_START to_float sum) m k
    = if (M_INI <=? m) && (m <=? M_FIN) && (0 <=? k) && (k <? lim)
      then fft_out.set_freq (axis STEP_P FREQ_START to_float (Z.to_nat k))
             (sum m k)
      else sum m k.
Proof.
  unfold label_sum.
  destruct (Z_le_gt_dec 0 (lim - 1 + 1)) as [L | G].
  2:{ intros m k. unfold for_incl.
      replace (Z.to_nat (lim - 1 + 1 - 0)) with O by lia. cbn [for_loop fst].
      destruct (Z.leb_spec 0 k), (Z.ltb_spec k lim); rewrite ?andb_false_r;
        cbn [andb]; try reflexivity; lia. }
  pose (P := fun i (p : sum_array * double) =>
                (forall m k,
                   fst p m k
                   = if (M_INI <=? m) && (m <=? M_FIN) && (0 <=? k) && (k <? i)
                     then fft_out.set_freq
                            (axis STEP_P FREQ_START to_float (Z.to_nat k)) (sum m k)
                     else sum m k)
                /\ (0 <= i -> snd p = axis STEP_P FREQ_START to_float (Z.to_nat i))).
  assert (H : P (lim - 1 + 1)
                (for_incl 0 (lim - 1)
                   (fun i (p : sum_array * double) =>
                      (for_incl M_INI M_FIN
                         (fun j s => upd2 s j i (fft_out.set_freq (snd p))) (fst p),
                       to_float (snd p + STEP_P)%float))
                   (sum, to_float FREQ_START))).
  { apply (for_incl_inv P); [exact L | | ].
    - split; [ | reflexivity]. intros m k. cbn [fst].
      destruct (Z.leb_spec 0 k), (Z.ltb_spec k 0); rewrite ?andb_false_r;
        cbn [andb]; try reflexivity; lia.
    - intros i t Hi [Ht Hs]. split; cbn [fst snd].
      + intros m k. rewrite label_column, Ht, Hs by lia.
        destruct (Z.eqb_spec k i) as [-> | Hk].
        * replace (0 <=? i) with true by (symmetry; apply Z.leb_le; lia).
          replace (i <? i) with false by (symmetry; apply Z.ltb_ge; lia).
          replace (i <? i + 1) with true by (symmetry; apply Z.ltb_lt; lia).
          rewrite !andb_true_r, andb_false_r.
          destruct ((M_INI <=? m) && (m <=? M_FIN)); reflexivity.
        * rewrite andb_false_r.
          replace (k <? i + 1) with (k <? i); [reflexivity | ].
          destruct (Z.ltb_spec k i), (Z.ltb_spec k (i + 1)); try reflexivity; lia.
      + intros _. rewrite Hs by lia.
        replace (Z.to_nat (i + 1)) with (S (Z.to_nat i)) by lia. reflexivity. }
  intros m k. destruct H as [H _]. rewrite H.
  replace (lim - 1 + 1) with lim by lia. reflexivity.
Qed.

Lemma reset_sum_freq (sum : sum_array) :
  forall m k, fft_out.freq (reset_sum lim M_INI M_FIN sum m k)
              = fft_out.freq (sum m k).
Proof.
  unfold reset_sum.
  assert (C : forall i n j s m k,
            fft_out.freq
              (for_loop n j
                 (fun j s => upd2 s j i (fft_out.set_abs 0.0%float)) s m k)
            = fft_out.freq (s m k)).
  { intros i. induction n as [ | n IH]; intros j s m k; cbn [for_loop];
      [reflexivity | ].
    rewrite IH. unfold upd2, upd.
    destruct (m =? j); [destruct (k =? i) | ]; reflexivity. }
  assert (R : forall n i s m k,
            fft_out.freq
              (for_loop n i
                 (fun i s => for_incl M_INI M_FIN
                    (fun j s => upd2 s j i (fft_out.set_abs 0.0%float)) s)
                 s m k)
            = fft_out.freq (s m k)).
  { induction n as [ | n IH]; intros i s m k; cbn [for_loop]; [reflexivity | ].
    rewrite IH. apply C. }
  intros m k. apply R.
Qed.

Lemma file_sum_freq (sum : sum_array)
  (works : list (Z * (Z -> fftw_complex) * fft_array)) :
  forall m k,
    fft_out.freq
      (file_sum DIM_RAD pow STEP_P FREQ_START FREQ_END to_float high_pass
         lim M_INI M_FIN sum works m k)
    = fft_out.freq (sum m k).
Proof.
  unfold file_sum. intros m k. rewrite <- (reset_sum_freq sum m k).
  generalize (reset_sum lim M_INI M_FIN sum).
  induction works as [ | w works IH]; intros s; cbn [fold_left]; [reflexivity | ].
  rewrite IH. destruct w as [[mode out] d]. unfold contribute.
  apply (label_loop_keeps_fields DIM_RAD STEP_P FREQ_START FREQ_END to_float
           high_pass DIM_RAD_nonneg).
Qed.

(** X11.  The frequency labels of the summed spectrum are written once, before
    any file is read: column [k] of every mode from [M_INI] to [M_FIN] is
    labelled with the value [freq_counter] has after [k] steps from
    [FREQ_START].  They stay as they are for every input file that follows:
    the per-file reset and the contributions change magnitudes only. *)
Theorem sum_labels_persist (sum0 : sum_array)
  (files : list (list (Z * (Z -> fftw_complex) * fft_array))) :
  let sum := fold_left
               (file_sum DIM_RAD pow STEP_P FREQ_START FREQ_END to_float
                  high_pass lim M_INI M_FIN)
               files
               (fst (label_sum lim M_INI M_FIN STEP_P FREQ_START to_float sum0)) in
  forall m k, M_INI <= m <= M_FIN -> 0 <= k < lim ->
    fft_out.freq (sum m k) = axis STEP_P FREQ_START to_float (Z.to_nat k).
Proof.
  cbv zeta. intros m k Hm Hk.
  assert (F : forall s,
            fft_out.freq
              (fold_left
                 (file_sum DIM_RAD pow STEP_P FREQ_START FREQ_END to_float
                    high_pass lim M_INI M_FIN) files s m k)
            = fft_out.freq (s m k)).
  { induction files as [ | w ws IH]; intros s; cbn [fold_left]; [reflexivity | ].
    rewrite IH. apply file_sum_freq. }
  rewrite F, label_sum_spec.
  replace ((M_INI <=? m) && (m <=? M_FIN) && (0 <=? k) && (k <? lim)) with true;
    [reflexivity | ].
  symmetry. repeat (apply andb_true_iff; split); try (apply Z.leb_le; lia).
  apply Z.ltb_lt. lia.
Qed.

End SumAxisProof.

Lemma sum_labels_persist_witness :
  0 <= 8 /\ 0 <= 1 <= 2 /\ 0 <= 3 < 9
  /\ fft_out.freq
       (fold_left
          (file_sum 8 pow_model 0.25%float (-1)%float 1%float (fun x => x) 0 9 0 2)
          [[(1, out8, peak)]; [(2, out8, all_nan)]]
          (fst (label_sum 9 0 2 0.25%float (-1)%float (fun x => x) blank_sum))
          1 3)
     = (-0.25)%float.
Proof.
  assert (H0 : 0 <= 8) by lia. assert (H1 : 0 <= 1 <= 2) by lia.
  assert (H2 : 0 <= 3 < 9) by lia.
  split; [exact H0 | ]. split; [exact H1 | ]. split; [exact H2 | ].
  rewrite (sum_labels_persist 8 pow_model 0.25%float (-1)%float 1%float
             (fun x => x) 0 9 0 2 H0 blank_sum
             [[(1, out8, peak)]; [(2, out8, all_nan)]] 1 3 H1 H2).
  reflexivity.
Defined.

(** * An annulus without signal *)

Lemma normalise_spec (norma : double) (counter : Z) (out : Z -> fftw_complex) :
  0 <= counter + 1 ->
  forall k, normalise norma counter out k
            = if (0 <=? k) && (k <=? counter)
              then (fst (out k) / norma, snd (out k) / norma)%float
              else out k.
Proof.
  intros Hc. unfold normalise.
  assert (H : forall k,
            for_incl 0 counter
              (fun im o => upd o im (fun c => (fst c / norma, snd c / norma)%float))
              out k
            = if (0 <=? k) && (k <? counter + 1)
              then (fst (out k) / norma, snd (out k) / norma)%float
              else out k).
  { apply (for_incl_inv
             (fun i t => forall k,
                t k = if (0 <=? k) && (k <? i)
                      then (fst (out k) / norma, snd (out k) / norma)%float
                      else out k)); [lia | | ].
    - intros k. destruct (Z.leb_spec 0 k), (Z.ltb_spec k 0); cbn [andb];
        try reflexivity; lia.
    - intros j t Hj Ht k. unfold upd. rewrite Ht.
      destruct (Z.eqb_spec k j) as [-> | Hne].
      + replace ((0 <=? j) && (j <? j)) with false
          by (symmetry; apply andb_false_iff; right; apply Z.ltb_ge; lia).
        replace ((0 <=? j) && (j <? j + 1)) with true
          by (symmetry; apply andb_true_iff; rewrite Z.leb_le, Z.ltb_lt; lia).
        reflexivity.
      + destruct (Z.leb_spec 0 k), (Z.ltb_spec k j), (Z.ltb_spec k (j + 1));
          cbn [andb]; try reflexivity; lia. }
  intros k. rewrite H.
  destruct (Z.leb_spec 0 k), (Z.ltb_spec k (counter + 1)), (Z.leb_spec k counter);
    cbn [andb]; try reflexivity; lia.
Qed.

Section Blank.

Variable GR_RAD : double.
Variable atan2 : double -> double -> double.
Variable pow : double -> double -> double.
Variable DIM_RAD : Z.
Variable STEP_P FREQ_START FREQ_END : double.
Variable to_float : double -> double.

Variable h : Z.
Hypothesis DIM_RAD_even : DIM_RAD = 2 * h.
(** The scan window lies inside the remapped slots. *)
Hypothesis window_inside : HI_INDEX <= DIM_RAD + 1.
(** libm: a NaN base gives a NaN square. *)
Hypothesis pow_nan : pow NAN 2.0%float = NAN.

Variable out_data : Z -> fftw_complex.
Variables mode counter : Z.
Hypothesis mode_nonneg : 0 <= mode.
Hypothesis slice_normalised : mode * DIM_RAD + DIM_RAD - 1 <= counter.
(** The FFT of the annulus is zero on the slice of the mode. *)
Hypothesis blank_slice :
  forall b, 0 <= b < DIM_RAD ->
    out_data (mode * DIM_RAD + b) = (0.0, 0.0)%float.

Lemma blank_half_pos : 0 < h.
Proof. unfold HI_INDEX in window_inside. lia. Qed.

Lemma blank_magnitude (b : Z) :
  0 <= b < DIM_RAD ->
  magnitude pow (normalise 0.0%float counter out_data (mode * DIM_RAD + b)) = NAN.
Proof.
  intros Hb. rewrite normalise_spec by nia.
  replace ((0 <=? mode * DIM_RAD + b) && (mode * DIM_RAD + b <=? counter))
    with true by (symmetry; apply andb_true_iff; rewrite !Z.leb_le; nia).
  rewrite (blank_slice b Hb). unfold magnitude. cbn [fst snd].
  change (0.0 / 0.0)%float with NAN. rewrite pow_nan. reflexivity.
Qed.

Lemma blank_remap (d : fft_array) (k : Z) :
  1 <= k <= DIM_RAD + 1 ->
  fft_out.abs
    (fft_data (remap DIM_RAD pow (normalise 0.0%float counter out_data) mode d) k)
  = NAN.
Proof.
  intros Hk. pose proof blank_half_pos as P.
  destruct (Z.eq_dec k 1) as [-> | Hne];
    [ | destruct (Z_le_gt_dec k h); [ | destruct (Z_le_gt_dec k DIM_RAD)]].
  - rewrite (remap_start _ _ _ _ _ _ P DIM_RAD_even). cbn [fft_out.abs fft_out.set_abs].
    apply blank_magnitude. lia.
  - rewrite (remap_lower _ _ _ _ _ _ P DIM_RAD_even) by lia.
    cbn [fft_out.abs fft_out.set_abs store_bin]. apply blank_magnitude. lia.
  - rewrite (remap_upper _ _ _ _ _ _ P DIM_RAD_even) by lia.
    cbn [fft_out.abs fft_out.set_abs store_bin]. apply blank_magnitude. lia.
  - replace k with (DIM_RAD + 1) by lia.
    rewrite (remap_end _ _ _ _ _ _ P DIM_RAD_even).
    cbn [fft_out.abs fft_out.set_abs store_bin]. apply blank_magnitude. lia.
Qed.

(** X12.  An annulus without signal: when the FFT output is zero on the slice
    of the mode and [norma] is 0.0, the normalisation divides zero by zero;
    with the high pass off, every magnitude of the remapped and labelled
    buffer is NaN, the summed spectrum receives nothing, [pitch_phase]
    returns [PITCH_RET_NAN], neither [snr] nor [fwhm] is called and the cell
    is cleared to index 0 and NaN statistics. *)
Theorem blank_annulus (d : fft_array) (sum : sum_array) (st : pitch_state) :
  let r := analyse GR_RAD atan2 pow DIM_RAD STEP_P FREQ_START FREQ_END to_float
             0 0.0%float counter out_data mode d sum st in
  (forall k, 1 <= k <= DIM_RAD + 1 -> fft_out.abs (l_data (fst r) k) = NAN)
  /\ (forall m c, l_sum (fst r) m c = sum m c)
  /\ snd (snd r) = [(Pitch_phase, PITCH_RET_NAN)]
  /\ res (fst (snd r)) = result_pa.mk 0 NAN NAN NAN NAN NAN NAN NAN.
Proof.
  cbv zeta. unfold analyse. cbn [fst snd].
  set (D := fft_data (remap DIM_RAD pow (normalise 0.0%float counter out_data)
                        mode d)).
  assert (N : 0 <= DIM_RAD) by (pose proof blank_half_pos; lia).
  assert (A : forall k, 1 <= k <= DIM_RAD + 1 ->
              fft_out.abs
                (l_data (label_loop DIM_RAD STEP_P FREQ_START FREQ_END to_float
                           0 mode D sum) k) = NAN).
  { intros k Hk. rewrite label_loop_data by exact N.
    destruct (_ && _); [ | apply blank_remap; exact Hk].
    unfold labelled, high_pass_bin, in_high_pass_band.
    cbn [Z.eqb negb andb fft_out.abs fft_out.set_freq].
    apply blank_remap. exact Hk. }
  split; [exact A | ]. split.
  - intros m c.
    destruct (label_loop_acc DIM_RAD STEP_P FREQ_START FREQ_END to_float 0 N
                mode D sum) as [P [_ [F G]]].
    destruct (Z.eq_dec m mode) as [-> | Hm]; [ | apply F; auto].
    destruct (Z_lt_ge_dec c 0); [apply F; auto | ].
    match goal with
    | |- l_sum ?s _ _ = _ => destruct (Z_lt_ge_dec c (sum_ptr s))
    end; [ | apply F; right; right; lia].
    destruct (G c) as [k [Hk [_ E]]]; [lia | ]. rewrite E. unfold added.
    unfold D. rewrite blank_remap by lia. reflexivity.
  - assert (V : forall j, LO_INDEX <= j <= HI_INDEX ->
                valid_at
                  (l_data (label_loop DIM_RAD STEP_P FREQ_START FREQ_END to_float
                             0 mode D sum)) j = false).
    { intros j Hj. unfold valid_at. rewrite A; [reflexivity | ].
      unfold LO_INDEX in Hj. lia. }
    unfold extract. rewrite (pitch_phase_nan GR_RAD atan2 _ mode st V).
    split; reflexivity.
Qed.

End Blank.

Lemma blank_annulus_witness :
  2048 = 2 * 1024 /\ HI_INDEX <= 2048 + 1
  /\ pow_model NAN 2.0%float = NAN
  /\ 0 <= 1 /\ 1 * 2048 + 2048 - 1 <= 5000
  /\ (forall b, 0 <= b < 2048 -> out_zero (1 * 2048 + b) = (0.0, 0.0)%float)
  /\ snd (snd (analyse GR_RAD_model atan2_model pow_model 2048 0.25%float
                 (-50)%float 50%float (fun x => x) 0 0.0%float 5000 out_zero 1
                 peak blank_sum st_peak))
     = [(Pitch_phase, PITCH_RET_NAN)].
Proof.
  assert (H1 : 2048 = 2 * 1024) by lia.
  assert (H2 : HI_INDEX <= 2048 + 1) by (unfold HI_INDEX; lia).
  assert (H3 : pow_model NAN 2.0%float = NAN) by reflexivity.
  assert (H4 : 0 <= 1) by lia.
  assert (H5 : 1 * 2048 + 2048 - 1 <= 5000) by lia.
  assert (H6 : forall b, 0 <= b < 2048 -> out_zero (1 * 2048 + b) = (0.0, 0.0)%float)
    by (intros b _; reflexivity).
  split; [exact H1 | ]. split; [exact H2 | ]. split; [exact H3 | ].
  split; [exact H4 | ]. split; [exact H5 | ]. split; [exact H6 | ].
  exact (proj1 (proj2 (proj2
           (blank_annulus GR_RAD_model atan2_model pow_model 2048 0.25%float
              (-50)%float 50%float (fun x => x) 1024 H1 H2 H3 out_zero 1 5000
              H4 H5 H6 peak blank_sum st_peak)))).
Defined.

(** * The polar sampling *)

Lemma for_loop_e_inv {A : Type} (P : Z -> A -> Prop) (body : Z -> A -> eval A) :
  forall (n : nat) (i : Z) (s : A),
    P i s ->
    (forall j t, i <= j < i + Z.of_nat n -> P j t ->
       exists t', body j t = Val t' /\ P (j + 1) t') ->
    exists s', for_loop_e n i body s = Val s' /\ P (i + Z.of_nat n) s'.
Proof.
  induction n as [ | n IH]; intros i s H0 Hstep.
  - exists s. split; [reflexivity | ]. replace (i + Z.of_nat 0) with i by lia.
    exact H0.
  - cbn [for_loop_e]. destruct (Hstep i s) as [t [E Pt]]; [lia | exact H0 | ].
    rewrite E. cbn [bind].
    replace (i + Z.of_nat (S n)) with ((i + 1) + Z.of_nat n) by lia.
    apply IH; [exact Pt | ]. intros j u Hj. apply Hstep. lia.
Qed.

Lemma for_incl_e_inv {A : Type} (P : Z -> A -> Prop) (body : Z -> A -> eval A)
  (lo hi : Z) (s : A) :
  lo <= hi + 1 ->
  P lo s ->
  (forall j t, lo <= j <= hi -> P j t ->
     exists t', body j t = Val t' /\ P (j + 1) t') ->
  exists s', for_incl_e lo hi body s = Val s' /\ P (hi + 1) s'.
Proof.
  intros Hle H0 Hstep. unfold for_incl_e.
  destruct (for_loop_e_inv P body (Z.to_nat (hi + 1 - lo)) lo s H0)
    as [s' [E Ps]].
  - intros j t Hj. apply Hstep. lia.
  - exists s'. split; [exact E | ].
    replace (hi + 1) with (lo + Z.of_nat (Z.to_nat (hi + 1 - lo))) by lia.
    exact Ps.
Qed.

(** Without the fixed-width option no rule reads a local that was never
    assigned; with [-z] the padded rows are zeroed by the first rule. *)
Lemma sample_rule_assigned (fl : flags) (log_bar log_itrad : double)
  (a : annulus) (count_theta : Z) (lnr : double) :
  fixed fl = 0 -> log_rad a <> None ->
  exists v, sample_rule fl log_bar log_itrad a count_theta lnr = Val v
            /\ (zero fl <> 0 -> count_theta < 4 \/ 1021 < count_theta ->
                v = Zeroed Zero_padding).
Proof.
  intros Hf Hr. destruct a as [[lr | ] lo hi]; [ | contradiction].
  unfold sample_rule. rewrite Hf.
  cbn [log_rad log_lo log_hi read bind c_or c_and negb Z.eqb].
  destruct (Z.eqb_spec (zero fl) 0) as [Z0 | Z0]; cbn [negb andb].
  - destruct (negb (mask_line fl =? 0) && _);
      [eexists; split; [reflexivity | contradiction] | ].
    destruct (reverse fl =? 0), (lr <? lnr)%float, (log_itrad <? lnr)%float,
      (lnr <? lr)%float; cbn; eexists; (split; [reflexivity | contradiction]).
  - destruct ((count_theta <? 4) || (1021 <? count_theta)) eqn:T.
    + eexists. split; reflexivity.
    + assert (N : ~ (count_theta < 4 \/ 1021 < count_theta)).
      { apply orb_false_iff in T. rewrite !Z.ltb_ge in T. lia. }
      destruct (negb (mask_line fl =? 0) && _);
        [eexists; split; [reflexivity | intros _ C; contradiction] | ].
      destruct (reverse fl =? 0), (lr <? lnr)%float, (log_itrad <? lnr)%float,
        (lnr <? lr)%float; cbn; eexists;
        (split; [reflexivity | intros _ C; contradiction]).
Qed.

Section PolarProof.

Variables expf cosf sinf : double -> double.
Variable to_float : double -> double.
Variable int_of_float : double -> Z.
Variable GR_RAD : double.
Variables DIM_RAD DIM_THT : Z.
Variables radstep theta_step : double.
Variable mat : matrix.
Variables x_0 y_0 : Z.
Variable ctr_val : double.
Variable mask : Z.
Variable fl : flags.
Variables log_bar log_itrad : double.
Variable a : annulus.

Hypothesis DIM_RAD_nonneg : 0 <= DIM_RAD.
Hypothesis DIM_THT_nonneg : 0 <= DIM_THT.
Hypothesis not_fixed : fixed fl = 0.
Hypothesis log_rad_assigned : log_rad a <> None.

Lemma store_sampled (in0 : Z -> fftw_complex) (row col : Z) (re : double) (s : polar.t) :
  1 <= row -> 1 <= col <= DIM_RAD ->
  re = 0.0%float \/ (exists a b, re = mat a b) ->
  (zero fl <> 0 -> padded row -> re = 0.0%float) ->
  sampled DIM_RAD mat fl in0 row col s ->
  sampled DIM_RAD mat fl in0 row (col + 1)
    (store re s).
Proof.
  intros Hrow Hcol Hre Hpad [C [G [F Z]]]. unfold sampled, store.
  cbn [polar.counter polar.in_data]. split; [lia | ]. split; [ | split].
  - intros k Hk. unfold upd.
    destruct (Z.eqb_spec k (polar.counter s)) as [-> | Hne].
    + split; [reflexivity | exact Hre].
    + apply G. lia.
  - intros k Hk. unfold upd.
    destruct (Z.eqb_spec k (polar.counter s)) as [-> | Hne]; [nia | ].
    apply F. lia.
  - intros Hz r c Hp Hc Hlt Hr. unfold upd.
    destruct (Z.eqb_spec ((r - 1) * DIM_RAD + c) (polar.counter s)) as [E | Hne].
    + assert (r = row) by nia. subst r. rewrite (Hpad Hz Hp). reflexivity.
    + apply Z; try assumption. lia.
Qed.

Lemma sample_sampled (in0 : Z -> fftw_complex) (row col : Z) (theta_radians lnr : double) (s : polar.t) :
  1 <= row -> 1 <= col <= DIM_RAD ->
  sampled DIM_RAD mat fl in0 row col s ->
  exists s',
    sample expf cosf sinf to_float int_of_float mat x_0 y_0 ctr_val mask fl
      log_bar log_itrad a (row + 1) theta_radians lnr s = Val s'
    /\ sampled DIM_RAD mat fl in0 row (col + 1) s'.
Proof.
  intros Hrow Hcol H. unfold sample.
  destruct (sample_rule_assigned fl log_bar log_itrad a (row + 1) lnr
              not_fixed log_rad_assigned) as [v [E P]].
  rewrite E. cbn [bind]. eexists. split; [reflexivity | ].
  destruct v as [r | ].
  - apply store_sampled; auto.
  - destruct (negb (mask =? 0) && _).
    + apply store_sampled; auto.
    + match goal with
      | |- sampled _ _ _ _ _ _ (polar.mk (polar.in_data ?t) (polar.counter ?t) _) =>
          assert (K : sampled DIM_RAD mat fl in0 row (col + 1) t)
      end.
      { apply store_sampled; auto.
        - right. eexists. eexists. reflexivity.
        - intros Hz Hp. specialize (P Hz Hp). discriminate P. }
      exact K.
Qed.

Lemma polar_row_sampled (in0 : Z -> fftw_complex) (row : Z) (theta_radians : double) (s : polar.t) :
  1 <= row ->
  sampled DIM_RAD mat fl in0 row 1 s ->
  exists q,
    polar_row expf cosf sinf to_float int_of_float DIM_RAD radstep mat x_0 y_0
      ctr_val mask fl log_bar log_itrad a (row + 1) theta_radians s = Val q
    /\ sampled DIM_RAD mat fl in0 (row + 1) 1 (fst q).
Proof.
  intros Hrow H. unfold polar_row.
  destruct (for_incl_e_inv
              (fun c (p : polar.t * double) =>
                 sampled DIM_RAD mat fl in0 row c (fst p))
              (fun count_radians (p : polar.t * double) =>
                 s <- sample expf cosf sinf to_float int_of_float mat x_0 y_0
                        ctr_val mask fl log_bar log_itrad a (row + 1)
                        theta_radians (snd p) (fst p) ;;
                 Val (s, to_float (snd p + radstep)%float))
              1 DIM_RAD (s, 0.0%float)) as [q [E Q]]; [lia | exact H | | ].
  - intros j t Hj Ht.
    destruct (sample_sampled in0 row j theta_radians (snd t) (fst t) Hrow Hj Ht)
      as [s' [E S]].
    rewrite E. cbn [bind]. eexists. split; [reflexivity | exact S].
  - exists q. split; [exact E | ].
    destruct Q as [C [G [F Z]]]. split; [lia | ].
    split; [exact G | ]. split; [exact F | exact Z].
Qed.

Lemma clear_data_spec (d : Z -> fftw_complex) :
  forall k, clear_data DIM_RAD DIM_THT d k
            = if (0 <=? k) && (k <=? DIM_RAD * DIM_THT)
              then (0.0, 0.0)%float else d k.
Proof.
  unfold clear_data.
  assert (H : forall k,
            for_incl 0 (DIM_RAD * DIM_THT)
              (fun im d => upd d im (fun _ => (0.0, 0.0)%float)) d k
            = if (0 <=? k) && (k <? DIM_RAD * DIM_THT + 1)
              then (0.0, 0.0)%float else d k).
  { apply (for_incl_inv
             (fun i t => forall k,
                t k = if (0 <=? k) && (k <? i) then (0.0, 0.0)%float else d k));
      [nia | | ].
    - intros k. destruct (Z.leb_spec 0 k), (Z.ltb_spec k 0); cbn [andb];
        try reflexivity; lia.
    - intros j t Hj Ht k. unfold upd. rewrite Ht.
      destruct (Z.eqb_spec k j), (Z.leb_spec 0 k), (Z.ltb_spec k j),
        (Z.ltb_spec k (j + 1)); cbn [andb]; try reflexivity; lia. }
  intros k. rewrite H.
  destruct (Z.leb_spec 0 k), (Z.ltb_spec k (DIM_RAD * DIM_THT + 1)),
    (Z.leb_spec k (DIM_RAD * DIM_THT)); cbn [andb]; try reflexivity; lia.
Qed.

(** X13.  Without the fixed-width option the sampling of an annulus reads no
    unassigned local and writes one sample for each of the [DIM_THT] rows
    and [DIM_RAD] columns, in order: [counter] ends at [DIM_THT * DIM_RAD];
    every sample has the imaginary part 0.0 and a real part that is 0.0 or a
    pixel of the image; entry [DIM_THT * DIM_RAD] is the 0.0 of the clearing
    loop and the entries beyond are not touched.  With [-z] the rows 1 and 2
    and the rows from 1021 on are zero. *)
Theorem polar_map_fills (in0 : Z -> fftw_complex) :
  exists s theta,
    polar_map expf cosf sinf to_float int_of_float GR_RAD DIM_RAD DIM_THT
      radstep theta_step mat x_0 y_0 ctr_val mask fl log_bar log_itrad a in0
    = Val (s, theta)
    /\ polar.counter s = DIM_THT * DIM_RAD
    /\ (forall k, 0 <= k < DIM_THT * DIM_RAD ->
          snd (polar.in_data s k) = 0.0%float
          /\ (fst (polar.in_data s k) = 0.0%float
              \/ exists a b, fst (polar.in_data s k) = mat a b))
    /\ polar.in_data s (DIM_THT * DIM_RAD) = (0.0, 0.0)%float
    /\ (forall k, k < 0 \/ DIM_THT * DIM_RAD < k -> polar.in_data s k = in0 k)
    /\ (zero fl <> 0 ->
        forall row col, 1 <= row <= DIM_THT -> row <= 2 \/ 1021 <= row ->
          0 <= col < DIM_RAD ->
          polar.in_data s ((row - 1) * DIM_RAD + col) = (0.0, 0.0)%float).
Proof.
  unfold polar_map.
  destruct (for_incl_e_inv
              (fun r (p : polar.t * double) =>
                 sampled DIM_RAD mat fl (clear_data DIM_RAD DIM_THT in0) r 1 (fst p))
              (fun count_theta (p : polar.t * double) =>
                 let count_theta := count_theta + 1 in
                 let theta_radians := to_float (snd p * GR_RAD)%float in
                 q <- polar_row expf cosf sinf to_float int_of_float DIM_RAD radstep
                        mat x_0 y_0 ctr_val mask fl log_bar log_itrad a
                        count_theta theta_radians (fst p) ;;
                 Val (fst q, to_float (snd p + theta_step)%float))
              1 DIM_THT
              (polar.mk (clear_data DIM_RAD DIM_THT in0) 0 0.0%float, 0.0%float))
    as [[s theta] [E [C [G [F Z]]]]]; [lia | | | ].
  - unfold sampled. cbn [fst polar.counter polar.in_data].
    split; [lia | ]. split; [intros k Hk; lia | ].
    split; [reflexivity | intros; nia].
  - intros j t Hj Ht. cbv zeta.
    destruct (polar_row_sampled (clear_data DIM_RAD DIM_THT in0) j (to_float (snd t * GR_RAD)%float) (fst t))
      as [q [E' S]]; [lia | exact Ht | ].
    rewrite E'. cbn [bind]. eexists. split; [reflexivity | exact S].
  - exists s, theta. cbn [fst] in *. split; [exact E | ].
    assert (C' : polar.counter s = DIM_THT * DIM_RAD) by lia.
    rewrite C' in *. split; [reflexivity | ]. split; [exact G | ].
    split; [ | split].
    + rewrite F by lia. rewrite clear_data_spec.
      replace ((0 <=? DIM_THT * DIM_RAD) && (DIM_THT * DIM_RAD <=? DIM_RAD * DIM_THT))
        with true; [reflexivity | ].
      symmetry. apply andb_true_iff. rewrite !Z.leb_le. nia.
    + intros k Hk. rewrite F by lia. rewrite clear_data_spec.
      replace ((0 <=? k) && (k <=? DIM_RAD * DIM_THT)) with false; [reflexivity | ].
      symmetry. apply andb_false_iff. rewrite Z.leb_gt, Z.leb_gt. nia.
    + intros Hz row col Hrow Hp Hcol. apply Z; try assumption; try lia.
      * unfold padded. lia.
      * nia.
Qed.

End PolarProof.

Lemma polar_map_fills_witness :
  0 <= 2 /\ 0 <= 3 /\ fixed zero_flags = 0 /\ log_rad annulus_20 <> None
  /\ exists s theta,
       polar_map (fun x => x) (fun x => x) (fun x => x) (fun x => x)
         (fun _ => 0) GR_RAD_model 2 3 1%float 1%float dark 1 1 0%float 0
         zero_flags 0%float 4%float annulus_20 (fun _ => (NAN, NAN))
       = Val (s, theta)
       /\ polar.counter s = 3 * 2.
Proof.
  assert (H1 : 0 <= 2) by lia. assert (H2 : 0 <= 3) by lia.
  assert (H3 : fixed zero_flags = 0) by reflexivity.
  assert (H4 : log_rad annulus_20 <> None) by discriminate.
  split; [exact H1 | ]. split; [exact H2 | ]. split; [exact H3 | ].
  split; [exact H4 | ].
  destruct (polar_map_fills (fun x => x) (fun x => x) (fun x => x) (fun x => x)
              (fun _ => 0) GR_RAD_model 2 3 1%float 1%float dark 1 1 0%float 0
              zero_flags 0%float 4%float annulus_20 H1 H2 H3 H4
              (fun _ => (NAN, NAN))) as [s [theta [E [C _]]]].
  exists s, theta. split; [exact E | exact C].
Defined.

(** * [find_bar] *)

Section FindBarProof.

Variables expf cosf sinf log : double -> double.
Variable to_float : double -> double.
Variable int_of_float : double -> Z.
Variable GR_RAD : double.
Variables DIM_RAD DIM_THT : Z.
Variables radstep theta_step : double.
Variable mat : matrix.

Lemma bar_step_lb (log_edge tht_rad : double) (x_org y_org : Z)
  (lim_val : double) (s : bar.t) :
  let s' := bar_step expf cosf sinf to_float int_of_float mat log_edge tht_rad
              x_org y_org lim_val s in
  bar.r s' = bar.r s
  /\ (bar_range log_edge (bar.lb s) -> bar_range log_edge (bar.lb s'))
  /\ (not_nan lim_val = false -> bar.lb s' = bar.lb s).
Proof.
  cbv zeta. unfold bar_step.
  destruct (negb (bar.skip s =? 0)); [auto | ].
  destruct (log_edge <? bar.r s)%float eqn:E; [auto | ].
  cbn [bar.skip bar.lb bar.r bar.curr bar.prev1 bar.prev2 bar.prev3].
  destruct (lim_val <=? _)%float eqn:L.
  - destruct (bar.lb s <? bar.r s)%float eqn:G;
      cbn [bar.skip bar.lb bar.r bar.curr bar.prev1 bar.prev2 bar.prev3].
    + split; [reflexivity | ]. split.
      * intros [Z | [P _]]; right; (split; [ | exact E]).
        -- rewrite Z in G. exact G.
        -- exact (ltb_trans _ _ _ P G).
      * intros N. exfalso. apply not_nan_false in N. subst lim_val.
        rewrite leb_spec in L. discriminate L.
    + auto.
  - cbn [bar.skip bar.lb bar.r bar.curr bar.prev1 bar.prev2 bar.prev3]. auto.
Qed.

Lemma bar_ray_lb (log_edge tht_rad : double) (x_org y_org : Z)
  (lim_val : double) (lb : double) :
  let s := bar_ray expf cosf sinf to_float int_of_float DIM_RAD radstep mat
             log_edge tht_rad x_org y_org lim_val lb in
  (bar_range log_edge lb -> bar_range log_edge (bar.lb s))
  /\ (not_nan lim_val = false -> bar.lb s = lb).
Proof.
  cbv zeta. unfold bar_ray.
  destruct (Z_le_gt_dec 1 (DIM_RAD + 1)) as [L | G].
  2:{ unfold for_incl. replace (Z.to_nat (DIM_RAD + 1 - 1)) with O by lia.
      cbn. auto. }
  apply (for_incl_inv
           (fun (_ : Z) s =>
              (bar_range log_edge lb -> bar_range log_edge (bar.lb s))
              /\ (not_nan lim_val = false -> bar.lb s = lb))); [exact L | | ].
  - cbn. auto.
  - intros j t _ [R N].
    destruct (bar_step_lb log_edge tht_rad x_org y_org lim_val t) as [_ [R' N']].
    cbn [bar.lb]. split.
    + intros H. apply R', R, H.
    + intros H. rewrite (N' H). apply N, H.
Qed.

(** X14.  [find_bar] returns 0.0, or a radius step that is positive and not
    beyond [log (rad)], the edge of the image: the bar never reaches past
    the outer radius.  When the limit is NaN (a central pixel without
    a value), no pixel passes the test and the result is 0.0. *)
Theorem find_bar_range (rad x_org y_org : Z) (lim_val : double) :
  let lb := find_bar expf cosf sinf log to_float int_of_float GR_RAD DIM_RAD
              DIM_THT radstep theta_step mat rad x_org y_org lim_val in
  bar_range (to_float (log (double_of_int rad))) lb
  /\ (not_nan lim_val = false -> lb = 0.0%float).
Proof.
  cbv zeta. unfold find_bar.
  destruct (Z_le_gt_dec 1 (DIM_THT + 1)) as [L | G].
  2:{ unfold for_incl. replace (Z.to_nat (DIM_THT + 1 - 1)) with O by lia.
      cbn. split; [left; reflexivity | reflexivity]. }
  apply (for_incl_inv
           (fun (_ : Z) (p : double * double) =>
              bar_range (to_float (log (double_of_int rad))) (fst p)
              /\ (not_nan lim_val = false -> fst p = 0.0%float)));
    [exact L | | ].
  - cbn. split; [left; reflexivity | reflexivity].
  - intros j t _ [R N]. cbn [fst].
    destruct (bar_ray_lb (to_float (log (double_of_int rad)))
                (to_float (snd t * GR_RAD)%float) x_org y_org lim_val (fst t))
      as [R' N'].
    split; [apply R', R | ]. intros H. rewrite (N' H). apply N, H.
Qed.

End FindBarProof.

(** On an image of constant brightness, with a limit equal to that
    brightness, the bar reaches the last radius step before the edge. *)
Example find_bar_flat :
  find_bar (fun x => x) (fun x => x) (fun x => x) (fun x => x) (fun x => x)
    (fun _ => 0) GR_RAD_model 8 4 1%float 1%float flat_5 3 1 1 5%float
  = 3%float.
Proof. vm_compute. reflexivity. Qed.

(** * The image and its geometry *)

Section LoadImage.

Variable data : Z -> double.
Variables x_dim y_dim : Z.
Variable mat0 : matrix.
Hypothesis x_dim_nonneg : 0 <= x_dim.
Hypothesis y_dim_nonneg : 0 <= y_dim.

Ltac zb :=
  repeat match goal with
    | |- context [?a <=? ?b] => destruct (Z.leb_spec a b)
    | |- context [?a <? ?b] => destruct (Z.ltb_spec a b)
    | |- context [?a =? ?b] => destruct (Z.eqb_spec a b)
    end; cbn [andb orb]; try reflexivity; try lia.

Lemma load_row (j : Z) (s : image.t) :
  1 <= j -> rows_loaded data x_dim mat0 j s ->
  rows_loaded data x_dim mat0 (j + 1)
    (for_incl 1 x_dim
       (fun i s =>
          image.mk (upd_mat (image.mat s) i j (data (image.counter s)))
            (image.counter s + 1)) s).
Proof.
  intros Hj [C M].
  assert (R : row_loaded data x_dim mat0 j (x_dim + 1)
                (for_incl 1 x_dim
                   (fun i s =>
                      image.mk (upd_mat (image.mat s) i j (data (image.counter s)))
                        (image.counter s + 1)) s)).
  { apply (for_incl_inv (row_loaded data x_dim mat0 j)); [lia | | ].
    - split; [lia | ]. intros i' j'. rewrite M. zb.
    - intros i t Hi [C' M']. unfold row_loaded. cbn [image.counter image.mat].
      split; [lia | ].
      intros i' j'. unfold upd_mat. rewrite M', C'.
      destruct (Z.eqb_spec i' i) as [-> | Hne];
        [destruct (Z.eqb_spec j' j) as [-> | Hne'] | ]; cbn [andb].
      + zb.
      + zb.
      + zb. }
  destruct R as [C' M']. split; [lia | ].
  intros i' j'. rewrite M'. zb.
Qed.

Lemma load_image_rows :
  rows_loaded data x_dim mat0 (y_dim + 1) (load_image data x_dim y_dim mat0).
Proof.
  unfold load_image. apply (for_incl_inv (rows_loaded data x_dim mat0)); [lia | | ].
  - unfold rows_loaded. cbn [image.counter image.mat].
    split; [lia | ]. intros i' j'. zb.
  - intros j t Hj H. apply load_row; [lia | exact H].
Qed.

(** X15.  The copy loop stores the pixel list row by row, first index
    fastest: cell [(i, j)] with [1 <= i <= x_dim] and [1 <= j <= y_dim]
    receives entry [(j - 1) * x_dim + (i - 1)] of the list, counted from
    entry 0; row 0, column 0 and every other cell are left as they were;
    [counter] ends at [x_dim * y_dim]. *)
Theorem load_image_layout :
  let s := load_image data x_dim y_dim mat0 in
  image.counter s = x_dim * y_dim
  /\ (forall i j, 1 <= i <= x_dim -> 1 <= j <= y_dim ->
        image.mat s i j = data ((j - 1) * x_dim + (i - 1)))
  /\ (forall i j, ~ (1 <= i <= x_dim /\ 1 <= j <= y_dim) ->
        image.mat s i j = mat0 i j).
Proof.
  cbv zeta. destruct load_image_rows as [C M]. split; [lia | ]. split.
  - intros i j Hi Hj. rewrite M.
    replace ((1 <=? i) && (i <=? x_dim) && (1 <=? j) && (j <? y_dim + 1))
      with true; [reflexivity | ].
    symmetry. repeat (apply andb_true_iff; split);
      try (apply Z.leb_le; lia). apply Z.ltb_lt. lia.
  - intros i j H. rewrite M. zb.
Qed.

End LoadImage.

Lemma load_image_layout_witness :
  0 <= 3 /\ 0 <= 2
  /\ image.counter (load_image ramp 3 2 dark) = 3 * 2
  /\ image.mat (load_image ramp 3 2 dark) 2 2 = ramp ((2 - 1) * 3 + (2 - 1)).
Proof.
  assert (H1 : 0 <= 3) by lia. assert (H2 : 0 <= 2) by lia.
  split; [exact H1 | ]. split; [exact H2 | ].
  pose proof (load_image_layout ramp 3 2 dark H1 H2) as [A [B _]].
  split; [exact A | ]. apply B; lia.
Defined.

(** X16.  For an image of at least one pixel each way, the radius the
    program computes and the centre it uses keep the disc inside the image:
    from the centre, [radius] pixels in each direction are cells of the
    array that the copy loop filled. *)
Theorem image_radius_inside (x_dim y_dim : Z) :
  1 <= x_dim -> 1 <= y_dim ->
  let r := image_radius x_dim y_dim in
  0 <= r
  /\ 1 <= centre x_dim - r /\ centre x_dim + r <= x_dim
  /\ 1 <= centre y_dim - r /\ centre y_dim + r <= y_dim.
Proof.
  intros Hx Hy. cbv zeta. unfold image_radius, centre.
  pose proof (Z.quot_pos (x_dim - 1) 2).
  pose proof (Z.quot_pos (y_dim - 1) 2).
  pose proof (Z.quot_le_mono (x_dim - 1) (y_dim - 1) 2).
  pose proof (Z.quot_le_mono (y_dim - 1) (x_dim - 1) 2).
  pose proof (Z.mul_quot_le (x_dim - 1) 2).
  pose proof (Z.mul_quot_le (y_dim - 1) 2).
  destruct (Z.ltb_spec x_dim y_dim); lia.
Qed.

Lemma image_radius_inside_witness :
  1 <= 101 /\ 1 <= 64
  /\ image_radius 101 64 = 31 /\ centre 101 = 51 /\ centre 64 = 32
  /\ centre 64 + image_radius 101 64 <= 64.
Proof.
  assert (H1 : 1 <= 101) by lia. assert (H2 : 1 <= 64) by lia.
  split; [exact H1 | ]. split; [exact H2 | ].
  split; [reflexivity | ]. split; [reflexivity | ]. split; [reflexivity | ].
  exact (proj2 (proj2 (proj2 (proj2 (image_radius_inside 101 64 H1 H2))))).
Defined.

(** * The loop over the radii *)

Section RadiusLoopProof.

Variable GR_RAD : double.
Variable atan2 : double -> double -> double.
Variable pow : double -> double -> double.
Variable log : double -> double.
Variable to_float : double -> double.
Variables M_INI M_FIN : Z.
Variable fl : flags.
Variable items_radius : Z.
Variable analysed : Z -> Z -> fft_array.

Lemma mode_loop_cells (radius : Z) (s : radii.t) :
  forall m r,
    radii.mode_data
      (for_incl M_INI M_FIN (mode_body GR_RAD atan2 pow analysed radius) s) m r
    = if (r =? radius) && (M_INI <=? m) && (m <=? M_FIN)
      then computed_cell GR_RAD atan2 pow analysed m r else radii.mode_data s m r.
Proof.
  destruct (Z_le_gt_dec M_INI (M_FIN + 1)) as [L | G].
  2:{ intros m r. unfold for_incl.
      replace (Z.to_nat (M_FIN + 1 - M_INI)) with O by lia. cbn [for_loop].
      destruct (r =? radius), (Z.leb_spec M_INI m), (Z.leb_spec m M_FIN);
        cbn [andb]; try reflexivity; lia. }
  assert (H : forall m r,
            radii.mode_data
              (for_incl M_INI M_FIN (mode_body GR_RAD atan2 pow analysed radius) s)
              m r
            = if (r =? radius) && (M_INI <=? m) && (m <? M_FIN + 1)
              then computed_cell GR_RAD atan2 pow analysed m r else radii.mode_data s m r).
  { apply (for_incl_inv
             (fun i t => forall m r,
                radii.mode_data t m r
                = if (r =? radius) && (M_INI <=? m) && (m <? i)
                  then computed_cell GR_RAD atan2 pow analysed m r else radii.mode_data s m r)); [exact L | | ].
    - intros m r.
      destruct (r =? radius), (Z.leb_spec M_INI m), (Z.ltb_spec m M_INI);
        cbn [andb]; try reflexivity; lia.
    - intros j t Hj Ht m r. unfold mode_body. cbn [radii.mode_data].
      destruct (Z.eqb_spec m j) as [-> | Hm];
        [destruct (Z.eqb_spec r radius) as [-> | Hr] | ]; cbn [andb].
      + replace ((M_INI <=? j) && (j <? j + 1)) with true
          by (symmetry; apply andb_true_iff; rewrite Z.leb_le, Z.ltb_lt; lia).
        unfold computed_cell.
        apply (proj1 (extract_fresh GR_RAD atan2 pow (analysed radius j) j _ st0)).
      + rewrite Ht.
        replace (r =? radius) with false by (symmetry; apply Z.eqb_neq; exact Hr).
        reflexivity.
      + rewrite Ht.
        destruct (r =? radius), (Z.leb_spec M_INI m), (Z.ltb_spec m j),
          (Z.ltb_spec m (j + 1)); cbn [andb]; try reflexivity; lia. }
  intros m r. rewrite H.
  destruct (r =? radius), (Z.leb_spec M_INI m), (Z.ltb_spec m (M_FIN + 1)),
    (Z.leb_spec m M_FIN); cbn [andb]; try reflexivity; lia.
Qed.

Lemma radius_body_cells (radius : Z) (s : radii.t) :
  forall m r,
    radii.mode_data
      (radius_body GR_RAD atan2 pow log to_float M_INI M_FIN fl items_radius
         analysed radius s) m r
    = if (r =? radius) && (M_INI <=? m) && (m <=? M_FIN)
         && match annulus_entry log to_float fl items_radius radius with
            | None => false
            | Some _ => true
            end
      then computed_cell GR_RAD atan2 pow analysed m r else radii.mode_data s m r.
Proof.
  intros m r. unfold radius_body.
  destruct (annulus_entry log to_float fl items_radius radius).
  - rewrite mode_loop_cells, andb_true_r. reflexivity.
  - rewrite andb_false_r. reflexivity.
Qed.

Lemma radius_loop_cells (s : radii.t) :
  forall m r,
    radii.mode_data
      (radius_loop GR_RAD atan2 pow log to_float M_INI M_FIN fl items_radius
         analysed s) m r
    = if computed log to_float M_INI M_FIN fl items_radius m r
      then computed_cell GR_RAD atan2 pow analysed m r else radii.mode_data s m r.
Proof.
  unfold radius_loop, computed.
  destruct (Z_le_gt_dec 1 (items_radius - 1 + 1)) as [L | G].
  2:{ intros m r. unfold for_incl.
      replace (Z.to_nat (items_radius - 1 + 1 - 1)) with O by lia.
      cbn [for_loop].
      destruct (Z.leb_spec 1 r), (Z.ltb_spec r items_radius);
        rewrite ?andb_false_r; cbn [andb]; try reflexivity; lia. }
  assert (H : forall m r,
            radii.mode_data
              (for_incl 1 (items_radius - 1)
                 (radius_body GR_RAD atan2 pow log to_float M_INI M_FIN fl
                    items_radius analysed) s) m r
            = if (M_INI <=? m) && (m <=? M_FIN)
                 && (1 <=? r) && (r <? items_radius - 1 + 1)
                 && match annulus_entry log to_float fl items_radius r with
                    | None => false
                    | Some _ => true
                    end
              then computed_cell GR_RAD atan2 pow analysed m r else radii.mode_data s m r).
  { apply (for_incl_inv
             (fun i t => forall m r,
                radii.mode_data t m r
                = if (M_INI <=? m) && (m <=? M_FIN)
                     && (1 <=? r) && (r <? i)
                     && match annulus_entry log to_float fl items_radius r with
                        | None => false
                        | Some _ => true
                        end
                  then computed_cell GR_RAD atan2 pow analysed m r else radii.mode_data s m r)); [exact L | | ].
    - intros m r.
      destruct (Z.leb_spec 1 r), (Z.ltb_spec r 1);
        rewrite ?andb_false_r; cbn [andb]; try reflexivity; lia.
    - intros j t Hj Ht m r. rewrite radius_body_cells, Ht.
      destruct (Z.eqb_spec r j) as [-> | Hr]; cbn [andb].
      + replace (1 <=? j) with true by (symmetry; apply Z.leb_le; lia).
        replace (j <? j) with false by (symmetry; apply Z.ltb_ge; lia).
        replace (j <? j + 1) with true by (symmetry; apply Z.ltb_lt; lia).
        rewrite !andb_true_r, andb_false_r. cbn [andb].
        destruct ((M_INI <=? m) && (m <=? M_FIN) && _); reflexivity.
      + replace (r <? j + 1) with (r <? j); [reflexivity | ].
        destruct (Z.ltb_spec r j), (Z.ltb_spec r (j + 1)); try reflexivity; lia. }
  intros m r. rewrite H.
  replace (items_radius - 1 + 1) with items_radius by lia. reflexivity.
Qed.

(** X17.  After the loop over the radii, the cell of a mode in
    [M_INI .. M_FIN] and of a radius [r] with [1 <= r < items_radius] that
    the fixed-width test does not skip holds what the caller's sequence
    computes for it, whatever it held before.  Every other cell is as it was
    before the loop; among them the cells of the radius [items_radius]
    itself, which the output loop prints as the last row of each mode. *)
Theorem radius_loop_rows (s : radii.t) :
  let s' := radius_loop GR_RAD atan2 pow log to_float M_INI M_FIN fl
              items_radius analysed s in
  (forall m r st, computed log to_float M_INI M_FIN fl items_radius m r = true ->
     radii.mode_data s' m r
     = res (fst (extract GR_RAD atan2 pow (analysed r m) m st)))
  /\ (forall m r, computed log to_float M_INI M_FIN fl items_radius m r = false ->
        radii.mode_data s' m r = radii.mode_data s m r)
  /\ (forall m, computed log to_float M_INI M_FIN fl items_radius m items_radius
                = false)
  /\ (forall i d, 1 <= items_radius ->
        length (mode_rows items_radius (radii.mode_data s') i)
        = Z.to_nat items_radius
        /\ last (mode_rows items_radius (radii.mode_data s') i) d
           = radii.mode_data s i items_radius).
Proof.
  cbv zeta.
  assert (N : forall m, computed log to_float M_INI M_FIN fl items_radius m
                          items_radius = false).
  { intros m. unfold computed. rewrite Z.ltb_irrefl, andb_false_r. reflexivity. }
  split; [ | split; [ | split; [exact N | ]]].
  - intros m r st C. rewrite radius_loop_cells, C. unfold computed_cell.
    apply (proj1 (extract_fresh GR_RAD atan2 pow (analysed r m) m st0 st)).
  - intros m r C. rewrite radius_loop_cells, C. reflexivity.
  - intros i d H. unfold mode_rows. rewrite length_map, range_length.
    split; [reflexivity | ].
    replace (Z.to_nat items_radius) with (S (Z.to_nat (items_radius - 1))) by lia.
    assert (R : forall n k, range (S n) k = range n k ++ [k + Z.of_nat n]).
    { induction n as [ | n IH]; intros k.
      - cbn. f_equal. lia.
      - cbn [range]. rewrite <- app_comm_cons. f_equal.
        change (k + 1 :: range n (k + 1 + 1)) with (range (S n) (k + 1)).
        rewrite IH. do 2 f_equal. lia. }
    rewrite R, map_app. cbn [map]. rewrite last_last.
    replace (1 + Z.of_nat (Z.to_nat (items_radius - 1))) with items_radius by lia.
    rewrite radius_loop_cells, N. reflexivity.
Qed.

(** X18.  With the fixed-width option and an image whose radius is at most
    the width rounded down to an even number, plus one, the test of line
    1263 skips every radius: the loop computes nothing, and every cell of the
    table is what it was before this file. *)
Theorem fixed_width_skips_all (s : radii.t) :
  0 < fixed fl -> items_radius <= 2 * Z.quot (fixed fl) 2 + 1 ->
  (forall radius,
     annulus_entry log to_float fl items_radius radius = None)
  /\ forall m r,
       radii.mode_data
         (radius_loop GR_RAD atan2 pow log to_float M_INI M_FIN fl items_radius
            analysed s) m r
       = radii.mode_data s m r.
Proof.
  intros Hf Hr.
  assert (A : forall radius,
            annulus_entry log to_float fl items_radius radius = None).
  { intros radius. unfold annulus_entry.
    replace (fixed fl =? 0) with false by (symmetry; apply Z.eqb_neq; lia).
    cbn [negb andb].
    destruct (Z.leb_spec radius (Z.quot (fixed fl) 2)); [reflexivity | ].
    destruct (Z.leb_spec (items_radius - Z.quot (fixed fl) 2) radius);
      [reflexivity | lia]. }
  split; [exact A | ].
  intros m r. rewrite radius_loop_cells. unfold computed. rewrite A.
  rewrite andb_false_r. reflexivity.
Qed.

End RadiusLoopProof.

Lemma radius_loop_rows_witness :
  1 <= 5
  /\ last (mode_rows 5
             (radii.mode_data
                (radius_loop GR_RAD_model atan2_model pow_model (fun x => x)
                   (fun x => x) 0 2 (mk_flags 0 0 0 0) 5 all_peak
                   (radii.mk md0 0))) 2) res0
     = md0 2 5.
Proof.
  assert (H : 1 <= 5) by lia. split; [exact H | ].
  pose proof (radius_loop_rows GR_RAD_model atan2_model pow_model (fun x => x)
                (fun x => x) 0 2 (mk_flags 0 0 0 0) 5 all_peak (radii.mk md0 0))
    as [_ [_ [_ R]]].
  exact (proj2 (R 2 res0 H)).
Defined.

Lemma fixed_width_skips_all_witness :
  0 < fixed fixed_flags /\ 11 <= 2 * Z.quot (fixed fixed_flags) 2 + 1
  /\ radii.mode_data
       (radius_loop GR_RAD_model atan2_model pow_model (fun x => x)
          (fun x => x) 0 2 fixed_flags 11 all_peak (radii.mk md0 0)) 1 6
     = md0 1 6.
Proof.
  assert (H1 : 0 < fixed fixed_flags) by reflexivity.
  assert (H2 : 11 <= 2 * Z.quot (fixed fixed_flags) 2 + 1)
    by (vm_compute; discriminate).
  split; [exact H1 | ]. split; [exact H2 | ].
  exact (proj2 (fixed_width_skips_all GR_RAD_model atan2_model pow_model
                  (fun x => x) (fun x => x) 0 2 fixed_flags 11 all_peak
                  (radii.mk md0 0) H1 H2) 1 6).
Defined.

(** * [remove_extension] *)

Section StringFacts.

Import Ascii.

Variable c : ascii.

Lemma find_last_of_lt (s : std_string.t) (n : nat) :
  std_string.find_last_of c s = Some n -> (n < length s)%nat.
Proof.
  revert n. induction s as [ | a s IH]; intros n; simpl; [discriminate | ].
  destruct (std_string.find_last_of c s) as [m | ].
  - intros E. injection E as <-. specialize (IH m eq_refl). lia.
  - destruct (a =? c)%char; [ | discriminate]. intros E. injection E as <-. lia.
Qed.

Lemma find_last_of_none (s : std_string.t) :
  std_string.find_last_of c s = None <-> ~ In c s.
Proof.
  induction s as [ | a s IH]; simpl; [tauto | ].
  destruct (std_string.find_last_of c s) as [m | ].
  - split; [discriminate | ]. intros H. exfalso. apply H. right.
    destruct (in_dec ascii_dec c s) as [I | I]; [exact I | ].
    apply IH in I. discriminate I.
  - destruct (eqb_spec a c) as [-> | Hne].
    + split; [discriminate | ]. intros H. exfalso. apply H. left. reflexivity.
    + split; [ | reflexivity]. intros _ [H | H]; [contradiction | ].
      apply (proj1 IH eq_refl). exact H.
Qed.

(** Characters after the last [c] do not matter. *)
Lemma find_last_of_app_notin (a b : std_string.t) :
  ~ In c b -> std_string.find_last_of c (a ++ b) = std_string.find_last_of c a.
Proof.
  intros H. induction a as [ | x a IH]; simpl.
  - apply find_last_of_none. exact H.
  - rewrite IH. reflexivity.
Qed.

Lemma find_last_of_app_in (a b : std_string.t) :
  In c b ->
  exists k, std_string.find_last_of c (a ++ b) = Some (length a + k)%nat.
Proof.
  intros H. induction a as [ | x a [k IH]]; simpl.
  - destruct (std_string.find_last_of c b) as [m | ] eqn:E.
    + exists m. reflexivity.
    + apply find_last_of_none in E. contradiction.
  - rewrite IH. exists k. reflexivity.
Qed.

Lemma find_last_of_last (a b : std_string.t) :
  ~ In c b ->
  std_string.find_last_of c (a ++ c :: b) = Some (length a).
Proof.
  intros H. induction a as [ | x a IH]; simpl.
  - apply find_last_of_none in H. rewrite H, eqb_refl. reflexivity.
  - rewrite IH. reflexivity.
Qed.

End StringFacts.

(** X19.  [remove_extension] undoes the appending of an extension: for an
    extension without a dot and without a slash, the name [base.ext] gives
    back [base], whatever [base] is (dots and slashes included). *)
Theorem remove_extension_round_trip (base ext : std_string.t) :
  ~ In std_string.dot ext -> ~ In std_string.slash ext ->
  remove_extension (base ++ std_string.dot :: ext) = base.
Proof.
  intros Hd Hs. unfold remove_extension.
  rewrite (find_last_of_last _ _ _ Hd).
  rewrite (find_last_of_app_notin std_string.slash base (std_string.dot :: ext)).
  2:{ intros [E | I]; [discriminate E | contradiction]. }
  assert (F : firstn (length base) (base ++ std_string.dot :: ext) = base).
  { rewrite firstn_app, Nat.sub_diag, firstn_all. simpl. apply app_nil_r. }
  destruct (std_string.find_last_of std_string.slash base) as [p | ] eqn:E;
    [ | exact F].
  apply find_last_of_lt in E.
  replace (length base <? p)%nat with false by (symmetry; apply Nat.ltb_ge; lia).
  exact F.
Qed.

(** X20.  [remove_extension] returns the name as it is when the name has no
    dot, and when its last dot lies in the directory part: for a last
    component without a dot, dots before the last slash are kept. *)
Theorem remove_extension_keeps_path (dir name : std_string.t) :
  ~ In std_string.dot name ->
  remove_extension name = name
  /\ remove_extension (dir ++ std_string.slash :: name)
     = dir ++ std_string.slash :: name.
Proof.
  intros Hd. unfold remove_extension. split.
  - apply find_last_of_none in Hd. rewrite Hd. reflexivity.
  - rewrite (find_last_of_app_notin std_string.dot dir (std_string.slash :: name)).
    2:{ intros [E | I]; [discriminate E | contradiction]. }
    destruct (std_string.find_last_of std_string.dot dir) as [n | ] eqn:E;
      [ | reflexivity].
    apply find_last_of_lt in E.
    destruct (find_last_of_app_in std_string.slash dir (std_string.slash :: name))
      as [k ->]; [left; reflexivity | ].
    replace (n <? length dir + k)%nat with true
      by (symmetry; apply Nat.ltb_lt; lia).
    reflexivity.
Qed.

Lemma remove_extension_round_trip_witness :
  ~ In std_string.dot lit_fits /\ ~ In std_string.slash lit_fits
  /\ remove_extension (run_1 ++ std_string.dot :: lit_fits) = run_1.
Proof.
  assert (H1 : ~ In std_string.dot lit_fits) by (vm_compute; intuition discriminate).
  assert (H2 : ~ In std_string.slash lit_fits) by (vm_compute; intuition discriminate).
  split; [exact H1 | ]. split; [exact H2 | ].
  exact (remove_extension_round_trip run_1 lit_fits H1 H2).
Defined.

Lemma remove_extension_keeps_path_witness :
  ~ In std_string.dot img
  /\ remove_extension (run_1 ++ std_string.slash :: img)
     = run_1 ++ std_string.slash :: img.
Proof.
  assert (H : ~ In std_string.dot img) by (vm_compute; intuition discriminate).
  split; [exact H | ].
  exact (proj2 (remove_extension_keeps_path run_1 img H)).
Defined.

(** * [read_lines] *)

Section FindFacts.

Import Ascii.

Variable c : ascii.

Lemma find_none (s : std_string.t) :
  ~ In c s -> std_string.find c s = None.
Proof.
  induction s as [ | a s IH]; simpl; [reflexivity | ]. intros H.
  destruct (eqb_spec a c) as [-> | Hne]; [exfalso; apply H; left; reflexivity | ].
  rewrite IH; [reflexivity | ]. intros I. apply H. right. exact I.
Qed.

Lemma find_first (a b : std_string.t) :
  ~ In c a -> std_string.find c (a ++ c :: b) = Some (length a).
Proof.
  induction a as [ | x a IH]; simpl; intros H.
  - rewrite eqb_refl. reflexivity.
  - destruct (eqb_spec x c) as [-> | Hne]; [exfalso; apply H; left; reflexivity | ].
    rewrite IH; [reflexivity | ]. intros I. apply H. right. exact I.
Qed.

Lemma find_firstn (s : std_string.t) (n : nat) :
  std_string.find c s = Some n -> ~ In c (firstn n s).
Proof.
  revert n. induction s as [ | a s IH]; simpl; intros n; [discriminate | ].
  destruct (eqb_spec a c) as [-> | Hne].
  - intros E. injection E as <-. simpl. tauto.
  - destruct (std_string.find c s) as [m | ]; [ | discriminate].
    simpl. intros E. injection E as <-. simpl. intros [H | H]; [contradiction | ].
    exact (IH m eq_refl H).
Qed.

Lemma find_notin (s : std_string.t) :
  std_string.find c s = None -> ~ In c s.
Proof.
  induction s as [ | a s IH]; simpl; [tauto | ].
  destruct (eqb_spec a c) as [-> | Hne]; [discriminate | ].
  destruct (std_string.find c s) as [m | ]; [discriminate | ].
  intros _ [H | H]; [contradiction | exact (IH eq_refl H)].
Qed.

End FindFacts.

Section ReadLinesProof.

Variable fs : std_string.t -> cfitsio.
Variable atoi : std_string.t -> Z.

Lemma getline_first (name rest : std_string.t) :
  ~ In std_string.comma name ->
  getline (Some (name ++ std_string.comma :: rest)) std_string.comma []
  = (name, Some rest).
Proof.
  intros H. unfold getline. rewrite (find_first _ _ _ H).
  rewrite firstn_app, Nat.sub_diag, firstn_all. simpl firstn. rewrite app_nil_r.
  f_equal. f_equal.
  change (S (length name)) with (1 + length name)%nat.
  rewrite <- skipn_skipn. rewrite skipn_app, Nat.sub_diag, skipn_all.
  reflexivity.
Qed.

Lemma getline_last (name : std_string.t) :
  ~ In std_string.comma name ->
  getline (Some name) std_string.comma [] = (name, None).
Proof. intros H. unfold getline. rewrite (find_none _ _ H). reflexivity. Qed.

Lemma getline_name (line : std_string.t) :
  ~ In std_string.comma (fst (getline (Some line) std_string.comma [])).
Proof.
  unfold getline. destruct (std_string.find std_string.comma line) as [n | ] eqn:E.
  - apply find_firstn in E. exact E.
  - apply find_notin in E. exact E.
Qed.

Lemma fits_dims_header (name result : std_string.t) (e : Z) :
  (let '(status, dims, e') := fits_dims (fs name) e in
   if negb (status =? 0)
   then (Some (file_rec.mk 0 name outi result (-1) 0), e')
   else
     let x := match dims with Some (x, _) => x | None => 0 end in
     (Some (file_rec.mk 1 name outi result (Z.quot (x - 1) 2) 1), e'))
  = (Some (header_record fs name result), snd (fits_dims (fs name) e)).
Proof.
  unfold header_record, fits_dims.
  destruct (fs name) as [ | | n0 n1 [ | ]]; reflexivity.
Qed.

Lemma header_record_ok (name result : std_string.t) :
  ~ In std_string.comma name -> file_rec_ok (header_record fs name result).
Proof.
  intros H. unfold header_record, file_rec_ok.
  destruct (fs name) as [ | | n0 n1 [ | ]]; cbn; intuition.
Qed.

Lemma read_line_ok (line : std_string.t) (e : Z) (f : file_rec.t) :
  fst (read_line fs atoi line e) = Some f -> file_rec_ok f.
Proof.
  unfold read_line. destruct line as [ | a l]; [discriminate | ].
  pose proof (getline_name (a :: l)) as N. revert N.
  destruct (getline (Some (a :: l)) std_string.comma []) as [name ss].
  cbn [fst]. intros N.
  destruct (getline ss std_string.comma []) as [result ss'].
  destruct (getline ss' std_string.comma []) as [token ss''].
  destruct ((_ =? 1) || _).
  - rewrite fits_dims_header. cbn [fst]. intros E. injection E as <-.
    apply header_record_ok. exact N.
  - cbn [fst]. intros E. injection E as <-. unfold file_rec_ok. cbn.
    split; [reflexivity | ]. split; [exact N | ].
    split; [destruct (_ || _); auto | auto].
Qed.

Lemma read_line_record (l : std_string.t) (e : Z) :
  l <> [] -> exists f, fst (read_line fs atoi l e) = Some f
                       /\ line_record fs atoi l f.
Proof.
  intros Hl. destruct l as [ | a l]; [contradiction | ].
  assert (K : forall e', exists f,
             fst (read_line fs atoi (a :: l) e') = Some f
             /\ (forall e'', fst (read_line fs atoi (a :: l) e'') = Some f)
             /\ file_rec.name f
                = std_string.substr (a :: l)
                    (std_string.find std_string.comma (a :: l))).
  { intros e'. unfold read_line.
    assert (N : fst (getline (Some (a :: l)) std_string.comma [])
                = std_string.substr (a :: l)
                    (std_string.find std_string.comma (a :: l))).
    { unfold getline, std_string.substr.
      destruct (std_string.find std_string.comma (a :: l)); reflexivity. }
    revert N.
    destruct (getline (Some (a :: l)) std_string.comma []) as [name ss].
    cbn [fst]. intros N.
    destruct (getline ss std_string.comma []) as [result ss'].
    destruct (getline ss' std_string.comma []) as [token ss''].
    destruct ((_ =? 1) || _).
    - rewrite fits_dims_header. eexists. split; [reflexivity | ].
      split.
      + intros e''. rewrite fits_dims_header. reflexivity.
      + unfold header_record. rewrite <- N.
        destruct (fs name) as [ | | n0 n1 [ | ]]; reflexivity.
    - eexists. split; [reflexivity | ]. split; [reflexivity | exact N]. }
  destruct (K e) as [f [E [A B]]]. exists f. split; [exact E | ].
  split; [exact A | ]. split; [exact B | ].
  apply (read_line_ok (a :: l) e). exact E.
Qed.

(** X21.  [read_lines] fails only when the file cannot be opened, and then
    pushes nothing and sets [ASTRO_ERR_OPEN].  Otherwise it keeps the records
    it was given and pushes one record for each line that is not empty, in
    the order of the lines: the n-th record pushed is the record of the n-th
    line that is not empty, the one the loop body builds from that line
    whatever the error code was, and its name is the text of the line
    before its first comma.  Every record pushed has the keyword [outi], a
    name without a comma and a binary flag of 0 or 1, and a record that is
    not valid has radius -1 and is not binary. *)
Theorem read_lines_records (lines : list std_string.t)
  (rec : list file_rec.t) (e : Z) :
  read_lines fs atoi None rec e = (ASTRO_FAILURE, rec, ASTRO_ERR_OPEN)
  /\ fst (fst (read_lines fs atoi (Some lines) rec e)) = ASTRO_SUCCESS
  /\ exists new,
       snd (fst (read_lines fs atoi (Some lines) rec e)) = rec ++ new
       /\ Forall2 (line_record fs atoi) (written lines) new
       /\ length new = length (written lines)
       /\ Forall file_rec_ok new.
Proof.
  split; [reflexivity | ]. unfold read_lines.
  match goal with
  | |- context [fold_left ?f lines (rec, e)] =>
      assert (H : exists new,
                fst (fold_left f lines (rec, e)) = rec ++ new
                /\ Forall2 (line_record fs atoi) (written lines) new);
      [ | destruct (fold_left f lines (rec, e)); split; [reflexivity | ]]
  end.
  - revert rec e. induction lines as [ | l lines IH]; intros rec e.
    + exists []. cbn. rewrite app_nil_r. split; [reflexivity | constructor].
    + cbn [fold_left snd fst]. destruct l as [ | a l].
      * cbn [read_line written filter]. exact (IH rec e).
      * destruct (read_line_record (a :: l) e) as [f [E R]]; [discriminate | ].
        destruct (read_line fs atoi (a :: l) e) as [o e'].
        cbn [fst] in E. subst o.
        destruct (IH (rec ++ [f]) e') as [new [E' F]].
        exists (f :: new). rewrite E', <- app_assoc. split; [reflexivity | ].
        cbn [written filter]. constructor; assumption.
  - destruct H as [new [E F]]. exists new. split; [exact E | ].
    split; [exact F | ]. split.
    + symmetry. exact (Forall2_length F).
    + clear E. induction F as [ | x f xs ys R F IH]; constructor.
      * apply R.
      * exact IH.
Qed.

(** X22.  A line [name,result,radius] with three fields that are not empty
    (name and result without a comma): the record holds the name and the
    result as written, the radius [atoi] reads, is valid, and is binary
    exactly when the text after the last dot of the name is [fits] or
    [fts]; the FITS header is not consulted and the error code is left
    alone. *)
Theorem read_line_explicit (name result radius : std_string.t) (e : Z) :
  name <> [] -> result <> [] -> radius <> [] ->
  ~ In std_string.comma name -> ~ In std_string.comma result ->
  ~ In std_string.comma radius ->
  read_line fs atoi
    (name ++ std_string.comma :: result ++ std_string.comma :: radius) e
  = (Some (file_rec.mk 1 name outi result (atoi radius)
             (if std_string.eqb
                   (std_string.substr_from_next name
                      (std_string.find_last_of std_string.dot name)) lit_fits
                 || std_string.eqb
                      (std_string.substr_from_next name
                         (std_string.find_last_of std_string.dot name)) lit_fts
              then 1 else 0)), e).
Proof.
  intros Hn Hr Hd Cn Cr Cd. unfold read_line.
  destruct (name ++ std_string.comma :: result ++ std_string.comma :: radius)
    as [ | a l] eqn:L; [destruct name; discriminate L | ].
  rewrite <- L. clear L a l.
  rewrite (getline_first _ _ Cn), (getline_first _ _ Cr), (getline_last _ Cd).
  destruct result as [ | r0 result]; [contradiction | ].
  destruct radius as [ | d0 radius]; [contradiction | ].
  reflexivity.
Qed.

(** X23.  A line that holds a name alone, or a name followed by an empty
    second field: the result prefix is the text of the whole line before its
    first dot, and radius, validity and binary flag come from the FITS
    header of the name; a third field is not read as a radius. *)
Theorem read_line_computed (name third : std_string.t) (e : Z) :
  name <> [] -> ~ In std_string.comma name ->
  read_line fs atoi name e
  = (Some (header_record fs name
             (std_string.substr name (std_string.find std_string.dot name))),
     snd (fits_dims (fs name) e))
  /\ let line := name ++ std_string.comma :: std_string.comma :: third in
     read_line fs atoi line e
     = (Some (header_record fs name
                (std_string.substr line (std_string.find std_string.dot line))),
        snd (fits_dims (fs name) e)).
Proof.
  intros Hn Cn. split.
  - unfold read_line. destruct name as [ | a l] eqn:L; [contradiction | ].
    rewrite <- L in *. clear L a l.
    rewrite (getline_last _ Cn). cbn [getline Z.eqb orb].
    apply fits_dims_header.
  - cbv zeta. unfold read_line.
    destruct (name ++ std_string.comma :: std_string.comma :: third)
      as [ | a l] eqn:L; [destruct name; discriminate L | ].
    rewrite <- L. clear L a l.
    rewrite (getline_first _ _ Cn).
    replace (getline (Some (std_string.comma :: third)) std_string.comma [])
      with (@nil Ascii.ascii, Some third) by reflexivity.
    destruct (getline (Some third) std_string.comma []) as [token ss].
    cbn [Z.eqb orb]. apply fits_dims_header.
Qed.

End ReadLinesProof.

Lemma read_line_explicit_witness :
  (img_fits <> [] /\ img <> [] /\ lit_fits <> [])
  /\ (~ In std_string.comma img_fits /\ ~ In std_string.comma img
      /\ ~ In std_string.comma lit_fits)
  /\ read_line fs_101 atoi_text line_full 0
     = (Some (file_rec.mk 1 img_fits outi img 0 1), 0).
Proof.
  assert (A1 : img_fits <> []) by discriminate.
  assert (A2 : img <> []) by discriminate.
  assert (A3 : lit_fits <> []) by discriminate.
  assert (B1 : ~ In std_string.comma img_fits) by (vm_compute; intuition discriminate).
  assert (B2 : ~ In std_string.comma img) by (vm_compute; intuition discriminate).
  assert (B3 : ~ In std_string.comma lit_fits) by (vm_compute; intuition discriminate).
  split; [repeat split; assumption | ]. split; [repeat split; assumption | ].
  exact (read_line_explicit fs_101 atoi_text img_fits img lit_fits 0
           A1 A2 A3 B1 B2 B3).
Defined.

Lemma read_line_computed_witness :
  (img_fits <> [] /\ ~ In std_string.comma img_fits)
  /\ read_line fs_101 atoi_text img_fits 0
     = (Some (file_rec.mk 1 img_fits outi img 50 1), 0).
Proof.
  assert (A1 : img_fits <> []) by discriminate.
  assert (B1 : ~ In std_string.comma img_fits) by (vm_compute; intuition discriminate).
  split; [split; assumption | ].
  exact (proj1 (read_line_computed fs_101 atoi_text img_fits [] 0 A1 B1)).
Defined.

Example read_lines_records_sample :
  read_lines fs_101 atoi_text (Some [line_full; []; img_fits]) [] 0
  = (ASTRO_SUCCESS,
     [file_rec.mk 1 img_fits outi img 0 1; file_rec.mk 1 img_fits outi img 50 1],
     0).
Proof. vm_compute. reflexivity. Qed.

(** * [ArrayAlloc] *)

Lemma int_of_long_small (z : Z) : 0 <= z < 2 ^ 31 -> int_of_long z = z.
Proof.
  intros H. unfold int_of_long.
  rewrite Z.mod_small by (change (2 ^ 32) with (2 ^ 31 + 2 ^ 31); lia). lia.
Qed.

Section ArrayAllocProof.

Variables sizeof_ptr sizeof_float : Z.
Variable malloc : Z -> bool.
Variable fresh : Z -> Z.
Variables frows fcolumns : Z.
Hypothesis sizeof_ptr_pos : 0 < sizeof_ptr.
Hypothesis sizeof_float_pos : 0 < sizeof_float.
Hypothesis frows_nonneg : 0 <= frows.
Hypothesis fcolumns_nonneg : 0 <= fcolumns.
(** The size asked for is an [int]. *)
Hypothesis size_fits :
  frows * sizeof_ptr + frows * fcolumns * sizeof_float < 2 ^ 31.

Lemma body_loop :
  for_loop (Z.to_nat frows) 0 (fun a body => int_of_long (body + fcolumns)) 0
  = frows * fcolumns.
Proof.
  assert (B : frows * fcolumns < 2 ^ 31) by nia.
  assert (H : forall n i b, 0 <= b -> b + Z.of_nat n * fcolumns < 2 ^ 31 ->
            for_loop n i (fun (a : Z) body => int_of_long (body + fcolumns)) b
            = b + Z.of_nat n * fcolumns).
  { induction n as [ | n IH]; intros i b Hb Hn; cbn [for_loop]; [lia | ].
    rewrite int_of_long_small by nia. rewrite IH by nia. lia. }
  rewrite H by lia. lia.
Qed.

Lemma rows_loop (f : Z -> Z) :
  f 0 = 0 ->
  forall a, 0 <= a < frows ->
    for_incl 1 (frows - 1)
      (fun a fptr => upd fptr a (fun _ => fptr (a - 1) + fcolumns)) f a
    = a * fcolumns.
Proof.
  intros H0.
  destruct (Z_le_gt_dec 1 (frows - 1 + 1)) as [L | G]; [ | intros a Ha; lia].
  assert (H : forall a, 0 <= a < frows - 1 + 1 ->
            for_incl 1 (frows - 1)
              (fun a fptr => upd fptr a (fun _ => fptr (a - 1) + fcolumns)) f a
            = a * fcolumns).
  { apply (for_incl_inv
             (fun i (t : Z -> Z) => forall a, 0 <= a < i -> t a = a * fcolumns));
      [exact L | | ].
    - intros a Ha. replace a with 0 by lia. rewrite H0. lia.
    - intros j t Hj Ht a Ha. unfold upd.
      destruct (Z.eqb_spec a j) as [-> | Hne].
      + rewrite Ht by lia. lia.
      + apply Ht. lia. }
  intros a Ha. apply H. lia.
Qed.

(** X24.  For a size that fits an [int], [ArrayAlloc] returns [NULL] and sets
    [ASTRO_ERR_MALLOC] exactly when [malloc] refuses [frows] row pointers
    plus [frows * fcolumns] floats.  Otherwise row [a] starts
    [a * fcolumns] floats after the header, so that the cells [(a, b)] with
    [0 <= a < frows] and [0 <= b < fcolumns] lie inside the body, at
    distinct places, rows end to end. *)
Theorem ArrayAlloc_layout (astro_errno : Z) :
  let size := frows * sizeof_ptr + frows * fcolumns * sizeof_float in
  (malloc size = false ->
   ArrayAlloc sizeof_ptr sizeof_float malloc fresh frows fcolumns astro_errno
   = (None, ASTRO_ERR_MALLOC))
  /\ (malloc size = true ->
      exists b,
        ArrayAlloc sizeof_ptr sizeof_float malloc fresh frows fcolumns
          astro_errno
        = (Some b, astro_errno)
        /\ block.bytes b = size
        /\ (forall a, 0 <= a < frows -> block.fptr b a = a * fcolumns)
        /\ (forall a c, 0 <= a < frows -> 0 <= c < fcolumns ->
              0 <= block.fptr b a + c < frows * fcolumns)
        /\ (forall a c a' c', 0 <= a < frows -> 0 <= c < fcolumns ->
              0 <= a' < frows -> 0 <= c' < fcolumns ->
              block.fptr b a + c = block.fptr b a' + c' -> a = a' /\ c = c')).
Proof.
  cbv zeta. unfold ArrayAlloc. rewrite body_loop.
  rewrite (int_of_long_small (frows * sizeof_ptr)) by nia.
  rewrite (int_of_long_small (frows * fcolumns * sizeof_float)) by nia.
  rewrite int_of_long_small by nia.
  split.
  - intros M. rewrite M. reflexivity.
  - intros M. rewrite M. cbn [negb]. eexists. split; [reflexivity | ].
    cbn [block.bytes block.fptr]. split; [reflexivity | ].
    assert (R : forall a, 0 <= a < frows ->
              for_incl 1 (frows - 1)
                (fun a fptr => upd fptr a (fun _ => fptr (a - 1) + fcolumns))
                (upd fresh 0 (fun _ => 0)) a = a * fcolumns)
      by (apply rows_loop; reflexivity).
    split; [exact R | ]. split.
    + intros a c Ha Hc. rewrite R by exact Ha. nia.
    + intros a c a' c' Ha Hc Ha' Hc'. rewrite !R by assumption. intros E.
      assert (a = a') by nia. subst a'. split; [reflexivity | lia].
Qed.

End ArrayAllocProof.

Lemma ArrayAlloc_layout_witness :
  (0 < 8 /\ 0 < 4 /\ 0 <= 3 /\ 0 <= 4 /\ 3 * 8 + 3 * 4 * 4 < 2 ^ 31)
  /\ exists b,
       ArrayAlloc 8 4 (fun _ => true) (fun _ => -1) 3 4 0 = (Some b, 0)
       /\ block.bytes b = 3 * 8 + 3 * 4 * 4.
Proof.
  assert (H1 : 0 < 8) by lia. assert (H2 : 0 < 4) by lia.
  assert (H3 : 0 <= 3) by lia. assert (H4 : 0 <= 4) by lia.
  assert (H5 : 3 * 8 + 3 * 4 * 4 < 2 ^ 31) by (vm_compute; reflexivity).
  split; [repeat split; assumption | ].
  destruct (proj2 (ArrayAlloc_layout 8 4 (fun _ => true) (fun _ => -1) 3 4
                     H1 H2 H3 H4 H5 0) eq_refl) as [b [E [S _]]].
  exists b. split; [exact E | exact S].
Defined.
